(** * Vector: a growable contiguous sequence over raw storage

    A shallow embedding of [src/vector.h] ([RawMemory<T>] and [Vector<T>])
    and the properties of its operations.

    Modelling conventions.
    - A block of raw memory is a list of slots; a slot is [None] while it is
      uninitialised storage and [Some x] while it holds a live object of
      value [x].  A [RawMemory] owns its block, so the model stores the block
      where the C++ object stores the pointer [buffer_]; the null pointer is
      the empty block.
    - [size_t] values are natural numbers.  The blocks the allocator can
      hand out are far smaller than 2^63 elements, so [Capacity() * 2] and
      [++size_] do not wrap; the one expression that wraps on reachable
      states, [size_ - 1] at [size_ = 0], is written out where it occurs.
      A number of elements that the caller gives to Vector(n), Reserve(n) or
      Resize(n) is any [size_t]: there the product [n * sizeof(T)] of
      Allocate is taken modulo 2^64, see [Allocate_size_t].
    - An iterator is the offset of the pointed slot from [begin()].
    - A C++ expression either completes, throws, or leaves the contract of
      the language or of the class (a failed [assert], a read of an
      uninitialised slot, an access outside the block): see [outcome].
    - The element type is a parameter: the class [ElementType] gives its
      type traits, says for which values each special member function
      throws and in which state a move leaves its source.
    - [operator=] and [Swap] take a second vector by reference, which can
      be the vector itself: they run on a store of vector objects.
    - [PushBack] and [Insert] are the overloads taking [const T&];
      [PushBack_rvalue] and [Insert_rvalue] are the overloads taking [T&&],
      whose argument is an object outside the vector or one of its
      elements.  [EmplaceBack] and [Emplace] take the outcome of the
      constructor call [T(args...)]. *)

From stdpp Require Import base tactics option list functions.
From Stdlib Require Import Lia.

Set Default Proof Using "Type*".

(** rewrite with an instance of a lemma about [pre ++ mid ++ post] taken at
    [pre = []] *)
Ltac rewrite_at_nil H :=
  let E := fresh in
  pose proof H as E; cbn [app length] in E; rewrite ?app_nil_r in E; rewrite E; clear E.

(** ** Outcomes of C++ expressions *)

Inductive exn : Type :=
  | bad_alloc           (* thrown by [operator new] *)
  | element_exception.  (* thrown by a special member function of [T] *)

Inductive outcome (R : Type) : Type :=
  | Normal (r : R)      (* the expression completed with value [r] *)
  | Throw (e : exn)     (* an exception left the expression *)
  | Undefined.          (* failed assert or undefined behaviour *)
Arguments Normal {R} r.
Arguments Throw {R} e.
Arguments Undefined {R}.

(** the way an expression that did not complete leaves the enclosing one *)
Definition fail_as {R R'} (o : outcome R) : outcome R' :=
  match o with Throw e => Throw e | _ => Undefined end.

(** [try { ... } catch (...) { h }] around a step whose state has type [S]:
    the handler runs on the state the exception left and does not rethrow *)
Definition catch_all {S} (r : S * outcome unit) (h : S → S * outcome unit)
  : S * outcome unit :=
  match r with
  | (s, Throw _) => h s
  | _ => r
  end.

(** ** The element type [T] *)

Class ElementType (T : Type) : Type := {
  (* std::is_nothrow_move_constructible_v<T> *)
  is_nothrow_move_constructible : bool;
  (* std::is_copy_constructible_v<T> *)
  is_copy_constructible : bool;
  (* T() and whether it throws *)
  value_init : T;
  value_init_throws : bool;
  (* T(const T&) throws when copying this value *)
  copy_throws : T → bool;
  (* T(T&&) throws when moving from this value; only consulted when the
     move constructor is not noexcept *)
  move_throws : T → bool;
  (* operator=(const T&) / operator=(T&&) throw when assigning this value *)
  copy_assign_throws : T → bool;
  move_assign_throws : T → bool;
  (* the state a move leaves in its source *)
  moved_from : T → T;
  (* operator new (n * sizeof(T)) throws std::bad_alloc *)
  alloc_fails : nat → bool
}.

(** Two element types over [nat] for the examples: [plain_nat] behaves as
    [int] does (nothing throws, a move leaves its source as it was);
    [fragile_nat bad] has a throwing move constructor, so it is relocated by
    copy, and its copy constructor throws on the value [bad]. *)

Definition plain_nat : ElementType nat :=
  {| is_nothrow_move_constructible := true; is_copy_constructible := true;
     value_init := 0; value_init_throws := false;
     copy_throws := λ _, false; move_throws := λ _, false;
     copy_assign_throws := λ _, false; move_assign_throws := λ _, false;
     moved_from := λ x, x; alloc_fails := λ _, false |}.

Definition fragile_nat (bad : nat) : ElementType nat :=
  {| is_nothrow_move_constructible := false; is_copy_constructible := true;
     value_init := 0; value_init_throws := false;
     copy_throws := λ x, x =? bad; move_throws := λ _, true;
     copy_assign_throws := λ _, false; move_assign_throws := λ _, false;
     moved_from := λ x, x; alloc_fails := λ _, false |}.

(** [plain_nat] with an allocator that has no memory left *)
Definition starved_nat : ElementType nat :=
  {| is_nothrow_move_constructible := true; is_copy_constructible := true;
     value_init := 0; value_init_throws := false;
     copy_throws := λ _, false; move_throws := λ _, false;
     copy_assign_throws := λ _, false; move_assign_throws := λ _, false;
     moved_from := λ x, x; alloc_fails := λ _, true |}.

(** An element type whose move constructor is not [noexcept] and does not
    throw, and whose copy constructor throws on the value [bad]; it is
    relocated by copy. *)
Definition unmarked_nat (bad : nat) : ElementType nat :=
  {| is_nothrow_move_constructible := false; is_copy_constructible := true;
     value_init := 0; value_init_throws := false;
     copy_throws := λ x, x =? bad; move_throws := λ _, false;
     copy_assign_throws := λ _, false; move_assign_throws := λ _, false;
     moved_from := λ _, 0; alloc_fails := λ _, false |}.

(** An element type that behaves as [std::string] does under a move: nothing
    throws, and a move leaves its source with the value of [T()]. *)
Definition emptied_nat : ElementType nat :=
  {| is_nothrow_move_constructible := true; is_copy_constructible := true;
     value_init := 0; value_init_throws := false;
     copy_throws := λ _, false; move_throws := λ _, false;
     copy_assign_throws := λ _, false; move_assign_throws := λ _, false;
     moved_from := λ _, 0; alloc_fails := λ _, false |}.

(** ** [size_t] and [sizeof(T)]

    [Allocate] multiplies a number of elements by [sizeof(T)] in [size_t].
    Neither constant is in [src/vector.h]: [sizeof(T)] is a parameter of
    the element type, and [size_t] has 64 bits, the width of the [int64_t]
    offsets of Insert and Erase. *)

Class SizeOf (T : Type) : Type := { size_of : positive }.

Definition SIZE_MAX : N := 2 ^ 64 - 1.

(** the numbers of the examples are 64-bit integers *)
#[global] Instance nat_size_of : SizeOf nat := {| size_of := 8 |}.

Section VectorModel.
Context {T : Type} `{ET : ElementType T} `{SZ : SizeOf T}.

Abbreviation block := (list (option T)).

(** T(T&&) throws *)
Definition move_ctor_throws (x : T) : bool :=
  negb is_nothrow_move_constructible && move_throws x.

(** the live object in slot [i], if there is one *)
Definition deref (b : block) (i : nat) : option T := mjoin (b !! i).

(** ** Placement construction, destruction and assignment on slots *)

(** [new (b + i) T(x)] with [x] an lvalue *)
Definition construct_copy (b : block) (i : nat) (x : T) : block * outcome unit :=
  if i <? length b then
    if copy_throws x then (b, Throw element_exception)
    else (<[i := Some x]> b, Normal tt)
  else (b, Undefined).

(** [new (b + d) T(std::move(b[s]))] inside one block *)
Definition construct_move (b : block) (d s : nat) : block * outcome unit :=
  match deref b s with
  | Some x =>
    if d <? length b then
      if move_ctor_throws x then (b, Throw element_exception)
      else (<[d := Some x]> (<[s := Some (moved_from x)]> b), Normal tt)
    else (b, Undefined)
  | None => (b, Undefined)
  end.

(** [b[i].~T()] *)
Definition destroy_at (b : block) (i : nat) : block * outcome unit :=
  match deref b i with
  | Some _ => (<[i := None]> b, Normal tt)
  | None => (b, Undefined)
  end.

(** [b[d] = std::move(b[s])] inside one block *)
Definition move_assign_slot (b : block) (d s : nat) : block * outcome unit :=
  match deref b s, deref b d with
  | Some x, Some _ =>
    if move_assign_throws x then (b, Throw element_exception)
    else (<[d := Some x]> (<[s := Some (moved_from x)]> b), Normal tt)
  | _, _ => (b, Undefined)
  end.

(** [b[i] = std::move(x)] with [x] a local object *)
Definition move_assign_value (b : block) (i : nat) (x : T) : block * outcome unit :=
  match deref b i with
  | Some _ =>
    if move_assign_throws x then (b, Throw element_exception)
    else (<[i := Some x]> b, Normal tt)
  | None => (b, Undefined)
  end.

(** ** The algorithms of <memory> and <algorithm> the class calls *)

(** [std::destroy_n(b + first, n)] *)
Fixpoint destroy_n (b : block) (first n : nat) : block * outcome unit :=
  match n with
  | 0 => (b, Normal tt)
  | S n' =>
    match destroy_at b first with
    | (b', Normal _) => destroy_n b' (S first) n'
    | r => r
    end
  end.

(** [std::uninitialized_value_construct_n(b + first, n)]: when a
    constructor throws, the objects built so far are destroyed and the
    exception goes on. *)
Fixpoint uninitialized_value_construct_n (b : block) (first n : nat)
  : block * outcome unit :=
  match n with
  | 0 => (b, Normal tt)
  | S n' =>
    if first <? length b then
      if value_init_throws then (b, Throw element_exception)
      else
        match uninitialized_value_construct_n (<[first := Some value_init]> b) (S first) n' with
        | (b', Throw e) => (<[first := None]> b', Throw e)
        | r => r
        end
    else (b, Undefined)
  end.

(** [std::uninitialized_copy_n(src + first, n, dst + d_first)], [src] and
    [dst] being different blocks; same roll-back as above. *)
Fixpoint uninitialized_copy_n (src : block) (first n : nat) (dst : block) (d_first : nat)
  : block * outcome unit :=
  match n with
  | 0 => (dst, Normal tt)
  | S n' =>
    match deref src first with
    | Some x =>
      match construct_copy dst d_first x with
      | (dst1, Normal _) =>
        match uninitialized_copy_n src (S first) n' dst1 (S d_first) with
        | (dst2, Throw e) => (<[d_first := None]> dst2, Throw e)
        | r => r
        end
      | r => r
      end
    | None => (dst, Undefined)
    end
  end.

(** [std::uninitialized_move_n(src + first, n, dst + d_first)]: as the copy,
    but every source object read is left in its moved-from state.  The
    result is the pair of blocks [(src, dst)] after the call. *)
Fixpoint uninitialized_move_n (src : block) (first n : nat) (dst : block) (d_first : nat)
  : (block * block) * outcome unit :=
  match n with
  | 0 => ((src, dst), Normal tt)
  | S n' =>
    match deref src first with
    | Some x =>
      if d_first <? length dst then
        if move_ctor_throws x then ((src, dst), Throw element_exception)
        else
          match uninitialized_move_n (<[first := Some (moved_from x)]> src) (S first) n'
                                     (<[d_first := Some x]> dst) (S d_first) with
          | ((src2, dst2), Throw e) => ((src2, <[d_first := None]> dst2), Throw e)
          | r => r
          end
      else ((src, dst), Undefined)
    | None => ((src, dst), Undefined)
    end
  end.

(** [std::move(b + first, b + first + n, b + d_first)] inside one block *)
Fixpoint move_range (b : block) (first n d_first : nat) : block * outcome unit :=
  match n with
  | 0 => (b, Normal tt)
  | S n' =>
    match move_assign_slot b d_first first with
    | (b', Normal _) => move_range b' (S first) n' (S d_first)
    | r => r
    end
  end.

(** [std::move_backward(b + last - n, b + last, b + d_last)] inside one
    block: the pointers are decremented before each assignment. *)
Fixpoint move_backward (b : block) (last n d_last : nat) {struct n} : block * outcome unit :=
  match n with
  | 0 => (b, Normal tt)
  | S n' =>
    match last, d_last with
    | S l, S d =>
      match move_assign_slot b d l with
      | (b', Normal _) => move_backward b' l n' d
      | r => r
      end
    | _, _ => (b, Undefined)
    end
  end.

(** The relocation step shared by every growth path:
    [if constexpr (is_nothrow_move_constructible_v<T> || !is_copy_constructible_v<T>)]
    moves, the other branch copies. *)
Definition relocates_by_move : bool :=
  is_nothrow_move_constructible || negb is_copy_constructible.

Definition relocate_n (src : block) (first n : nat) (dst : block) (d_first : nat)
  : (block * block) * outcome unit :=
  if relocates_by_move then uninitialized_move_n src first n dst d_first
  else
    let '(dst', r) := uninitialized_copy_n src first n dst d_first in
    ((src, dst'), r).

(** ** RawMemory<T> *)

Record RawMemory : Type := { buffer_ : block; capacity_ : nat }.

(** RawMemory::Allocate at a number of elements that the class computes
    from a block that exists, [Capacity() * 2] (or 1) and [other.size_]:
    [n * sizeof(T)] is the size of [n] elements.  [Allocate_size_t] below
    is the function at any number. *)
Definition Allocate (n : nat) : outcome block :=
  if negb (n =? 0) then
    if alloc_fails n then Throw bad_alloc else Normal (replicate n None)
  else Normal [].

(** [n * sizeof(T)] as [size_t] computes it, the argument of [operator new]
    in Allocate; the number of objects of type [T] a block of that many
    bytes has room for; and whether the product is the number it stands
    for, which is [n <= SIZE_MAX / sizeof(T)] *)
Definition allocation_bytes (n : nat) : N :=
  ((N.of_nat n * Npos size_of) mod (SIZE_MAX + 1))%N.

Definition allocation_slots (n : nat) : nat :=
  N.to_nat (allocation_bytes n / Npos size_of)%N.

Definition fits (n : nat) : bool := (N.of_nat n * Npos size_of <=? SIZE_MAX)%N.

(** RawMemory::Allocate for a number of elements that a caller of the class
    gives: the block that [operator new] returns has [allocation_bytes n]
    bytes, fewer than [n] elements need when the product wraps.
    [Allocate] above is the same function at the numbers the class itself
    computes, [Capacity() * 2] and [other.size_]: they come from a block
    that exists, so the product does not wrap. *)
Definition Allocate_size_t (n : nat) : outcome block :=
  if negb (n =? 0) then
    if alloc_fails n then Throw bad_alloc else Normal (replicate (allocation_slots n) None)
  else Normal [].

(** RawMemory() *)
Definition RawMemory_default : RawMemory := {| buffer_ := []; capacity_ := 0 |}.

(** RawMemory(size_t capacity) at such a number *)
Definition RawMemory_sized (capacity : nat) : outcome RawMemory :=
  match Allocate capacity with
  | Normal b => Normal {| buffer_ := b; capacity_ := capacity |}
  | Throw e => Throw e
  | Undefined => Undefined
  end.

(** RawMemory(size_t capacity) for a capacity that a caller of the class
    gives: [capacity_] is that number, whatever the block has room for *)
Definition RawMemory_size_t (capacity : nat) : outcome RawMemory :=
  match Allocate_size_t capacity with
  | Normal b => Normal {| buffer_ := b; capacity_ := capacity |}
  | Throw e => Throw e
  | Undefined => Undefined
  end.

(** RawMemory(RawMemory&& other): the new object and [other] afterwards *)
Definition RawMemory_move (other : RawMemory) : RawMemory * RawMemory :=
  ({| buffer_ := buffer_ other; capacity_ := capacity_ other |}, RawMemory_default).

(** RawMemory::Swap on two different objects *)
Definition RawMemory_Swap (a b : RawMemory) : RawMemory * RawMemory :=
  ({| buffer_ := buffer_ b; capacity_ := capacity_ b |},
   {| buffer_ := buffer_ a; capacity_ := capacity_ a |}).

(** RawMemory::operator+ : [assert(offset <= capacity_)] *)
Definition RawMemory_plus (m : RawMemory) (offset : nat) : outcome nat :=
  if offset <=? capacity_ m then Normal offset else Undefined.

(** RawMemory::operator[] : [assert(index < capacity_)] *)
Definition RawMemory_index (m : RawMemory) (index : nat) : outcome nat :=
  if index <? capacity_ m then Normal index else Undefined.

(** ** Vector<T> *)

Record Vector : Type := { data_ : RawMemory; size_ : nat }.

Definition Size (v : Vector) : nat := size_ v.
Definition Capacity (v : Vector) : nat := capacity_ (data_ v).

(** the block owned by [v] *)
Definition block_of (v : Vector) : block := buffer_ (data_ v).

(** [v] with the content of its block replaced *)
Definition with_block (v : Vector) (b : block) : Vector :=
  {| data_ := {| buffer_ := b; capacity_ := capacity_ (data_ v) |}; size_ := size_ v |}.

(** operator[] : [assert(index < size_)], then RawMemory::operator[] *)
Definition at_index (v : Vector) (index : nat) : outcome T :=
  if index <? size_ v then
    match RawMemory_index (data_ v) index with
    | Normal i => match deref (block_of v) i with Some x => Normal x | None => Undefined end
    | Throw e => Throw e
    | Undefined => Undefined
    end
  else Undefined.

(** Vector() *)
Definition Vector_default : Vector := {| data_ := RawMemory_default; size_ := 0 |}.

(** explicit Vector(size_t size) *)
Definition Vector_sized (size : nat) : outcome Vector :=
  match RawMemory_size_t size with
  | Normal d =>
    match uninitialized_value_construct_n (buffer_ d) 0 size with
    | (b, Normal _) =>
      Normal {| data_ := {| buffer_ := b; capacity_ := capacity_ d |}; size_ := size |}
    | (_, o) => fail_as o
    end
  | o => fail_as o
  end.

(** Vector(const Vector& other) *)
Definition Vector_copy (other : Vector) : outcome Vector :=
  match RawMemory_sized (size_ other) with
  | Normal d =>
    match uninitialized_copy_n (block_of other) 0 (size_ other) (buffer_ d) 0 with
    | (b, Normal _) =>
      Normal {| data_ := {| buffer_ := b; capacity_ := capacity_ d |}; size_ := size_ other |}
    | (_, o) => fail_as o
    end
  | o => fail_as o
  end.

(** Vector(Vector&& other): [other] afterwards and the new object.  The
    member initialisers build [data_(other.size_)] and [size_(other.size_)],
    the body swaps [data_] with [other.data_] and clears [other.size_]. *)
Definition Vector_move (other : Vector) : Vector * outcome Vector :=
  match RawMemory_sized (size_ other) with
  | Normal d =>
    let '(d', od') := RawMemory_Swap d (data_ other) in
    ({| data_ := od'; size_ := 0 |}, Normal {| data_ := d'; size_ := size_ other |})
  | o => (other, fail_as o)
  end.

(** ~Vector(): [std::destroy_n(data_.GetAddress(), size_)], then the block
    is released by ~RawMemory *)
Definition Vector_dtor (v : Vector) : outcome unit :=
  snd (destroy_n (block_of v) 0 (size_ v)).

(** Reserve *)
Definition Reserve (new_capacity : nat) (this : Vector) : Vector * outcome unit :=
  if new_capacity <=? capacity_ (data_ this) then (this, Normal tt)
  else
    match RawMemory_size_t new_capacity with
    | Normal new_data =>
      match relocate_n (block_of this) 0 (size_ this) (buffer_ new_data) 0 with
      | ((old, new), Normal _) =>
        match destroy_n old 0 (size_ this) with
        | (_, Normal _) =>
          (* data_.Swap(new_data); the old block dies with new_data *)
          ({| data_ := {| buffer_ := new; capacity_ := capacity_ new_data |};
              size_ := size_ this |}, Normal tt)
        | (old', o) => (with_block this old', fail_as o)
        end
      | ((old, _), o) => (with_block this old, fail_as o)
      end
    | o => (this, fail_as o)
    end.

(** Resize *)
Definition Resize (new_size : nat) (this : Vector) : Vector * outcome unit :=
  if size_ this <? new_size then
    match Reserve new_size this with
    | (this1, Normal _) =>
      match uninitialized_value_construct_n (block_of this1) (size_ this1)
                                            (new_size - size_ this1) with
      | (b, Normal _) =>
        ({| data_ := data_ (with_block this1 b); size_ := new_size |}, Normal tt)
      | (b, o) => (with_block this1 b, fail_as o)
      end
    | r => r
    end
  else if new_size <? size_ this then
    match destroy_n (block_of this) new_size (size_ this - new_size) with
    | (b, Normal _) =>
      ({| data_ := data_ (with_block this b); size_ := new_size |}, Normal tt)
    | (b, o) => (with_block this b, fail_as o)
    end
  else ({| data_ := data_ this; size_ := new_size |}, Normal tt).

(** the capacity requested by every growth path:
    [(size_ == 0) ? 1 : Capacity() * 2] *)
Definition grown_capacity (this : Vector) : nat :=
  if size_ this =? 0 then 1 else Capacity this * 2.

(** PushBack(const T& value).  [value] is copied into the new slot before
    any element is moved or destroyed, so the model takes it by value even
    where the reference points into the vector; the same holds in Insert. *)
Definition PushBack (value : T) (this : Vector) : Vector * outcome unit :=
  if size_ this =? Capacity this then
    match RawMemory_sized (grown_capacity this) with
    | Normal new_data =>
      match RawMemory_index new_data (size_ this) with
      | Normal i =>
        match construct_copy (buffer_ new_data) i value with
        | (new0, Normal _) =>
          match relocate_n (block_of this) 0 (size_ this) new0 0 with
          | ((old, new), Normal _) =>
            match destroy_n old 0 (size_ this) with
            | (_, Normal _) =>
              ({| data_ := {| buffer_ := new; capacity_ := capacity_ new_data |};
                  size_ := size_ this + 1 |}, Normal tt)
            | (old', o) => (with_block this old', fail_as o)
            end
          | ((old, _), o) => (with_block this old, fail_as o)
          end
        | (_, o) => (this, fail_as o)
        end
      | o => (this, fail_as o)
      end
    | o => (this, fail_as o)
    end
  else
    match RawMemory_index (data_ this) (size_ this) with
    | Normal i =>
      match construct_copy (block_of this) i value with
      | (b, Normal _) =>
        ({| data_ := data_ (with_block this b); size_ := size_ this + 1 |}, Normal tt)
      | (b, o) => (with_block this b, fail_as o)
      end
    | o => (this, fail_as o)
    end.

(** PopBack *)
Definition PopBack (this : Vector) : Vector * outcome unit :=
  match size_ this with
  | 0 => (this, Undefined)  (* size_ - 1 wraps to SIZE_MAX, the assert of operator[] fails *)
  | S k =>
    match RawMemory_index (data_ this) k with
    | Normal i =>
      match destroy_at (block_of this) i with
      | (b, Normal _) => ({| data_ := data_ (with_block this b); size_ := k |}, Normal tt)
      | (b, o) => (with_block this b, fail_as o)
      end
    | o => (this, fail_as o)
    end
  end.

(** Erase(const_iterator pos).  Past the test of the range [size_] is at
    least 1, so [size_ - 1] does not wrap. *)
Definition Erase (pos : nat) (this : Vector) : Vector * outcome nat :=
  let erase_idx := pos in
  if erase_idx + 1 <=? size_ this then
    match move_range (block_of this) (erase_idx + 1) (size_ this - (erase_idx + 1)) erase_idx with
    | (b, Normal _) =>
      match destroy_at b (size_ this - 1) with
      | (b', Normal _) =>
        ({| data_ := data_ (with_block this b'); size_ := size_ this - 1 |}, Normal erase_idx)
      | (b', o) => (with_block this b', fail_as o)
      end
    | (b, o) => (with_block this b, fail_as o)
    end
  else (this, Undefined)  (* [begin() + erase_idx + 1, end()) is not a range *).

(** Insert(const_iterator pos, const T& value).  Both branches of the
    [if constexpr] run the same statements around their relocation call,
    which is [relocate_n] here. *)
Definition Insert (pos : nat) (value : T) (this : Vector) : Vector * outcome nat :=
  if pos =? size_ this then
    match PushBack value this with
    | (this', Normal _) => (this', Normal (size_ this' - 1))
    | (this', o) => (this', fail_as o)
    end
  else if size_ this <? pos then (this, Undefined)  (* pos is not in [begin(), end()] *)
  else
    let insert_idx := pos in
    let idx_from_end := size_ this - pos in
    if size_ this =? Capacity this then
      match RawMemory_sized (grown_capacity this) with
      | Normal new_data =>
        match RawMemory_plus new_data insert_idx with
        | Normal temp_value =>
          match construct_copy (buffer_ new_data) temp_value value with
          | (new0, Normal _) =>
            match catch_all (relocate_n (block_of this) 0 insert_idx new0 0)
                            (λ '(old, new),
                               let '(new', o) := destroy_at new temp_value in ((old, new'), o)) with
            | ((old1, new1), Normal _) =>
              match RawMemory_plus (data_ this) insert_idx with
              | Normal from =>
                match catch_all (relocate_n old1 from idx_from_end new1 (insert_idx + 1))
                                (λ '(old, new),
                                   let '(new', o) := destroy_n new 0 (insert_idx + 1) in
                                   ((old, new'), o)) with
                | ((old2, new2), Normal _) =>
                  match destroy_n old2 0 (size_ this) with
                  | (_, Normal _) =>
                    ({| data_ := {| buffer_ := new2; capacity_ := capacity_ new_data |};
                        size_ := size_ this + 1 |}, Normal temp_value)
                  | (old3, o) => (with_block this old3, fail_as o)
                  end
                | ((old2, _), o) => (with_block this old2, fail_as o)
                end
              | o => (with_block this old1, fail_as o)
              end
            | ((old1, _), o) => (with_block this old1, fail_as o)
            end
          | (_, o) => (this, fail_as o)
          end
        | o => (this, fail_as o)
        end
      | o => (this, fail_as o)
      end
    else
      (* T value_copy(value); here pos < size_, so size_ - 1 does not wrap *)
      if copy_throws value then (this, Throw element_exception)
      else
        match RawMemory_index (data_ this) (size_ this),
              RawMemory_index (data_ this) (size_ this - 1) with
        | Normal d, Normal s =>
          match construct_move (block_of this) d s with
          | (b1, Normal _) =>
            match move_backward b1 (size_ this - 1) (size_ this - 1 - insert_idx) (size_ this) with
            | (b2, Normal _) =>
              match RawMemory_index (data_ this) insert_idx with
              | Normal i =>
                match move_assign_value b2 i value with
                | (b3, Normal _) =>
                  ({| data_ := data_ (with_block this b3); size_ := size_ this + 1 |},
                   Normal insert_idx)
                | (b3, o) => (with_block this b3, fail_as o)
                end
              | o => (with_block this b2, fail_as o)
              end
            | (b2, o) => (with_block this b2, fail_as o)
            end
          | (b1, o) => (with_block this b1, fail_as o)
          end
        | _, _ => (this, Undefined)
        end.

(** ** Operations on two vectors

    [operator=] and [Swap] take a reference to a second vector, which may
    be the vector itself.  They run on a store of vector objects and name
    their operands by location; every field read and write goes through
    the store, in the order of the source. *)

Abbreviation store := (nat → Vector).

Definition set_data (l : nat) (d : RawMemory) (σ : store) : store :=
  <[l := {| data_ := d; size_ := size_ (σ l) |}]> σ.

Definition set_size (l : nat) (n : nat) (σ : store) : store :=
  <[l := {| data_ := data_ (σ l); size_ := n |}]> σ.

Definition set_block (l : nat) (b : block) (σ : store) : store :=
  <[l := with_block (σ l) b]> σ.

(** [data_.Swap(other.data_)]: std::swap of [buffer_], then of [capacity_] *)
Definition data_Swap (this other : nat) (σ : store) : store :=
  let tmp := buffer_ (data_ (σ this)) in
  let σ := set_data this {| buffer_ := buffer_ (data_ (σ other));
                            capacity_ := capacity_ (data_ (σ this)) |} σ in
  let σ := set_data other {| buffer_ := tmp; capacity_ := capacity_ (data_ (σ other)) |} σ in
  let tmp := capacity_ (data_ (σ this)) in
  let σ := set_data this {| buffer_ := buffer_ (data_ (σ this));
                            capacity_ := capacity_ (data_ (σ other)) |} σ in
  set_data other {| buffer_ := buffer_ (data_ (σ other)); capacity_ := tmp |} σ.

(** Swap(Vector& other) *)
Definition Swap (this other : nat) (σ : store) : store :=
  let σ := data_Swap this other σ in
  let tmp := size_ (σ this) in
  let σ := set_size this (size_ (σ other)) σ in
  set_size other tmp σ.

(** operator=(Vector&& rhs) *)
Definition move_assign (this rhs : nat) (σ : store) : store * outcome unit :=
  let σ := data_Swap this rhs σ in
  let σ := set_size rhs 0 σ in
  (σ, Normal tt).

(** the loops [for (i = ...; i < n; ++i) data_[i] = rhs.data_[i];] of
    operator=(const Vector&), with [k] iterations left *)
Fixpoint assign_loop (this rhs : nat) (i k : nat) (σ : store) : store * outcome unit :=
  match k with
  | 0 => (σ, Normal tt)
  | S k' =>
    match RawMemory_index (data_ (σ this)) i, RawMemory_index (data_ (σ rhs)) i with
    | Normal d, Normal s =>
      match deref (block_of (σ rhs)) s, deref (block_of (σ this)) d with
      | Some x, Some _ =>
        if copy_assign_throws x then (σ, Throw element_exception)
        else assign_loop this rhs (S i) k' (set_block this (<[d := Some x]> (block_of (σ this))) σ)
      | _, _ => (σ, Undefined)
      end
    | _, _ => (σ, Undefined)
    end
  end.

(** operator=(const Vector& rhs) *)
Definition copy_assign (this rhs : nat) (σ : store) : store * outcome unit :=
  if capacity_ (data_ (σ this)) <? size_ (σ rhs) then
    match Vector_copy (σ rhs) with
    | Normal rhs_copy =>
      (* Swap(rhs_copy): rhs_copy is a new local object, so it is no
         object of the store; after the swap it holds what [this] held and
         its destructor runs at the end of the block *)
      let old := σ this in
      let σ := <[this := rhs_copy]> σ in
      (σ, match Vector_dtor old with Normal _ => Normal tt | o => fail_as o end)
    | o => (σ, fail_as o)
    end
  else
    if size_ (σ rhs) <? size_ (σ this) then
      match assign_loop this rhs 0 (size_ (σ rhs)) σ with
      | (σ, Normal _) =>
        match destroy_n (block_of (σ this)) (size_ (σ rhs)) (size_ (σ this) - size_ (σ rhs)) with
        | (b, Normal _) =>
          let σ := set_block this b σ in
          (set_size this (size_ (σ rhs)) σ, Normal tt)
        | (b, o) => (set_block this b σ, fail_as o)
        end
      | r => r
      end
    else
      match assign_loop this rhs 0 (size_ (σ this)) σ with
      | (σ, Normal _) =>
        match uninitialized_copy_n (block_of (σ rhs)) (size_ (σ this))
                (size_ (σ rhs) - size_ (σ this)) (block_of (σ this)) (size_ (σ this)) with
        | (b, Normal _) =>
          let σ := set_block this b σ in
          (set_size this (size_ (σ rhs)) σ, Normal tt)
        | (b, o) => (set_block this b σ, fail_as o)
        end
      | r => r
      end.

(** ** EmplaceBack, Emplace and the overloads taking [T&&]

    These members repeat PushBack and Insert with another expression for
    the new element.  A constructor call [T(args...)] is given by its
    outcome, the value built or the exception thrown; its arguments are not
    elements of the vector.  The object an rvalue reference [T&& value]
    refers to is an object outside the vector or one of its elements. *)

(** [new (b + i) T(std::forward<Args>(args)...)] *)
Definition construct_with (b : block) (i : nat) (ctor : outcome T) : block * outcome unit :=
  if i <? length b then
    match ctor with
    | Normal x => (<[i := Some x]> b, Normal tt)
    | o => (b, fail_as o)
    end
  else (b, Undefined).

(** EmplaceBack(Args&&... args); the reference returned is the index of the
    slot of [new_value] *)
Definition EmplaceBack (ctor : outcome T) (this : Vector) : Vector * outcome nat :=
  if size_ this =? Capacity this then
    match RawMemory_sized (grown_capacity this) with
    | Normal new_data =>
      match RawMemory_index new_data (size_ this) with
      | Normal new_value =>
        match construct_with (buffer_ new_data) new_value ctor with
        | (new0, Normal _) =>
          match relocate_n (block_of this) 0 (size_ this) new0 0 with
          | ((old, new), Normal _) =>
            match destroy_n old 0 (size_ this) with
            | (_, Normal _) =>
              ({| data_ := {| buffer_ := new; capacity_ := capacity_ new_data |};
                  size_ := size_ this + 1 |}, Normal new_value)
            | (old', o) => (with_block this old', fail_as o)
            end
          | ((old, _), o) => (with_block this old, fail_as o)
          end
        | (_, o) => (this, fail_as o)
        end
      | o => (this, fail_as o)
      end
    | o => (this, fail_as o)
    end
  else
    match RawMemory_index (data_ this) (size_ this) with
    | Normal new_value =>
      match construct_with (block_of this) new_value ctor with
      | (b, Normal _) =>
        ({| data_ := data_ (with_block this b); size_ := size_ this + 1 |}, Normal new_value)
      | (b, o) => (with_block this b, fail_as o)
      end
    | o => (this, fail_as o)
    end.

(** Emplace(const_iterator pos, Args&&... args) *)
Definition Emplace (pos : nat) (ctor : outcome T) (this : Vector) : Vector * outcome nat :=
  if pos =? size_ this then EmplaceBack ctor this
  else if size_ this <? pos then (this, Undefined)  (* pos is not in [begin(), end()] *)
  else
    let insert_idx := pos in
    let idx_from_end := size_ this - pos in
    if size_ this =? Capacity this then
      match RawMemory_sized (grown_capacity this) with
      | Normal new_data =>
        match RawMemory_plus new_data insert_idx with
        | Normal temp_value =>
          match construct_with (buffer_ new_data) temp_value ctor with
          | (new0, Normal _) =>
            match catch_all (relocate_n (block_of this) 0 insert_idx new0 0)
                            (λ '(old, new),
                               let '(new', o) := destroy_at new temp_value in ((old, new'), o)) with
            | ((old1, new1), Normal _) =>
              match RawMemory_plus (data_ this) insert_idx with
              | Normal from =>
                match catch_all (relocate_n old1 from idx_from_end new1 (insert_idx + 1))
                                (λ '(old, new),
                                   let '(new', o) := destroy_n new 0 (insert_idx + 1) in
                                   ((old, new'), o)) with
                | ((old2, new2), Normal _) =>
                  match destroy_n old2 0 (size_ this) with
                  | (_, Normal _) =>
                    ({| data_ := {| buffer_ := new2; capacity_ := capacity_ new_data |};
                        size_ := size_ this + 1 |}, Normal temp_value)
                  | (old3, o) => (with_block this old3, fail_as o)
                  end
                | ((old2, _), o) => (with_block this old2, fail_as o)
                end
              | o => (with_block this old1, fail_as o)
              end
            | ((old1, _), o) => (with_block this old1, fail_as o)
            end
          | (_, o) => (this, fail_as o)
          end
        | o => (this, fail_as o)
        end
      | o => (this, fail_as o)
      end
    else
      (* T value_copy(std::forward<Args>(args)...); pos < size_, so size_ - 1 does not wrap *)
      match ctor with
      | Normal value_copy =>
        match RawMemory_index (data_ this) (size_ this),
              RawMemory_index (data_ this) (size_ this - 1) with
        | Normal d, Normal s =>
          match construct_move (block_of this) d s with
          | (b1, Normal _) =>
            match move_backward b1 (size_ this - 1) (size_ this - 1 - insert_idx) (size_ this) with
            | (b2, Normal _) =>
              match RawMemory_index (data_ this) insert_idx with
              | Normal i =>
                match move_assign_value b2 i value_copy with
                | (b3, Normal _) =>
                  ({| data_ := data_ (with_block this b3); size_ := size_ this + 1 |},
                   Normal insert_idx)
                | (b3, o) => (with_block this b3, fail_as o)
                end
              | o => (with_block this b2, fail_as o)
              end
            | (b2, o) => (with_block this b2, fail_as o)
            end
          | (b1, o) => (with_block this b1, fail_as o)
          end
        | _, _ => (this, Undefined)
        end
      | o => (this, fail_as o)
      end.

(** the object a [T&&] parameter refers to: an object of value [x] outside
    the vector, or the element of the vector in slot [i] *)
Inductive rvalue : Type :=
  | Outside (x : T)
  | Inside (i : nat).

(** [T(std::move(value))] evaluated while the block of the vector is [b]:
    the block and the argument afterwards, and the value built.  A move
    leaves its source in the moved-from state, where the source is. *)
Definition move_construct_from (value : rvalue) (b : block)
  : (block * rvalue) * outcome T :=
  match value with
  | Outside x =>
    if move_ctor_throws x then ((b, value), Throw element_exception)
    else ((b, Outside (moved_from x)), Normal x)
  | Inside i =>
    match deref b i with
    | Some x =>
      if move_ctor_throws x then ((b, value), Throw element_exception)
      else ((<[i := Some (moved_from x)]> b, value), Normal x)
    | None => ((b, value), Undefined)
    end
  end.

(** PushBack(T&& value): the vector and the argument afterwards *)
Definition PushBack_rvalue (value : rvalue) (this : Vector)
  : (Vector * rvalue) * outcome unit :=
  if size_ this =? Capacity this then
    match RawMemory_sized (grown_capacity this) with
    | Normal new_data =>
      match RawMemory_index new_data (size_ this) with
      | Normal i =>
        if i <? length (buffer_ new_data) then
          match move_construct_from value (block_of this) with
          | ((old0, value'), Normal x) =>
            match relocate_n old0 0 (size_ this) (<[i := Some x]> (buffer_ new_data)) 0 with
            | ((old, new), Normal _) =>
              match destroy_n old 0 (size_ this) with
              | (_, Normal _) =>
                (({| data_ := {| buffer_ := new; capacity_ := capacity_ new_data |};
                     size_ := size_ this + 1 |}, value'), Normal tt)
              | (old', o) => ((with_block this old', value'), fail_as o)
              end
            | ((old, _), o) => ((with_block this old, value'), fail_as o)
            end
          | ((old0, value'), o) => ((with_block this old0, value'), fail_as o)
          end
        else ((this, value), Undefined)
      | o => ((this, value), fail_as o)
      end
    | o => ((this, value), fail_as o)
    end
  else
    match RawMemory_index (data_ this) (size_ this) with
    | Normal i =>
      if i <? length (block_of this) then
        match move_construct_from value (block_of this) with
        | ((b0, value'), Normal x) =>
          (({| data_ := data_ (with_block this (<[i := Some x]> b0)); size_ := size_ this + 1 |},
            value'), Normal tt)
        | ((b0, value'), o) => ((with_block this b0, value'), fail_as o)
        end
      else ((this, value), Undefined)
    | o => ((this, value), fail_as o)
    end.

(** Insert(const_iterator pos, T&& value): the vector and the argument
    afterwards *)
Definition Insert_rvalue (pos : nat) (value : rvalue) (this : Vector)
  : (Vector * rvalue) * outcome nat :=
  if pos =? size_ this then
    match PushBack_rvalue value this with
    | ((this', value'), Normal _) => ((this', value'), Normal (size_ this' - 1))
    | ((this', value'), o) => ((this', value'), fail_as o)
    end
  else if size_ this <? pos then ((this, value), Undefined)
  else
    let insert_idx := pos in
    let idx_from_end := size_ this - pos in
    if size_ this =? Capacity this then
      match RawMemory_sized (grown_capacity this) with
      | Normal new_data =>
        match RawMemory_plus new_data insert_idx with
        | Normal temp_value =>
          if temp_value <? length (buffer_ new_data) then
            match move_construct_from value (block_of this) with
            | ((old0, value'), Normal x) =>
              match catch_all (relocate_n old0 0 insert_idx
                                 (<[temp_value := Some x]> (buffer_ new_data)) 0)
                              (λ '(old, new),
                                 let '(new', o) := destroy_at new temp_value in
                                 ((old, new'), o)) with
              | ((old1, new1), Normal _) =>
                match RawMemory_plus (data_ this) insert_idx with
                | Normal from =>
                  match catch_all (relocate_n old1 from idx_from_end new1 (insert_idx + 1))
                                  (λ '(old, new),
                                     let '(new', o) := destroy_n new 0 (insert_idx + 1) in
                                     ((old, new'), o)) with
                  | ((old2, new2), Normal _) =>
                    match destroy_n old2 0 (size_ this) with
                    | (_, Normal _) =>
                      (({| data_ := {| buffer_ := new2; capacity_ := capacity_ new_data |};
                           size_ := size_ this + 1 |}, value'), Normal temp_value)
                    | (old3, o) => ((with_block this old3, value'), fail_as o)
                    end
                  | ((old2, _), o) => ((with_block this old2, value'), fail_as o)
                  end
                | o => ((with_block this old1, value'), fail_as o)
                end
              | ((old1, _), o) => ((with_block this old1, value'), fail_as o)
              end
            | ((old0, value'), o) => ((with_block this old0, value'), fail_as o)
            end
          else ((this, value), Undefined)
        | o => ((this, value), fail_as o)
        end
      | o => ((this, value), fail_as o)
      end
    else
      (* T value_copy(std::move(value)); *)
      match move_construct_from value (block_of this) with
      | ((b0, value'), Normal value_copy) =>
        match RawMemory_index (data_ this) (size_ this),
              RawMemory_index (data_ this) (size_ this - 1) with
        | Normal d, Normal s =>
          match construct_move b0 d s with
          | (b1, Normal _) =>
            match move_backward b1 (size_ this - 1) (size_ this - 1 - insert_idx) (size_ this) with
            | (b2, Normal _) =>
              match RawMemory_index (data_ this) insert_idx with
              | Normal i =>
                match move_assign_value b2 i value_copy with
                | (b3, Normal _) =>
                  (({| data_ := data_ (with_block this b3); size_ := size_ this + 1 |}, value'),
                   Normal insert_idx)
                | (b3, o) => ((with_block this b3, value'), fail_as o)
                end
              | o => ((with_block this b2, value'), fail_as o)
              end
            | (b2, o) => ((with_block this b2, value'), fail_as o)
            end
          | (b1, o) => ((with_block this b1, value'), fail_as o)
          end
        | _, _ => ((with_block this b0, value'), Undefined)
        end
      | ((b0, value'), o) => ((with_block this b0, value'), fail_as o)
      end.

(** ** Specification vocabulary *)

(** no special member function of [T] throws on the value [x] *)
Definition no_throw (x : T) : Prop :=
  copy_throws x = false ∧ move_ctor_throws x = false ∧
  copy_assign_throws x = false ∧ move_assign_throws x = false.

(** [v] holds exactly the elements [xs]: [size_] is their number, they are
    the live objects of the first slots in this order, and the rest of the
    block, up to [capacity_], is uninitialised. *)
Definition represents (v : Vector) (xs : list T) : Prop :=
  size_ v = length xs ∧ length xs ≤ capacity_ (data_ v) ∧
  buffer_ (data_ v) = (Some <$> xs) ++ replicate (capacity_ (data_ v) - length xs) None.

(** The class invariant, as a test: the block has [capacity_] slots,
    [size_ <= capacity_], the slots below [size_] are live and the others
    are not. *)
Definition invariant (v : Vector) : bool :=
  (length (block_of v) =? Capacity v) && (size_ v <=? Capacity v) &&
  forallb (λ s : option T, match s with Some _ => true | None => false end) (take (size_ v) (block_of v)) &&
  forallb (λ s : option T, match s with Some _ => false | None => true end) (drop (size_ v) (block_of v)).

(** the values readable through operator[] : those of the slots below
    [size_], [None] standing for a slot that holds no object *)
Definition contents (v : Vector) : list (option T) := take (size_ v) (block_of v).

(** a sequence of PushBack calls, one per element of [xs] *)
Fixpoint PushBack_all (xs : list T) (this : Vector) : Vector * outcome unit :=
  match xs with
  | [] => (this, Normal tt)
  | x :: xs' =>
    match PushBack x this with
    | (this', Normal _) => PushBack_all xs' this'
    | r => r
    end
  end.

(** the operations on one vector, and the vector an operation leaves *)
Inductive operation : Type :=
  | OpPushBack (value : T)
  | OpInsert (pos : nat) (value : T)
  | OpErase (pos : nat)
  | OpPopBack
  | OpResize (new_size : nat)
  | OpReserve (new_capacity : nat).

Definition run (op : operation) (this : Vector) : Vector :=
  match op with
  | OpPushBack value => fst (PushBack value this)
  | OpInsert pos value => fst (Insert pos value this)
  | OpErase pos => fst (Erase pos this)
  | OpPopBack => fst (PopBack this)
  | OpResize new_size => fst (Resize new_size this)
  | OpReserve new_capacity => fst (Reserve new_capacity this)
  end.

(** the contract of an operation on a vector that holds [xs] (a number of
    elements given to Resize or Reserve is one whose size in bytes is a
    [size_t]), the values it is given, and the elements it is to leave *)
Definition valid (op : operation) (xs : list T) : Prop :=
  match op with
  | OpPushBack _ => True
  | OpInsert pos _ => pos ≤ length xs
  | OpErase pos => pos < length xs
  | OpPopBack => 0 < length xs
  | OpResize new_size => fits new_size = true
  | OpReserve new_capacity => fits new_capacity = true
  end.

Definition arguments (op : operation) : list T :=
  match op with
  | OpPushBack value | OpInsert _ value => [value]
  | _ => []
  end.

Definition effect (op : operation) (xs : list T) : list T :=
  match op with
  | OpPushBack value => xs ++ [value]
  | OpInsert pos value => take pos xs ++ value :: drop pos xs
  | OpErase pos => take pos xs ++ drop (S pos) xs
  | OpPopBack => take (length xs - 1) xs
  | OpResize new_size => take new_size xs ++ replicate (new_size - length xs) value_init
  | OpReserve _ => xs
  end.

(** a sequence of operations, each run on the vector the one before it left,
    with its contract and its effect on the elements *)
Fixpoint run_all (ops : list operation) (this : Vector) : Vector :=
  match ops with
  | [] => this
  | op :: ops' => run_all ops' (run op this)
  end.

Fixpoint valid_all (ops : list operation) (xs : list T) : Prop :=
  match ops with
  | [] => True
  | op :: ops' => valid op xs ∧ valid_all ops' (effect op xs)
  end.

Fixpoint effect_all (ops : list operation) (xs : list T) : list T :=
  match ops with
  | [] => xs
  | op :: ops' => effect_all ops' (effect op xs)
  end.

(** the constructor call [T(x)] of a copy, as an argument of EmplaceBack and
    Emplace *)
Definition copied (x : T) : outcome T :=
  if copy_throws x then Throw element_exception else Normal x.

(** the object an rvalue argument refers to, given the elements of the
    vector; what a move out of it leaves in the vector and in the argument *)
Definition refers_to (value : rvalue) (xs : list T) (x : T) : Prop :=
  match value with
  | Outside y => y = x
  | Inside i => xs !! i = Some x
  end.

Definition after_move (value : rvalue) (xs : list T) (x : T) : list T :=
  match value with
  | Outside _ => xs
  | Inside i => <[i := moved_from x]> xs
  end.

Definition argument_after_move (value : rvalue) : rvalue :=
  match value with
  | Outside x => Outside (moved_from x)
  | Inside i => Inside i
  end.

(** an operation returns, with the iterator the specification gives it, and
    so does each operation of a sequence *)
Definition returns (op : operation) (this : Vector) : Prop :=
  match op with
  | OpPushBack value => snd (PushBack value this) = Normal tt
  | OpInsert pos value => snd (Insert pos value this) = Normal pos
  | OpErase pos => snd (Erase pos this) = Normal pos
  | OpPopBack => snd (PopBack this) = Normal tt
  | OpResize new_size => snd (Resize new_size this) = Normal tt
  | OpReserve new_capacity => snd (Reserve new_capacity this) = Normal tt
  end.

Fixpoint returns_all (ops : list operation) (this : Vector) : Prop :=
  match ops with
  | [] => True
  | op :: ops' => returns op this ∧ returns_all ops' (run op this)
  end.

(** ** Slots of a block written as [pre ++ slot :: post] *)

Lemma deref_middle (pre post : block) (s : option T) (i : nat) :
  i = length pre → deref (pre ++ s :: post) i = s.
Proof.
  intros ->. unfold deref. by rewrite list_lookup_middle.
Qed.

Lemma insert_middle (pre post : block) (s s' : option T) (i : nat) :
  i = length pre → <[i := s']> (pre ++ s :: post) = pre ++ s' :: post.
Proof.
  intros ->. rewrite insert_app_r_alt by lia. by rewrite Nat.sub_diag.
Qed.

Lemma ltb_middle (pre post : block) (s : option T) (i : nat) :
  i = length pre → (i <? length (pre ++ s :: post)) = true.
Proof.
  intros ->. apply Nat.ltb_lt. rewrite length_app. simpl. lia.
Qed.

Lemma snoc_app {A} (l1 l2 : list A) (x : A) : l1 ++ x :: l2 = (l1 ++ [x]) ++ l2.
Proof. by rewrite <- app_assoc. Qed.

Lemma length_snoc {A} (l : list A) (x : A) : length (l ++ [x]) = S (length l).
Proof. rewrite length_app. simpl. lia. Qed.

(** ** The algorithms when nothing throws *)

Lemma destroy_n_ok (zs : list T) : ∀ (pre post : block) (first n : nat),
  first = length pre → n = length zs →
  destroy_n (pre ++ (Some <$> zs) ++ post) first n
  = (pre ++ replicate n None ++ post, Normal tt).
Proof.
  induction zs as [|z zs IH]; intros pre post first n -> ->; simpl; [done|].
  unfold destroy_at. rewrite deref_middle by done.
  rewrite insert_middle by done.
  rewrite (snoc_app pre). rewrite IH by (by rewrite ?length_snoc).
  by rewrite <- snoc_app.
Qed.

Lemma uninitialized_value_construct_n_ok : ∀ (n : nat) (pre mid post : block) (first : nat),
  value_init_throws = false →
  first = length pre → n = length mid →
  uninitialized_value_construct_n (pre ++ mid ++ post) first n
  = (pre ++ replicate n (Some value_init) ++ post, Normal tt).
Proof.
  induction n as [|n IH]; intros pre mid post first Hv -> Hn.
  - by destruct mid.
  - destruct mid as [|m mid]; [done|]. simpl in *.
    rewrite Hv.
    rewrite ltb_middle by done.
    rewrite insert_middle by done.
    rewrite (snoc_app pre). rewrite IH by (rewrite ?length_snoc; congruence).
    by rewrite <- snoc_app.
Qed.

Lemma uninitialized_copy_n_ok (xs : list T) :
  ∀ (pre post dpre mid dpost : block) (first n d_first : nat),
  Forall (λ x, copy_throws x = false) xs →
  first = length pre → n = length xs → d_first = length dpre → length mid = length xs →
  uninitialized_copy_n (pre ++ (Some <$> xs) ++ post) first n (dpre ++ mid ++ dpost) d_first
  = (dpre ++ (Some <$> xs) ++ dpost, Normal tt).
Proof.
  induction xs as [|x xs IH]; intros pre post dpre mid dpost first n d_first Hc -> -> -> Hm.
  - by destruct mid.
  - destruct mid as [|m mid]; [done|]. simpl in *.
    inversion_clear Hc as [|? ? Hx Hc'].
    rewrite deref_middle by done. unfold construct_copy. rewrite Hx.
    rewrite ltb_middle by done.
    rewrite insert_middle by done.
    rewrite (snoc_app pre), (snoc_app dpre).
    rewrite IH by (rewrite ?length_snoc; auto).
    by rewrite <- snoc_app.
Qed.

Lemma uninitialized_move_n_ok (xs : list T) :
  ∀ (pre post dpre mid dpost : block) (first n d_first : nat),
  Forall (λ x, move_ctor_throws x = false) xs →
  first = length pre → n = length xs → d_first = length dpre → length mid = length xs →
  uninitialized_move_n (pre ++ (Some <$> xs) ++ post) first n (dpre ++ mid ++ dpost) d_first
  = ((pre ++ (Some <$> (moved_from <$> xs)) ++ post, dpre ++ (Some <$> xs) ++ dpost), Normal tt).
Proof.
  induction xs as [|x xs IH]; intros pre post dpre mid dpost first n d_first Hc -> -> -> Hm.
  - by destruct mid.
  - destruct mid as [|m mid]; [done|]. simpl in *.
    inversion_clear Hc as [|? ? Hx Hc'].
    rewrite deref_middle by done. rewrite Hx.
    rewrite ltb_middle by done.
    rewrite !insert_middle by done.
    rewrite (snoc_app pre), (snoc_app dpre).
    rewrite IH by (rewrite ?length_snoc; auto).
    by rewrite <- !snoc_app.
Qed.

Lemma no_throw_copy (xs : list T) :
  Forall no_throw xs → Forall (λ x, copy_throws x = false) xs.
Proof. apply Forall_impl. by intros x (? & _). Qed.

Lemma no_throw_move (xs : list T) :
  Forall no_throw xs → Forall (λ x, move_ctor_throws x = false) xs.
Proof. apply Forall_impl. by intros x (_ & ? & _). Qed.

(** Relocation builds the elements in the new block; the old block keeps
    as many live objects where they were (the same values after a copy,
    the moved-from ones after a move). *)
Lemma relocate_n_ok (xs : list T) (pre post dpre mid dpost : block) (first n d_first : nat) :
  Forall no_throw xs →
  first = length pre → n = length xs → d_first = length dpre → length mid = length xs →
  ∃ zs, length zs = length xs ∧
    relocate_n (pre ++ (Some <$> xs) ++ post) first n (dpre ++ mid ++ dpost) d_first
    = ((pre ++ (Some <$> zs) ++ post, dpre ++ (Some <$> xs) ++ dpost), Normal tt).
Proof.
  intros Hx ? ? ? ?. unfold relocate_n. destruct relocates_by_move.
  - exists (moved_from <$> xs). split; [by rewrite length_fmap|].
    by apply uninitialized_move_n_ok; [apply no_throw_move|..].
  - exists xs. split; [done|].
    by rewrite (uninitialized_copy_n_ok xs) by (by try apply no_throw_copy).
Qed.

(** ** Allocation *)

Lemma RawMemory_sized_ok (n : nat) :
  alloc_fails n = false →
  RawMemory_sized n = Normal {| buffer_ := replicate n None; capacity_ := n |}.
Proof.
  intros Ha. unfold RawMemory_sized, Allocate. destruct n; [done|]. simpl. by rewrite Ha.
Qed.

(** A product that does not wrap asks for the bytes of [n] elements. *)
Lemma allocation_slots_fits (n : nat) : fits n = true → allocation_slots n = n.
Proof.
  unfold fits, allocation_slots, allocation_bytes. intros Hf. apply N.leb_le in Hf.
  rewrite N.mod_small by lia. rewrite N.div_mul by done. apply Nat2N.id.
Qed.

(** A product that wraps asks for fewer. *)
Lemma allocation_slots_wraps (n : nat) : fits n = false → allocation_slots n < n.
Proof.
  unfold fits, allocation_slots, allocation_bytes. intros Hf. apply N.leb_gt in Hf.
  assert (((N.of_nat n * N.pos size_of) mod (SIZE_MAX + 1) / N.pos size_of
           < N.of_nat n)%N) as Hlt; [|lia].
  apply N.Div0.div_lt_upper_bound.
  pose proof (N.mod_upper_bound (N.of_nat n * N.pos size_of) (SIZE_MAX + 1) ltac:(done)).
  lia.
Qed.

Lemma Allocate_size_t_fits (n : nat) : fits n = true → Allocate_size_t n = Allocate n.
Proof. intros Hf. unfold Allocate_size_t, Allocate. by rewrite allocation_slots_fits. Qed.

Lemma RawMemory_size_t_fits (n : nat) : fits n = true → RawMemory_size_t n = RawMemory_sized n.
Proof. intros Hf. unfold RawMemory_size_t, RawMemory_sized. by rewrite Allocate_size_t_fits. Qed.

Lemma RawMemory_size_t_ok (n : nat) :
  fits n = true → alloc_fails n = false →
  RawMemory_size_t n = Normal {| buffer_ := replicate n None; capacity_ := n |}.
Proof. intros Hf Ha. rewrite RawMemory_size_t_fits by done. by apply RawMemory_sized_ok. Qed.

Lemma replicate_split {A} (n k : nat) (x : A) :
  k < n → replicate n x = replicate k x ++ x :: replicate (n - k - 1) x.
Proof.
  intros Hk. rewrite <- replicate_S, <- replicate_add. f_equal. lia.
Qed.

Lemma grown_capacity_full (v : Vector) :
  size_ v = Capacity v → size_ v < grown_capacity v ∧ grown_capacity v = max 1 (Capacity v * 2).
Proof.
  unfold grown_capacity. intros <-. destruct (size_ v); simpl; lia.
Qed.

(** ** PushBack *)

Lemma PushBack_ok (v : Vector) (xs : list T) (y : T) :
  represents v xs → Forall no_throw xs → no_throw y →
  (size_ v = Capacity v → alloc_fails (grown_capacity v) = false) →
  ∃ v', PushBack y v = (v', Normal tt) ∧ represents v' (xs ++ [y]) ∧
        Capacity v' = (if size_ v =? Capacity v then max 1 (Capacity v * 2) else Capacity v).
Proof.
  intros (Hs & Hle & Hb) Hxs (Hy & _) Ha. unfold PushBack.
  destruct (size_ v =? Capacity v) eqn:Hfull.
  - apply Nat.eqb_eq in Hfull. destruct (grown_capacity_full v Hfull) as [Hlt Hmax].
    rewrite RawMemory_sized_ok by auto. unfold RawMemory_index. simpl.
    apply Nat.ltb_lt in Hlt as Hlt'. rewrite Hlt'.
    unfold construct_copy. rewrite length_replicate, Hlt', Hy.
    rewrite (replicate_split _ (size_ v)) by done.
    rewrite insert_middle by (by rewrite length_replicate).
    unfold block_of. rewrite Hb.
    destruct (relocate_n_ok xs [] (replicate (capacity_ (data_ v) - length xs) None)
                [] (replicate (size_ v) None)
                (Some y :: replicate (grown_capacity v - size_ v - 1) None)
                0 (size_ v) 0) as (zs & Hzs & Hr);
      [by rewrite ?length_replicate..|].
    cbn [app] in Hr. rewrite Hr.
    rewrite_at_nil (destroy_n_ok zs [] (replicate (capacity_ (data_ v) - length xs) None)
                      0 (size_ v) eq_refl ltac:(congruence)).
    eexists. split; [done|]. unfold Capacity in *. simpl. split; [|done].
    unfold represents. simpl. rewrite length_app. simpl.
    split_and!; [lia|lia|].
    rewrite fmap_app, <- app_assoc. simpl. do 3 f_equal. lia.
  - apply Nat.eqb_neq in Hfull. unfold Capacity in *.
    unfold RawMemory_index.
    assert ((size_ v <? capacity_ (data_ v)) = true) as -> by (apply Nat.ltb_lt; lia).
    unfold construct_copy, block_of. rewrite Hb, Hy.
    rewrite (replicate_split _ 0) by lia. simpl.
    rewrite ltb_middle, insert_middle by (by rewrite length_fmap).
    eexists. split; [done|]. simpl. split; [|done].
    unfold represents. simpl. rewrite length_app. simpl.
    split_and!; [lia|lia|].
    rewrite fmap_app, <- app_assoc. simpl. do 3 f_equal. lia.
Qed.

(** ** Moves inside one block *)

Lemma move_assign_slot_next (pre post : block) (e y : T) (d s : nat) :
  move_assign_throws y = false → d = length pre → s = S (length pre) →
  move_assign_slot (pre ++ Some e :: Some y :: post) d s
  = (pre ++ Some y :: Some (moved_from y) :: post, Normal tt).
Proof.
  intros Hy -> ->. unfold move_assign_slot.
  rewrite (deref_middle pre _ _ (length pre)) by done.
  rewrite (snoc_app pre), (deref_middle _ _ _ (S (length pre))) by (by rewrite length_snoc).
  rewrite Hy, insert_middle by (by rewrite length_snoc).
  by rewrite <- snoc_app, insert_middle.
Qed.

Lemma move_assign_slot_prev (pre post : block) (e y : T) (d s : nat) :
  move_assign_throws y = false → s = length pre → d = S (length pre) →
  move_assign_slot (pre ++ Some y :: Some e :: post) d s
  = (pre ++ Some (moved_from y) :: Some y :: post, Normal tt).
Proof.
  intros Hy -> ->. unfold move_assign_slot.
  rewrite (deref_middle pre _ _ (length pre)) by done.
  rewrite (snoc_app pre), (deref_middle _ _ _ (S (length pre))) by (by rewrite length_snoc).
  rewrite Hy. rewrite <- snoc_app, insert_middle by done.
  by rewrite (snoc_app pre), insert_middle, <- snoc_app by (by rewrite length_snoc).
Qed.

Lemma move_range_ok (ys : list T) : ∀ (pre post : block) (e : T) (first n d_first : nat),
  Forall (λ x, move_assign_throws x = false) ys →
  d_first = length pre → first = S (length pre) → n = length ys →
  ∃ z, move_range (pre ++ Some e :: (Some <$> ys) ++ post) first n d_first
       = (pre ++ (Some <$> ys) ++ Some z :: post, Normal tt).
Proof.
  induction ys as [|y ys IH]; intros pre post e first n d_first Hys -> -> ->.
  - by exists e.
  - inversion_clear Hys as [|? ? Hy Hys']. cbn [fmap list_fmap app length move_range].
    rewrite move_assign_slot_next by done.
    destruct (IH (pre ++ [Some y]) post (moved_from y) (S (S (length pre))) (length ys)
                 (S (length pre))) as [z Hz]; [by rewrite ?length_snoc..|].
    exists z. rewrite <- snoc_app in Hz. rewrite Hz. by rewrite <- snoc_app.
Qed.

Lemma move_backward_ok (ys : list T) : ∀ (pre post : block) (e : T) (last n d_last : nat),
  Forall (λ x, move_assign_throws x = false) ys →
  last = length pre + length ys → d_last = S last → n = length ys →
  ∃ z, move_backward (pre ++ (Some <$> ys) ++ Some e :: post) last n d_last
       = (pre ++ Some z :: (Some <$> ys) ++ post, Normal tt).
Proof.
  induction ys as [|y ys IH] using rev_ind; intros pre post e last n d_last Hys -> -> ->.
  - exists e. reflexivity.
  - apply Forall_app in Hys as [Hys Hy]. inversion_clear Hy as [|? ? Hy' _].
    rewrite length_app. cbn [length].
    replace (length pre + (length ys + 1)) with (S (length pre + length ys)) by lia.
    replace (length ys + 1) with (S (length ys)) by lia.
    cbn [move_backward].
    rewrite fmap_app. cbn [fmap list_fmap]. rewrite <- (app_assoc _ [Some y]). cbn [app].
    rewrite (app_assoc pre).
    rewrite move_assign_slot_prev by (by rewrite ?length_app, ?length_fmap).
    rewrite <- (app_assoc pre).
    destruct (IH pre (Some y :: post) (moved_from y) (length pre + length ys) (length ys)
                 (S (length pre + length ys))) as [z Hz]; [done..|].
    exists z. rewrite Hz. by rewrite <- app_assoc.
Qed.

(** ** Erase *)

Lemma no_throw_move_assign (xs : list T) :
  Forall no_throw xs → Forall (λ x, move_assign_throws x = false) xs.
Proof. apply Forall_impl. by intros x (_ & _ & _ & ?). Qed.

Lemma Erase_split (v : Vector) (pre ys : list T) (e : T) :
  represents v (pre ++ e :: ys) → Forall no_throw ys →
  ∃ v', Erase (length pre) v = (v', Normal (length pre)) ∧
        represents v' (pre ++ ys) ∧ Capacity v' = Capacity v.
Proof.
  intros (Hs & Hle & Hb) Hys. rewrite length_app in *. cbn [length] in *.
  unfold Erase.
  assert ((length pre + 1 <=? size_ v) = true) as -> by (apply Nat.leb_le; lia).
  unfold block_of. rewrite Hb, fmap_app, fmap_cons, <- app_assoc. cbn [app].
  destruct (move_range_ok ys (Some <$> pre)
              (replicate (capacity_ (data_ v) - (length pre + S (length ys))) None)
              e (length pre + 1) (size_ v - (length pre + 1)) (length pre)) as [z ->];
    [ by apply no_throw_move_assign
    | by rewrite length_fmap | rewrite length_fmap; lia | lia | ].
  unfold destroy_at. rewrite !app_assoc.
  rewrite deref_middle by (rewrite length_app, !length_fmap; lia).
  rewrite insert_middle by (rewrite length_app, !length_fmap; lia).
  eexists. split; [done|]. split; [|done].
  unfold represents. cbn [data_ size_ with_block buffer_ capacity_].
  rewrite length_app. split_and!; [lia|lia|].
  rewrite fmap_app. f_equal.
  rewrite (replicate_split (capacity_ (data_ v) - (length pre + length ys)) 0) by lia.
  cbn [replicate app]. do 2 f_equal. lia.
Qed.

(** ** Insert *)

Lemma construct_move_next (pre post : block) (x : T) (s : option T) (d i : nat) :
  move_ctor_throws x = false → i = length pre → d = S (length pre) →
  construct_move (pre ++ Some x :: s :: post) d i
  = (pre ++ Some (moved_from x) :: Some x :: post, Normal tt).
Proof.
  intros Hx -> ->. unfold construct_move.
  rewrite deref_middle by done.
  rewrite (snoc_app pre), ltb_middle by (by rewrite length_snoc).
  rewrite Hx. rewrite <- snoc_app, insert_middle by done.
  by rewrite (snoc_app pre), insert_middle, <- snoc_app by (by rewrite length_snoc).
Qed.

Lemma Insert_realloc (v : Vector) (pre ys : list T) (y : T) :
  represents v (pre ++ ys) → ys ≠ [] → size_ v = Capacity v →
  Forall no_throw (pre ++ ys) → no_throw y →
  alloc_fails (grown_capacity v) = false →
  ∃ v', Insert (length pre) y v = (v', Normal (length pre)) ∧
        represents v' (pre ++ y :: ys) ∧ Capacity v' = max 1 (Capacity v * 2).
Proof.
  intros (Hs & Hle & Hb) Hne Hfull Hxs (Hy & _) Ha.
  apply Forall_app in Hxs as [Hpre Hys].
  assert (0 < length ys) as Hlen by (destruct ys; [done|simpl; lia]).
  rewrite length_app in *.
  destruct (grown_capacity_full v Hfull) as [Hlt Hmax].
  unfold Insert.
  assert ((length pre =? size_ v) = false) as -> by (apply Nat.eqb_neq; lia).
  assert ((size_ v <? length pre) = false) as -> by (apply Nat.ltb_ge; lia).
  assert ((size_ v =? Capacity v) = true) as -> by (by apply Nat.eqb_eq).
  rewrite RawMemory_sized_ok by done.
  unfold RawMemory_plus, construct_copy. cbn [capacity_ buffer_].
  assert ((length pre <=? grown_capacity v) = true) as -> by (apply Nat.leb_le; lia).
  rewrite length_replicate.
  assert ((length pre <? grown_capacity v) = true) as -> by (apply Nat.ltb_lt; lia).
  rewrite Hy.
  rewrite (replicate_split _ (length pre)) by lia.
  rewrite insert_middle by (by rewrite length_replicate).
  unfold block_of, Capacity in *. rewrite Hb, fmap_app, <- app_assoc.
  set (k := capacity_ (data_ v) - (length pre + length ys)).
  set (n := grown_capacity v) in *.
  destruct (relocate_n_ok pre [] ((Some <$> ys) ++ replicate k None)
              [] (replicate (length pre) None)
              (Some y :: replicate (n - length pre - 1) None)
              0 (length pre) 0) as (zs1 & Hz1 & Hr1);
    [by rewrite ?length_replicate..|].
  cbn [app] in Hr1. rewrite Hr1. cbn [catch_all].
  assert ((length pre <=? capacity_ (data_ v)) = true) as -> by (apply Nat.leb_le; lia).
  replace (replicate (n - length pre - 1) None)
    with (replicate (length ys) (@None T) ++ replicate (n - size_ v - 1) None)
    by (rewrite <- replicate_add; f_equal; lia).
  rewrite (snoc_app (Some <$> pre)).
  destruct (relocate_n_ok ys (Some <$> zs1) (replicate k None)
              ((Some <$> pre) ++ [Some y]) (replicate (length ys) None)
              (replicate (n - size_ v - 1) None)
              (length pre) (size_ v - length pre) (length pre + 1)) as (zs2 & Hz2 & Hr2);
    [ done | by rewrite length_fmap | lia | rewrite length_snoc, length_fmap; lia
    | by rewrite length_replicate | ].
  rewrite Hr2. cbn [catch_all].
  rewrite app_assoc, <- fmap_app.
  rewrite_at_nil (destroy_n_ok (zs1 ++ zs2) [] (replicate k None) 0 (size_ v) eq_refl
                    ltac:(rewrite length_app; lia)).
  eexists. split; [done|]. split; [|done].
  unfold represents. cbn [data_ size_ buffer_ capacity_].
  rewrite length_app. cbn [length]. split_and!; [lia|lia|].
  rewrite <- snoc_app, fmap_app, fmap_cons, <- !app_assoc. cbn [app].
  do 4 f_equal. lia.
Qed.

Lemma Insert_in_place (v : Vector) (pre ys : list T) (y : T) :
  represents v (pre ++ ys) → ys ≠ [] → size_ v ≠ Capacity v →
  Forall no_throw (pre ++ ys) → no_throw y →
  ∃ v', Insert (length pre) y v = (v', Normal (length pre)) ∧
        represents v' (pre ++ y :: ys) ∧ Capacity v' = Capacity v.
Proof.
  intros (Hs & Hle & Hb) Hne Hfull Hxs (Hy & _ & _ & Hy') .
  destruct ys as [|l ys _] using rev_ind; [done|]. clear Hne.
  apply Forall_app in Hxs as [Hpre Hys]. apply Forall_app in Hys as [Hys Hl].
  inversion_clear Hl as [|? ? (_ & Hl' & _) _].
  rewrite !length_app in *. cbn [length] in *.
  unfold Insert, Capacity in *.
  assert ((length pre =? size_ v) = false) as -> by (apply Nat.eqb_neq; lia).
  assert ((size_ v <? length pre) = false) as -> by (apply Nat.ltb_ge; lia).
  assert ((size_ v =? capacity_ (data_ v)) = false) as -> by (by apply Nat.eqb_neq).
  rewrite Hy. unfold RawMemory_index.
  assert ((size_ v <? capacity_ (data_ v)) = true) as -> by (apply Nat.ltb_lt; lia).
  assert ((size_ v - 1 <? capacity_ (data_ v)) = true) as -> by (apply Nat.ltb_lt; lia).
  assert ((length pre <? capacity_ (data_ v)) = true) as -> by (apply Nat.ltb_lt; lia).
  unfold block_of. rewrite Hb.
  set (k := capacity_ (data_ v) - (length pre + (length ys + 1))).
  rewrite (replicate_split k 0) by lia. cbn [replicate app].
  rewrite !fmap_app, <- !app_assoc. cbn [fmap list_fmap app].
  rewrite (app_assoc (Some <$> pre)).
  rewrite construct_move_next by (rewrite ?length_app, ?length_fmap; done || lia).
  rewrite <- (app_assoc (Some <$> pre)).
  destruct (move_backward_ok ys (Some <$> pre) (Some l :: replicate (k - 0 - 1) None)
              (moved_from l) (size_ v - 1) (size_ v - 1 - length pre) (size_ v)) as [z ->];
    [ by apply no_throw_move_assign | rewrite length_fmap; lia | lia | lia | ].
  unfold move_assign_value. rewrite deref_middle, Hy' by (by rewrite length_fmap).
  rewrite insert_middle by (by rewrite length_fmap).
  eexists. split; [done|]. split; [|done].
  unfold represents. cbn [data_ size_ with_block buffer_ capacity_].
  rewrite !length_app. cbn [length]. rewrite !length_app. cbn [length].
  split_and!; [lia|lia|].
  rewrite !fmap_app, !fmap_cons, !fmap_app. cbn [fmap list_fmap].
  rewrite <- !app_assoc. cbn [app]. rewrite <- (app_assoc (Some <$> ys)). cbn [app].
  do 5 f_equal. subst k. lia.
Qed.

Lemma Insert_split (v : Vector) (pre ys : list T) (y : T) :
  represents v (pre ++ ys) → Forall no_throw (pre ++ ys) → no_throw y →
  (size_ v = Capacity v → alloc_fails (grown_capacity v) = false) →
  ∃ v', Insert (length pre) y v = (v', Normal (length pre)) ∧
        represents v' (pre ++ y :: ys) ∧
        Capacity v' = (if size_ v =? Capacity v then max 1 (Capacity v * 2) else Capacity v).
Proof.
  intros Hr Hxs Hy Ha.
  assert (ys = [] ∨ ys ≠ []) as [->|Hne] by (destruct ys; [by left|by right]).
  - rewrite app_nil_r in *.
    destruct (PushBack_ok v pre y Hr Hxs Hy Ha) as (v' & Hp & Hr' & Hc).
    exists v'. split; [|done]. unfold Insert.
    destruct Hr as (Hs & _). destruct Hr' as (Hs' & _). rewrite length_app in Hs'. cbn in Hs'.
    rewrite Hs, Nat.eqb_refl, Hp. do 2 f_equal. lia.
  - destruct (size_ v =? Capacity v) eqn:Hfull.
    + apply Nat.eqb_eq in Hfull. apply Insert_realloc; auto.
    + apply Nat.eqb_neq in Hfull. by apply Insert_in_place.
Qed.

Lemma Insert_ok (v : Vector) (xs : list T) (pos : nat) (value : T) :
  represents v xs → pos ≤ length xs → Forall no_throw xs → no_throw value →
  (size_ v = Capacity v → alloc_fails (grown_capacity v) = false) →
  ∃ v', Insert pos value v = (v', Normal pos) ∧
        represents v' (take pos xs ++ value :: drop pos xs).
Proof.
  intros Hr Hpos Hxs Hv Ha.
  pose proof (take_drop pos xs) as Hsplit.
  assert (length (take pos xs) = pos) as Hlen by (rewrite length_take; lia).
  destruct (Insert_split v (take pos xs) (drop pos xs) value) as (v' & Hi & Hr' & _);
    [by rewrite Hsplit..|done|done|].
  rewrite Hlen in Hi. by exists v'.
Qed.

Lemma Erase_ok (v : Vector) (xs : list T) (pos : nat) :
  represents v xs → pos < length xs → Forall no_throw xs →
  ∃ v', Erase pos v = (v', Normal pos) ∧ represents v' (take pos xs ++ drop (S pos) xs).
Proof.
  intros Hr Hpos Hxs.
  destruct (lookup_lt_is_Some_2 xs pos Hpos) as [e He].
  pose proof (take_drop_middle xs pos e He) as Hsplit.
  assert (length (take pos xs) = pos) as Hlen by (rewrite length_take; lia).
  destruct (Erase_split v (take pos xs) (drop (S pos) xs) e) as (v' & Hi & Hr' & _).
  { by rewrite Hsplit. }
  { rewrite <- Hsplit in Hxs. apply Forall_app in Hxs as [_ Hxs]. by inversion Hxs. }
  rewrite Hlen in Hi. by exists v'.
Qed.

(** ** The claims about PushBack, Insert and Erase *)

Lemma represents_at_index (v : Vector) (xs : list T) (i : nat) (x : T) :
  represents v xs → xs !! i = Some x → at_index v i = Normal x.
Proof.
  intros (Hs & Hle & Hb) Hx. apply lookup_lt_Some in Hx as Hi.
  unfold at_index, RawMemory_index, deref, block_of.
  assert ((i <? size_ v) = true) as -> by (apply Nat.ltb_lt; lia).
  assert ((i <? capacity_ (data_ v)) = true) as -> by (apply Nat.ltb_lt; lia).
  rewrite Hb, lookup_app_l by (by rewrite length_fmap).
  by rewrite list_lookup_fmap, Hx.
Qed.

Lemma PushBack_all_ok (ys : list T) : ∀ (v : Vector) (xs : list T),
  represents v xs → Forall no_throw (xs ++ ys) → (∀ n, alloc_fails n = false) →
  ∃ v', PushBack_all ys v = (v', Normal tt) ∧ represents v' (xs ++ ys).
Proof.
  induction ys as [|y ys IH]; intros v xs Hr Hall Ha.
  - exists v. by rewrite app_nil_r.
  - apply Forall_app in Hall as [Hxs Hys]. inversion_clear Hys as [|? ? Hy Hys'].
    destruct (PushBack_ok v xs y Hr Hxs Hy (λ _, Ha _)) as (v1 & Hp & Hr1 & _).
    destruct (IH v1 (xs ++ [y]) Hr1) as (v' & Hp' & Hr'); [|done|].
    { rewrite <- app_assoc. apply Forall_app. split; [done|]. by constructor. }
    exists v'. cbn [PushBack_all]. rewrite Hp, Hp'. by rewrite <- app_assoc in Hr'.
Qed.

(** C6.  A run of PushBack calls on a vector holding [xs], no allocation
    and no element operation failing: it completes, the size grows by the
    number of calls and the elements are [xs] followed by the pushed values
    in call order.  One PushBack changes the capacity only when the vector is
    full ([size_ = capacity_]), and then to [max 1 (capacity * 2)].  From the
    empty vector three calls take the capacity through 0, 1, 2 and 4. *)
Theorem PushBack_sequence (v : Vector) (xs ys : list T) :
  represents v xs → Forall no_throw (xs ++ ys) → (∀ n, alloc_fails n = false) →
  (∃ v', PushBack_all ys v = (v', Normal tt) ∧
         Size v' = Size v + length ys ∧ represents v' (xs ++ ys)) ∧
  (∀ y, no_throw y →
     ∃ v1, PushBack y v = (v1, Normal tt) ∧
           Capacity v1 = if Size v =? Capacity v then max 1 (Capacity v * 2) else Capacity v) ∧
  (∀ a b c, no_throw a → no_throw b → no_throw c →
     ∃ v1 v2 v3,
       PushBack a Vector_default = (v1, Normal tt) ∧ PushBack b v1 = (v2, Normal tt) ∧
       PushBack c v2 = (v3, Normal tt) ∧ represents v3 [a; b; c] ∧
       Capacity Vector_default = 0 ∧ Capacity v1 = 1 ∧ Capacity v2 = 2 ∧ Capacity v3 = 4).
Proof.
  intros Hr Hall Ha. split_and!.
  - destruct (PushBack_all_ok ys v xs Hr Hall Ha) as (v' & Hp & Hr').
    exists v'. split_and!; [done| |done].
    destruct Hr as (Hs & _), Hr' as (Hs' & _). unfold Size. by rewrite Hs, Hs', length_app.
  - intros y Hy. apply Forall_app in Hall as [Hxs _].
    destruct (PushBack_ok v xs y Hr Hxs Hy (λ _, Ha _)) as (v1 & Hp & _ & Hc). by exists v1.
  - intros a b c Ha' Hb Hc.
    assert (represents Vector_default []) as H0 by done.
    pose proof (Forall_cons_2 _ _ _ Ha' (Forall_cons_2 _ _ _ Hb (Forall_nil_2 _))) as Hab.
    destruct (PushBack_ok _ [] a H0 (Forall_nil_2 _) Ha' (λ _, Ha _)) as (v1 & Hp1 & Hr1 & Hc1).
    destruct (PushBack_ok _ [a] b Hr1 (Forall_cons_2 _ _ _ Ha' (Forall_nil_2 _)) Hb (λ _, Ha _))
      as (v2 & Hp2 & Hr2 & Hc2).
    destruct (PushBack_ok _ [a; b] c Hr2 Hab Hc (λ _, Ha _)) as (v3 & Hp3 & Hr3 & Hc3).
    destruct Hr1 as (Hs1 & Hr1), Hr2 as (Hs2 & Hr2).
    cbn in Hc1, Hs1, Hs2. rewrite Hs1, Hc1 in Hc2. cbn in Hc2.
    rewrite Hs2, Hc2 in Hc3. cbn in Hc3.
    by exists v1, v2, v3.
Qed.

Lemma take_drop_shift {A} (xs : list A) (pos : nat) :
  (∀ i, i < pos → (take pos xs ++ drop (S pos) xs) !! i = xs !! i) ∧
  (∀ i, pos ≤ i → (take pos xs ++ drop (S pos) xs) !! i = xs !! S i).
Proof.
  split; intros i Hi.
  - destruct (decide (pos ≤ length xs)).
    + rewrite lookup_app_l by (rewrite length_take; lia). by rewrite lookup_take_lt.
    + rewrite take_ge, drop_ge by lia. by rewrite app_nil_r.
  - destruct (decide (pos ≤ length xs)).
    + rewrite lookup_app_r by (rewrite length_take; lia).
      rewrite length_take, lookup_drop. f_equal. lia.
    + rewrite take_ge, drop_ge, app_nil_r by lia.
      rewrite !lookup_ge_None_2; [done|lia..].
Qed.

(** X24.  Insert at a position [pos] of [begin(), end()] when neither the
    allocation nor a copy, move or assignment of an element or of the value
    throws: the elements before [pos] and those from [pos] on keep their
    order on either side of the new value, which sits at index [pos]; the
    size grows by one; the iterator returned points at index [pos], where
    the new value is read; and at [pos = end()] the call does what PushBack
    does.  What Insert does when the relocation of an element throws is in
    the examples on vectors of numbers. *)
Theorem Insert_spec (v : Vector) (xs : list T) (pos : nat) (value : T) :
  represents v xs → pos ≤ length xs → Forall no_throw xs → no_throw value →
  (Size v = Capacity v → alloc_fails (grown_capacity v) = false) →
  ∃ v', Insert pos value v = (v', Normal pos) ∧
        represents v' (take pos xs ++ value :: drop pos xs) ∧
        Size v' = Size v + 1 ∧
        at_index v' pos = Normal value ∧
        (pos = Size v → PushBack value v = (v', Normal tt)).
Proof.
  intros Hr Hpos Hxs Hv Ha.
  destruct (Insert_ok v xs pos value Hr Hpos Hxs Hv Ha) as (v' & Hi & Hr').
  exists v'. split_and!; [done|done| | |].
  - destruct Hr as (Hs & _), Hr' as (Hs' & _). unfold Size. rewrite Hs, Hs'.
    rewrite length_app. cbn [length]. rewrite length_take, length_drop. lia.
  - apply (represents_at_index _ _ _ _ Hr').
    apply list_lookup_middle. rewrite length_take. lia.
  - intros ->. unfold Size in *. unfold Insert in Hi. rewrite Nat.eqb_refl in Hi.
    destruct (PushBack value v) as [v1 [[]| |]]; cbn in Hi; congruence.
Qed.

(** C8.  Erase at a position [pos] below [end()] of a vector (so a
    non-empty one), no move assignment failing: exactly the element at
    [pos] goes, the elements before it stay, every later element is found
    one index earlier, the size drops by one, and the iterator returned is
    [pos]: the index of the element that followed the erased one, or
    [end()] when the last element was erased. *)
Theorem Erase_spec (v : Vector) (xs : list T) (pos : nat) :
  represents v xs → pos < length xs → Forall no_throw xs →
  ∃ v', Erase pos v = (v', Normal pos) ∧
        represents v' (take pos xs ++ drop (S pos) xs) ∧
        Size v' = Size v - 1 ∧
        (∀ i, i < pos → at_index v' i = at_index v i) ∧
        (∀ i, pos ≤ i → S i < Size v → at_index v' i = at_index v (S i)) ∧
        (S pos = Size v → pos = Size v').
Proof.
  intros Hr Hpos Hxs.
  destruct (Erase_ok v xs pos Hr Hpos Hxs) as (v' & Hi & Hr').
  exists v'.
  assert (Size v' = Size v - 1) as Hsz.
  { destruct Hr as (Hs & _), Hr' as (Hs' & _). unfold Size. rewrite Hs, Hs'.
    rewrite length_app, length_take, length_drop. lia. }
  destruct (take_drop_shift xs pos) as [Hlo Hhi].
  assert (Size v = length xs) as Hsv by (by destruct Hr as (? & _)).
  split_and!; [done|done|done| | |lia].
  - intros i Hi'. destruct (lookup_lt_is_Some_2 xs i ltac:(lia)) as [x Hx].
    rewrite (represents_at_index _ _ _ x Hr), (represents_at_index _ _ _ x Hr'); [done| |done].
    by rewrite Hlo.
  - intros i Hi' Hi''. destruct (lookup_lt_is_Some_2 xs (S i) ltac:(lia)) as [x Hx].
    rewrite (represents_at_index _ _ _ x Hr), (represents_at_index _ _ _ x Hr'); [done| |done].
    by rewrite Hhi.
Qed.

(** ** The store: Swap and move assignment *)

Lemma RawMemory_eta (d : RawMemory) : {| buffer_ := buffer_ d; capacity_ := capacity_ d |} = d.
Proof. by destruct d. Qed.

Lemma Vector_eta (v : Vector) : {| data_ := data_ v; size_ := size_ v |} = v.
Proof. by destruct v. Qed.

Lemma with_block_id (v : Vector) : with_block v (block_of v) = v.
Proof. by destruct v as [[] ?]. Qed.

Lemma data_Swap_spec (this other : nat) (σ : store) :
  data_Swap this other σ this = {| data_ := data_ (σ other); size_ := size_ (σ this) |} ∧
  data_Swap this other σ other = {| data_ := data_ (σ this); size_ := size_ (σ other) |} ∧
  (∀ l, l ≠ this → l ≠ other → data_Swap this other σ l = σ l).
Proof.
  unfold data_Swap, set_data. destruct (decide (this = other)) as [->|Hne].
  - split_and!; [| |intros l ? ?]; rewrite ?fn_lookup_insert, ?fn_lookup_insert_ne by done;
      cbn; rewrite ?fn_lookup_insert, ?fn_lookup_insert_ne by done; cbn;
      by rewrite ?RawMemory_eta.
  - split_and!; [| |intros l ? ?];
      repeat (rewrite ?fn_lookup_insert, ?fn_lookup_insert_ne by done; cbn);
      by rewrite ?RawMemory_eta.
Qed.

Lemma move_assign_spec (this rhs : nat) (σ : store) :
  this ≠ rhs →
  ∃ σ', move_assign this rhs σ = (σ', Normal tt) ∧
    σ' this = {| data_ := data_ (σ rhs); size_ := size_ (σ this) |} ∧
    σ' rhs = {| data_ := data_ (σ this); size_ := 0 |} ∧
    (∀ l, l ≠ this → l ≠ rhs → σ' l = σ l).
Proof.
  intros Hne. eexists. split; [done|].
  destruct (data_Swap_spec this rhs σ) as (Ht & Hr & Ho).
  unfold set_size. split_and!; [|  |intros l ? ?];
    rewrite ?fn_lookup_insert, ?fn_lookup_insert_ne by done; auto.
  by rewrite Hr.
Qed.

Lemma Swap_spec (this other : nat) (σ : store) :
  Swap this other σ this = σ other ∧ Swap this other σ other = σ this ∧
  (∀ l, l ≠ this → l ≠ other → Swap this other σ l = σ l).
Proof.
  destruct (data_Swap_spec this other σ) as (Ht & Hr & Ho).
  unfold Swap, set_size. destruct (decide (this = other)) as [->|Hne].
  - split_and!; [| |intros l ? ?];
      repeat (rewrite ?fn_lookup_insert, ?fn_lookup_insert_ne by done; cbn);
      rewrite ?Ht; cbn; auto using Vector_eta.
  - split_and!; [| |intros l ? ?];
      repeat (rewrite ?fn_lookup_insert, ?fn_lookup_insert_ne by done; cbn);
      rewrite ?Ht, ?Hr; cbn; auto using Vector_eta.
Qed.

(** ** Copy construction and copy assignment *)

Lemma with_block_with_block (v : Vector) (b b' : block) :
  with_block (with_block v b) b' = with_block v b'.
Proof. done. Qed.

Lemma uninitialized_copy_n_throws (xs : list T) :
  ∀ (pre post dpre mid dpost : block) (first n d_first : nat),
  Exists (λ x, copy_throws x = true) xs →
  first = length pre → n = length xs → d_first = length dpre → length mid = length xs →
  ∃ dst', uninitialized_copy_n (pre ++ (Some <$> xs) ++ post) first n (dpre ++ mid ++ dpost) d_first
          = (dst', Throw element_exception).
Proof.
  induction xs as [|x xs IH]; intros pre post dpre mid dpost first n d_first Hc -> -> -> Hm.
  - by apply Exists_nil in Hc.
  - destruct mid as [|m mid]; [done|]. rewrite fmap_cons.
    cbn [length app uninitialized_copy_n] in *.
    rewrite deref_middle by done. unfold construct_copy.
    rewrite ltb_middle by done.
    destruct (copy_throws x) eqn:Hx; [by eexists|].
    apply Exists_cons in Hc as [Hc|Hc]; [congruence|].
    rewrite insert_middle by done.
    rewrite (snoc_app pre), (snoc_app dpre).
    destruct (IH (pre ++ [Some x]) post (dpre ++ [Some x]) mid dpost
                 (S (length pre)) (length xs) (S (length dpre))) as [dst' ->];
      [rewrite ?length_snoc; auto..|].
    by eexists.
Qed.

Lemma Vector_copy_ok (r : Vector) (ss : list T) :
  represents r ss → alloc_fails (length ss) = false →
  Forall (λ x, copy_throws x = false) ss →
  ∃ c, Vector_copy r = Normal c ∧ represents c ss ∧ Capacity c = length ss.
Proof.
  intros (Hs & Hle & Hb) Ha Hss. unfold Vector_copy. rewrite Hs.
  rewrite RawMemory_sized_ok by done. cbn [buffer_ capacity_].
  unfold block_of. rewrite Hb.
  rewrite_at_nil (uninitialized_copy_n_ok ss [] (replicate (capacity_ (data_ r) - length ss) None)
                    [] (replicate (length ss) None) [] 0 (length ss) 0 Hss eq_refl eq_refl eq_refl
                    (length_replicate _ _)).
  eexists. split; [done|]. split; [|done].
  unfold represents. cbn. by rewrite Nat.sub_diag, app_nil_r.
Qed.

Lemma Vector_copy_fails (r : Vector) (ss : list T) :
  represents r ss → 0 < length ss →
  alloc_fails (length ss) || existsb copy_throws ss = true →
  ∃ e, Vector_copy r = Throw e.
Proof.
  intros (Hs & Hle & Hb) Hpos Hf. unfold Vector_copy. rewrite Hs.
  destruct (alloc_fails (length ss)) eqn:Ha.
  - unfold RawMemory_sized, Allocate. rewrite Ha.
    assert ((length ss =? 0) = false) as -> by (apply Nat.eqb_neq; lia). by eexists.
  - rewrite RawMemory_sized_ok by done. cbn [buffer_ capacity_].
    cbn in Hf. apply existsb_exists in Hf as (x & Hin & Hx).
    assert (Exists (λ x, copy_throws x = true) ss) as Hex.
    { apply Exists_exists. by exists x. }
    unfold block_of. rewrite Hb.
    destruct (uninitialized_copy_n_throws ss [] (replicate (capacity_ (data_ r) - length ss) None)
                [] (replicate (length ss) None) [] 0 (length ss) 0 Hex eq_refl eq_refl eq_refl
                (length_replicate _ _)) as [dst' Hd].
    cbn [app length] in Hd. rewrite app_nil_r in Hd. rewrite Hd. by eexists.
Qed.

Lemma Vector_dtor_ok (v : Vector) (xs : list T) :
  represents v xs → Vector_dtor v = Normal tt.
Proof.
  intros (Hs & Hle & Hb). unfold Vector_dtor, block_of. rewrite Hb, Hs.
  by rewrite_at_nil (destroy_n_ok xs [] (replicate (capacity_ (data_ v) - length xs) None)
                       0 (length xs) eq_refl eq_refl).
Qed.

Lemma assign_loop_frame (this rhs : nat) : ∀ (k i : nat) (σ σ' : store) (o : outcome unit),
  assign_loop this rhs i k σ = (σ', o) →
  (∀ l, l ≠ this → σ' l = σ l) ∧
  capacity_ (data_ (σ' this)) = capacity_ (data_ (σ this)) ∧ size_ (σ' this) = size_ (σ this).
Proof.
  induction k as [|k IH]; intros i σ σ' o Hl; cbn in Hl.
  - by simplify_eq.
  - repeat case_match; simplify_eq; try done.
    apply IH in Hl as (Ho & Hc & Hs). unfold set_block in *.
    rewrite fn_lookup_insert in Hc, Hs. split_and!; [|done..].
    intros l Hne. rewrite Ho by done. by rewrite fn_lookup_insert_ne.
Qed.

Lemma assign_loop_ok (this rhs : nat) (xs : list T) :
  ∀ (olds : list T) (pre post rpre rpost : block) (i k : nat) (σ : store),
  this ≠ rhs → Forall (λ x, copy_assign_throws x = false) xs →
  block_of (σ this) = pre ++ (Some <$> olds) ++ post →
  block_of (σ rhs) = rpre ++ (Some <$> xs) ++ rpost →
  i = length pre → i = length rpre → k = length xs → length olds = length xs →
  i + k ≤ capacity_ (data_ (σ this)) → i + k ≤ capacity_ (data_ (σ rhs)) →
  ∃ σ', assign_loop this rhs i k σ = (σ', Normal tt) ∧
        σ' this = with_block (σ this) (pre ++ (Some <$> xs) ++ post) ∧
        (∀ l, l ≠ this → σ' l = σ l).
Proof.
  induction xs as [|x xs IH];
    intros olds pre post rpre rpost i k σ Hne Hxs Ht Hr -> Hi -> Ho Hct Hcr.
  - destruct olds; [|done]. exists σ. split; [done|]. split; [|done].
    by rewrite <- Ht, with_block_id.
  - destruct olds as [|old olds]; [done|]. inversion_clear Hxs as [|? ? Hx Hxs'].
    cbn [length fmap list_fmap app] in *. cbn [assign_loop]. unfold RawMemory_index.
    assert ((length pre <? capacity_ (data_ (σ this))) = true) as -> by (apply Nat.ltb_lt; lia).
    assert ((length pre <? capacity_ (data_ (σ rhs))) = true) as -> by (apply Nat.ltb_lt; lia).
    rewrite Ht, Hr, !deref_middle, Hx by done.
    rewrite insert_middle by done.
    set (σ1 := set_block this _ σ).
    assert (σ1 this = with_block (σ this) (pre ++ Some x :: (Some <$> olds) ++ post)) as H1
      by (unfold σ1, set_block; by rewrite fn_lookup_insert).
    assert (σ1 rhs = σ rhs) as H2
      by (unfold σ1, set_block; by rewrite fn_lookup_insert_ne).
    destruct (IH olds (pre ++ [Some x]) post (rpre ++ [Some x]) rpost (S (length pre))
                 (length xs) σ1) as (σ' & Hl & Ht' & Ho');
      rewrite ?H1, ?H2, ?length_snoc, <- ?snoc_app; cbn; try done; try lia.
    exists σ'. split; [done|]. split.
    + rewrite Ht', H1. by rewrite <- snoc_app.
    + intros l Hl'. rewrite Ho' by done. unfold σ1, set_block. by rewrite fn_lookup_insert_ne.
Qed.

Lemma Vector_copy_capacity (r c : Vector) :
  Vector_copy r = Normal c → capacity_ (data_ c) = size_ r.
Proof.
  unfold Vector_copy, RawMemory_sized. intros Hc.
  repeat case_match; simplify_eq; done.
Qed.

Lemma copy_assign_frame (this rhs : nat) (σ σ' : store) (o : outcome unit) :
  copy_assign this rhs σ = (σ', o) →
  (∀ l, l ≠ this → σ' l = σ l) ∧
  (size_ (σ rhs) ≤ Capacity (σ this) → Capacity (σ' this) = Capacity (σ this)) ∧
  (Capacity (σ this) < size_ (σ rhs) →
   Capacity (σ' this) = Capacity (σ this) ∨ Capacity (σ' this) = size_ (σ rhs)).
Proof.
  unfold copy_assign, Capacity. intros Hca.
  destruct (capacity_ (data_ (σ this)) <? size_ (σ rhs)) eqn:Hlt.
  - apply Nat.ltb_lt in Hlt.
    destruct (Vector_copy (σ rhs)) as [c| |] eqn:Hc; simplify_eq; try (split_and!; by (auto || lia)).
    apply Vector_copy_capacity in Hc.
    split_and!; [|lia|].
    + intros l Hl. by rewrite fn_lookup_insert_ne.
    + intros _. right. by rewrite fn_lookup_insert.
  - apply Nat.ltb_ge in Hlt. unfold set_size, set_block in *.
    repeat case_match; simplify_eq;
      match goal with H : assign_loop _ _ _ _ _ = _ |- _ =>
        apply assign_loop_frame in H as (Ho & Hc & Hs) end;
      (split_and!; [|intros _|lia]);
      try (intros loc Hloc); rewrite ?fn_lookup_insert, ?fn_lookup_insert_ne by done; cbn;
      rewrite ?fn_lookup_insert, ?fn_lookup_insert_ne by done; cbn; auto.
Qed.

Lemma copy_assign_grow (this rhs : nat) (σ : store) (ts ss : list T) :
  represents (σ this) ts → represents (σ rhs) ss → Capacity (σ this) < length ss →
  if alloc_fails (length ss) || existsb copy_throws ss
  then ∃ e, copy_assign this rhs σ = (σ, Throw e)
  else ∃ c, copy_assign this rhs σ = (<[this := c]> σ, Normal tt) ∧
            represents c ss ∧ Capacity c = length ss.
Proof.
  intros Ht Hr Hlt. unfold copy_assign, Capacity in *.
  assert (size_ (σ rhs) = length ss) as Hs by (by destruct Hr).
  assert ((capacity_ (data_ (σ this)) <? size_ (σ rhs)) = true) as ->
    by (apply Nat.ltb_lt; lia).
  destruct (alloc_fails (length ss) || existsb copy_throws ss) eqn:Hf.
  - destruct (Vector_copy_fails _ _ Hr ltac:(lia) Hf) as [e ->]. by exists e.
  - apply orb_false_elim in Hf as [Ha Hc].
    destruct (Vector_copy_ok (σ rhs) ss Hr Ha) as (c & -> & Hrc & Hcc).
    { apply Forall_forall. intros x Hx.
      destruct (copy_throws x) eqn:E; [|done].
      assert (existsb copy_throws ss = true).
      { apply existsb_exists. by exists x. }
      congruence. }
    exists c. by rewrite (Vector_dtor_ok _ _ Ht).
Qed.

Lemma copy_assign_reuse (this rhs : nat) (σ : store) (ts ss : list T) :
  this ≠ rhs →
  represents (σ this) ts → represents (σ rhs) ss → length ss ≤ Capacity (σ this) →
  Forall (λ x, copy_assign_throws x = false) (take (length ts) ss) →
  Forall (λ x, copy_throws x = false) (drop (length ts) ss) →
  ∃ σ', copy_assign this rhs σ = (σ', Normal tt) ∧ represents (σ' this) ss.
Proof.
  intros Hne (Hst & Hlt & Hbt) (Hsr & Hlr & Hbr) Hcap Hasg Hcpy.
  assert (rhs ≠ this) as Hne' by done.
  unfold copy_assign, Capacity in *. rewrite Hsr, Hst.
  assert ((capacity_ (data_ (σ this)) <? length ss) = false) as ->
    by (apply Nat.ltb_ge; lia).
  set (ct := capacity_ (data_ (σ this))) in *.
  set (cr := capacity_ (data_ (σ rhs))) in *.
  destruct (length ss <? length ts) eqn:Hcmp.
  - apply Nat.ltb_lt in Hcmp. rewrite take_ge in Hasg by lia.
    destruct (assign_loop_ok this rhs ss (take (length ss) ts) []
                ((Some <$> drop (length ss) ts) ++ replicate (ct - length ts) None)
                [] (replicate (cr - length ss) None) 0 (length ss) σ)
      as (σ1 & -> & H1 & Ho1); try done; try (cbn; lia).
    { unfold block_of. rewrite Hbt. cbn [app].
      by rewrite app_assoc, <- fmap_app, take_drop. }
    { rewrite length_take. lia. }
    cbn [app] in H1. rewrite (Ho1 rhs) by done. rewrite H1, Hsr.
    cbn [with_block size_ block_of data_ buffer_]. rewrite Hst.
    rewrite (destroy_n_ok (drop (length ss) ts) (Some <$> ss) (replicate (ct - length ts) None)
               (length ss) (length ts - length ss))
      by (by rewrite ?length_fmap, ?length_drop).
    eexists. split; [done|]. unfold set_size, set_block.
    rewrite !fn_lookup_insert, fn_lookup_insert_ne, (Ho1 rhs) by done.
    unfold represents. cbn. rewrite H1. cbn. fold ct. split_and!; [done|lia|].
    rewrite <- replicate_add. do 2 f_equal. lia.
  - apply Nat.ltb_ge in Hcmp.
    destruct (assign_loop_ok this rhs (take (length ts) ss) ts []
                (replicate (ct - length ts) None)
                [] ((Some <$> drop (length ts) ss) ++ replicate (cr - length ss) None)
                0 (length ts) σ)
      as (σ1 & -> & H1 & Ho1); try done; try (cbn; lia).
    { unfold block_of. rewrite Hbr. cbn [app].
      by rewrite app_assoc, <- fmap_app, take_drop. }
    { rewrite length_take. lia. }
    { rewrite length_take. lia. }
    cbn [app] in H1. rewrite (Ho1 rhs) by done. rewrite H1, Hsr.
    cbn [with_block size_ block_of data_ buffer_]. unfold block_of. rewrite Hst, Hbr.
    replace (Some <$> ss)
      with ((Some <$> take (length ts) ss) ++ (Some <$> drop (length ts) ss))
      by (by rewrite <- fmap_app, take_drop).
    rewrite <- app_assoc.
    replace (replicate (ct - length ts) None)
      with (replicate (length ss - length ts) (@None T) ++ replicate (ct - length ss) None)
      by (rewrite <- replicate_add; f_equal; lia).
    rewrite (uninitialized_copy_n_ok (drop (length ts) ss))
      by (rewrite ?length_fmap, ?length_take, ?length_drop, ?length_replicate; done || lia).
    eexists. split; [done|]. unfold set_size, set_block.
    rewrite !fn_lookup_insert, fn_lookup_insert_ne, (Ho1 rhs) by done.
    unfold represents. cbn. rewrite H1. cbn. fold ct. split_and!; [done|lia|].
    by rewrite app_assoc, <- fmap_app, take_drop.
Qed.

(** C9.  Copy assignment [t = s] between two vectors, [t] holding [ts]
    and [s] holding [ss]; no other object changes.
    - When [s] has more elements than [t] has capacity, a copy of [s] is
      built: if its allocation or the copy of an element fails, the
      exception leaves the operator and [t] is exactly as before; if not,
      [t] holds [ss] in a block of exactly [length ss] slots.
    - Otherwise the capacity of [t] stays as it is whatever happens, and
      [t] ends holding [ss] as soon as copy assignment does not throw on
      the elements of the common prefix and copy construction does not
      throw on the elements of [s] beyond the size of [t]: the prefix is
      assigned, the extra elements are constructed and, [t] being
      represented by [ss], its former elements beyond are destroyed. *)
Theorem copy_assign_spec (σ : store) (this rhs : nat) (ts ss : list T) :
  this ≠ rhs → represents (σ this) ts → represents (σ rhs) ss →
  ∃ σ' o, copy_assign this rhs σ = (σ', o) ∧
    (∀ l, l ≠ this → σ' l = σ l) ∧
    (Capacity (σ this) < length ss →
       if alloc_fails (length ss) || existsb copy_throws ss
       then (∃ e, o = Throw e) ∧ σ' this = σ this
       else o = Normal tt ∧ represents (σ' this) ss ∧ Capacity (σ' this) = length ss) ∧
    (length ss ≤ Capacity (σ this) →
       Capacity (σ' this) = Capacity (σ this) ∧
       (Forall (λ x, copy_assign_throws x = false) (take (length ts) ss) →
        Forall (λ x, copy_throws x = false) (drop (length ts) ss) →
        o = Normal tt ∧ represents (σ' this) ss)).
Proof.
  intros Hne Ht Hr.
  assert (size_ (σ rhs) = length ss) as Hs by (by destruct Hr).
  destruct (copy_assign this rhs σ) as [σ' o] eqn:Hca. exists σ', o.
  destruct (copy_assign_frame _ _ _ _ _ Hca) as (Hfr & Hsame & _).
  split_and!; [done|done| |].
  - intros Hlt. pose proof (copy_assign_grow this rhs σ ts ss Ht Hr Hlt) as Hg.
    destruct (alloc_fails (length ss) || existsb copy_throws ss).
    + destruct Hg as [e He]. rewrite He in Hca. simplify_eq. eauto.
    + destruct Hg as (c & Hc & Hrc & Hcc). rewrite Hc in Hca. simplify_eq.
      by rewrite fn_lookup_insert.
  - intros Hle. split; [apply Hsame; lia|]. intros Hasg Hcpy.
    destruct (copy_assign_reuse this rhs σ ts ss Hne Ht Hr Hle Hasg Hcpy) as (σ1 & H1 & Hr1).
    rewrite H1 in Hca. by simplify_eq.
Qed.

Lemma represents_lookup (v : Vector) (xs : list T) (i : nat) (x : T) :
  represents v xs → xs !! i = Some x → block_of v !! i = Some (Some x).
Proof.
  intros (Hs & Hle & Hb) Hx. apply lookup_lt_Some in Hx as Hi.
  unfold block_of. rewrite Hb, lookup_app_l by (by rewrite length_fmap).
  by rewrite list_lookup_fmap, Hx.
Qed.

Lemma assign_loop_self (this : nat) (xs : list T) : ∀ (k i : nat) (σ : store),
  represents (σ this) xs → i + k ≤ length xs →
  ∃ σ' o, assign_loop this this i k σ = (σ', o) ∧ (∀ l, σ' l = σ l) ∧
    (o = Normal tt ∨ o = Throw element_exception) ∧
    (Forall (λ x, copy_assign_throws x = false) xs → o = Normal tt).
Proof.
  induction k as [|k IH]; intros i σ Hr Hik; cbn [assign_loop].
  - exists σ, (Normal tt). auto.
  - destruct (lookup_lt_is_Some_2 xs i ltac:(lia)) as [x Hx].
    pose proof (represents_lookup _ _ _ _ Hr Hx) as Hb.
    unfold RawMemory_index, deref.
    assert ((i <? capacity_ (data_ (σ this))) = true) as ->.
    { destruct Hr as (_ & ? & _). apply Nat.ltb_lt. lia. }
    rewrite Hb. cbn [mjoin option_join].
    destruct (copy_assign_throws x) eqn:Hthrow.
    + exists σ, (Throw element_exception). split_and!; auto.
      intros Hall. rewrite Forall_forall in Hall.
      specialize (Hall x (proj1 (list_elem_of_In _ _) (list_elem_of_lookup_2 _ _ _ Hx))).
      congruence.
    + rewrite list_insert_id by done.
      set (σ1 := set_block this (block_of (σ this)) σ).
      assert (∀ l, σ1 l = σ l) as H1.
      { intros l. unfold σ1, set_block. destruct (decide (l = this)) as [->|].
        - by rewrite fn_lookup_insert, with_block_id.
        - by rewrite fn_lookup_insert_ne. }
      destruct (IH (S i) σ1) as (σ' & o & Hl & Hsame & Ho & Hn); [by rewrite H1|lia|].
      exists σ', o. split_and!; [done| |done..].
      intros l. by rewrite Hsame.
Qed.

(** C10.  Copy assignment of a vector to itself: every object of the store,
    the vector first, is what it was (same size, same elements, same
    capacity); the operator has no test for this case, it assigns each
    element to itself and returns, unless the copy assignment of an element
    throws, which leaves the vector unchanged too. *)
Theorem self_copy_assign (σ : store) (this : nat) (xs : list T) :
  represents (σ this) xs →
  ∃ σ' o, copy_assign this this σ = (σ', o) ∧
    (∀ l, σ' l = σ l) ∧
    (o = Normal tt ∨ o = Throw element_exception) ∧
    (Forall (λ x, copy_assign_throws x = false) xs → o = Normal tt).
Proof.
  intros Hr. pose proof Hr as (Hs & Hle & Hb). unfold copy_assign.
  assert ((capacity_ (data_ (σ this)) <? size_ (σ this)) = false) as ->
    by (apply Nat.ltb_ge; lia).
  rewrite Nat.ltb_irrefl.
  destruct (assign_loop_self this xs (size_ (σ this)) 0 σ Hr ltac:(lia))
    as (σ1 & o & -> & Hsame & Ho & Hn).
  destruct Ho as [-> | ->].
  - rewrite Nat.sub_diag. cbn [uninitialized_copy_n].
    eexists _, _. split; [done|]. split_and!; auto.
    intros l. unfold set_size, set_block. destruct (decide (l = this)) as [->|].
    + rewrite !fn_lookup_insert. cbn. rewrite <- Hsame. by destruct (σ1 this) as [[] ?].
    + by rewrite !fn_lookup_insert_ne.
  - exists σ1, (Throw element_exception). auto.
Qed.

(** ** Capacity *)

Lemma RawMemory_sized_capacity (n : nat) (d : RawMemory) :
  RawMemory_sized n = Normal d → capacity_ d = n.
Proof. unfold RawMemory_sized. intros. by repeat case_match; simplify_eq. Qed.

Lemma RawMemory_size_t_capacity (n : nat) (d : RawMemory) :
  RawMemory_size_t n = Normal d → capacity_ d = n.
Proof. unfold RawMemory_size_t. intros. by repeat case_match; simplify_eq. Qed.

Ltac capacity_cases :=
  repeat case_match; simplify_eq; cbn [fst snd data_ capacity_ with_block size_];
  repeat match goal with
         | H : RawMemory_sized _ = Normal _ |- _ => apply RawMemory_sized_capacity in H
         | H : RawMemory_size_t _ = Normal _ |- _ => apply RawMemory_size_t_capacity in H
         end.

Lemma PushBack_capacity (value : T) (v : Vector) :
  Capacity (fst (PushBack value v)) = Capacity v ∨
  (size_ v = Capacity v ∧ Capacity (fst (PushBack value v)) = max 1 (Capacity v * 2)).
Proof.
  unfold PushBack. destruct (size_ v =? Capacity v) eqn:E.
  - apply Nat.eqb_eq in E. destruct (grown_capacity_full v E) as [_ Hg].
    unfold Capacity in *. capacity_cases; auto. right. split; [done|]. congruence.
  - unfold Capacity. capacity_cases; auto.
Qed.

Lemma Insert_capacity (pos : nat) (value : T) (v : Vector) :
  Capacity (fst (Insert pos value v)) = Capacity v ∨
  (size_ v = Capacity v ∧ Capacity (fst (Insert pos value v)) = max 1 (Capacity v * 2)).
Proof.
  unfold Insert. destruct (pos =? size_ v).
  { pose proof (PushBack_capacity value v) as Hp.
    destruct (PushBack value v) as [v' [[]| |]]; exact Hp. }
  destruct (size_ v <? pos); [by left|].
  destruct (size_ v =? Capacity v) eqn:E.
  - apply Nat.eqb_eq in E. destruct (grown_capacity_full v E) as [_ Hg].
    unfold Capacity in *.
    destruct (RawMemory_sized (grown_capacity v)) as [new_data| |] eqn:Hn; [|by left..].
    apply RawMemory_sized_capacity in Hn.
    capacity_cases; auto. right. split; [done|]. congruence.
  - unfold Capacity. capacity_cases; auto.
Qed.

Lemma Erase_capacity (pos : nat) (v : Vector) : Capacity (fst (Erase pos v)) = Capacity v.
Proof. unfold Erase, Capacity. by capacity_cases. Qed.

Lemma PopBack_capacity (v : Vector) : Capacity (fst (PopBack v)) = Capacity v.
Proof. unfold PopBack, Capacity. by capacity_cases. Qed.

Lemma Reserve_capacity (n : nat) (v : Vector) :
  Capacity (fst (Reserve n v)) = Capacity v ∨
  (Capacity v < n ∧ Capacity (fst (Reserve n v)) = n).
Proof.
  unfold Reserve, Capacity. destruct (n <=? capacity_ (data_ v)) eqn:E; [by left|].
  apply Nat.leb_gt in E. capacity_cases; auto.
Qed.

Lemma Resize_capacity (n : nat) (v : Vector) :
  Capacity (fst (Resize n v)) = Capacity v ∨
  (Capacity v < n ∧ Capacity (fst (Resize n v)) = n).
Proof.
  unfold Resize. destruct (size_ v <? n).
  - pose proof (Reserve_capacity n v) as Hr. unfold Capacity in *.
    destruct (Reserve n v) as [v1 o]. cbn [fst] in Hr. capacity_cases; auto.
  - unfold Capacity. capacity_cases; auto.
Qed.

Lemma EmplaceBack_capacity (ctor : outcome T) (v : Vector) :
  Capacity (fst (EmplaceBack ctor v)) = Capacity v ∨
  (size_ v = Capacity v ∧ Capacity (fst (EmplaceBack ctor v)) = max 1 (Capacity v * 2)).
Proof.
  unfold EmplaceBack. destruct (size_ v =? Capacity v) eqn:E.
  - apply Nat.eqb_eq in E. destruct (grown_capacity_full v E) as [_ Hg].
    unfold Capacity in *.
    destruct (RawMemory_sized (grown_capacity v)) as [new_data| |] eqn:Hn; [|by left..].
    apply RawMemory_sized_capacity in Hn.
    capacity_cases; auto. right. split; [done|]. congruence.
  - unfold Capacity. capacity_cases; auto.
Qed.

Lemma Emplace_capacity (pos : nat) (ctor : outcome T) (v : Vector) :
  Capacity (fst (Emplace pos ctor v)) = Capacity v ∨
  (size_ v = Capacity v ∧ Capacity (fst (Emplace pos ctor v)) = max 1 (Capacity v * 2)).
Proof.
  unfold Emplace. destruct (pos =? size_ v); [apply EmplaceBack_capacity|].
  destruct (size_ v <? pos); [by left|].
  destruct (size_ v =? Capacity v) eqn:E.
  - apply Nat.eqb_eq in E. destruct (grown_capacity_full v E) as [_ Hg].
    unfold Capacity in *.
    destruct (RawMemory_sized (grown_capacity v)) as [new_data| |] eqn:Hn; [|by left..].
    apply RawMemory_sized_capacity in Hn.
    capacity_cases; auto. right. split; [done|]. congruence.
  - unfold Capacity. capacity_cases; auto.
Qed.

Lemma PushBack_rvalue_capacity (value : rvalue) (v : Vector) :
  Capacity (fst (fst (PushBack_rvalue value v))) = Capacity v ∨
  (size_ v = Capacity v ∧
   Capacity (fst (fst (PushBack_rvalue value v))) = max 1 (Capacity v * 2)).
Proof.
  unfold PushBack_rvalue. destruct (size_ v =? Capacity v) eqn:E.
  - apply Nat.eqb_eq in E. destruct (grown_capacity_full v E) as [_ Hg].
    unfold Capacity in *.
    destruct (RawMemory_sized (grown_capacity v)) as [new_data| |] eqn:Hn; [|by left..].
    apply RawMemory_sized_capacity in Hn.
    capacity_cases; auto. right. split; [done|]. congruence.
  - unfold Capacity. capacity_cases; auto.
Qed.

Lemma Insert_rvalue_capacity (pos : nat) (value : rvalue) (v : Vector) :
  Capacity (fst (fst (Insert_rvalue pos value v))) = Capacity v ∨
  (size_ v = Capacity v ∧
   Capacity (fst (fst (Insert_rvalue pos value v))) = max 1 (Capacity v * 2)).
Proof.
  unfold Insert_rvalue. destruct (pos =? size_ v).
  { pose proof (PushBack_rvalue_capacity value v) as Hp.
    destruct (PushBack_rvalue value v) as [[v' value'] [[]| |]]; exact Hp. }
  destruct (size_ v <? pos); [by left|].
  destruct (size_ v =? Capacity v) eqn:E.
  - apply Nat.eqb_eq in E. destruct (grown_capacity_full v E) as [_ Hg].
    unfold Capacity in *.
    destruct (RawMemory_sized (grown_capacity v)) as [new_data| |] eqn:Hn; [|by left..].
    apply RawMemory_sized_capacity in Hn.
    capacity_cases; auto. right. split; [done|]. congruence.
  - unfold Capacity. capacity_cases; auto.
Qed.

(** C5, as the code has it.  Under PushBack and Insert (both overloads),
    EmplaceBack, Emplace, Erase, PopBack, Resize, Reserve and copy
    assignment the capacity of the vector never decreases, whatever the
    outcome of the call.  PushBack, Insert, EmplaceBack and Emplace change
    it only on a full vector, to [max 1 (capacity * 2)]; Erase and PopBack
    never change it; Reserve and Resize change it only to a requested value
    above it, and to exactly that value; copy assignment changes it only to
    the size of a source that exceeds it.  Move assignment and Swap exchange
    the blocks of two vectors, hence their capacities. *)
Theorem capacity_changes :
  (∀ (op : operation) (v : Vector),
     Capacity v ≤ Capacity (run op v) ∧
     match op with
     | OpPushBack _ | OpInsert _ _ =>
       Capacity (run op v) = Capacity v ∨
       (Size v = Capacity v ∧ Capacity (run op v) = max 1 (Capacity v * 2))
     | OpErase _ | OpPopBack => Capacity (run op v) = Capacity v
     | OpResize n | OpReserve n =>
       Capacity (run op v) = Capacity v ∨ (Capacity v < n ∧ Capacity (run op v) = n)
     end) ∧
  (∀ (v : Vector) (ctor : outcome T) (pos : nat) (value : rvalue),
     Forall (λ v' : Vector,
               Capacity v ≤ Capacity v' ∧
               (Capacity v' = Capacity v ∨
                (Size v = Capacity v ∧ Capacity v' = max 1 (Capacity v * 2))))
            [fst (EmplaceBack ctor v); fst (Emplace pos ctor v);
             fst (fst (PushBack_rvalue value v)); fst (fst (Insert_rvalue pos value v))]) ∧
  (∀ (σ : store) (this rhs : nat),
     Capacity (σ this) ≤ Capacity (fst (copy_assign this rhs σ) this) ∧
     (Capacity (fst (copy_assign this rhs σ) this) = Capacity (σ this) ∨
      (Capacity (σ this) < Size (σ rhs) ∧
       Capacity (fst (copy_assign this rhs σ) this) = Size (σ rhs)))) ∧
  (∀ (σ : store) (this rhs : nat),
     Capacity (fst (move_assign this rhs σ) this) = Capacity (σ rhs) ∧
     Capacity (fst (move_assign this rhs σ) rhs) = Capacity (σ this) ∧
     Capacity (Swap this rhs σ this) = Capacity (σ rhs) ∧
     Capacity (Swap this rhs σ rhs) = Capacity (σ this)).
Proof.
  split_and!.
  - intros op v. unfold Size.
    destruct op as [x|pos x|pos| |n|n]; cbn [run].
    + destruct (PushBack_capacity x v) as [H|[? H]]; split; auto; lia.
    + destruct (Insert_capacity pos x v) as [H|[? H]]; split; auto; lia.
    + by rewrite Erase_capacity.
    + by rewrite PopBack_capacity.
    + destruct (Resize_capacity n v) as [H|[? H]]; split; auto; lia.
    + destruct (Reserve_capacity n v) as [H|[? H]]; split; auto; lia.
  - intros v ctor pos value. unfold Size.
    assert (∀ v' : Vector,
              Capacity v' = Capacity v ∨
              (size_ v = Capacity v ∧ Capacity v' = max 1 (Capacity v * 2)) →
              Capacity v ≤ Capacity v' ∧
              (Capacity v' = Capacity v ∨
               (size_ v = Capacity v ∧ Capacity v' = max 1 (Capacity v * 2)))) as Hlaw.
    { intros v' [H|[? H]]; (split; [lia|auto]). }
    repeat apply Forall_cons_2; [apply Hlaw..|apply Forall_nil_2].
    + apply EmplaceBack_capacity.
    + apply Emplace_capacity.
    + apply PushBack_rvalue_capacity.
    + apply Insert_rvalue_capacity.
  - intros σ this rhs. unfold Size.
    destruct (copy_assign this rhs σ) as [σ' o] eqn:Hca. cbn [fst].
    destruct (copy_assign_frame _ _ _ _ _ Hca) as (_ & Hsame & Hgrow).
    destruct (decide (size_ (σ rhs) ≤ Capacity (σ this))) as [Hle|Hgt].
    + rewrite Hsame by done. auto.
    + destruct Hgrow as [->| ->]; [lia|auto|]. split; [lia|]. right. split; [lia|done].
  - intros σ this rhs. cbn [move_assign fst]. unfold Capacity, set_size.
    destruct (data_Swap_spec this rhs σ) as (Ht & Hr & _).
    destruct (Swap_spec this rhs σ) as (-> & -> & _).
    split_and!; [| |done..].
    + destruct (decide (this = rhs)) as [->|Hne].
      * rewrite fn_lookup_insert. cbn. by rewrite Hr.
      * rewrite fn_lookup_insert_ne by done. by rewrite Ht.
    + rewrite fn_lookup_insert. cbn. by rewrite Hr.
Qed.

(** ** The invariant and the other operations on one vector *)

Lemma replicate_add_split {A} (n k : nat) (x : A) :
  k ≤ n → replicate n x = replicate k x ++ replicate (n - k) x.
Proof. intros Hk. rewrite <- replicate_add. f_equal. lia. Qed.

Lemma forallb_live (xs : list T) :
  forallb (λ s : option T, match s with Some _ => true | None => false end) (Some <$> xs) = true.
Proof. induction xs as [|x xs IH]; [done|]. by rewrite fmap_cons. Qed.

Lemma forallb_raw (n : nat) :
  forallb (λ s : option T, match s with Some _ => false | None => true end) (replicate n None) = true.
Proof. induction n as [|n IH]; [done|]. done. Qed.

Lemma represents_invariant (v : Vector) (xs : list T) :
  represents v xs → invariant v = true ∧ contents v = Some <$> xs.
Proof.
  intros (Hs & Hle & Hb). unfold invariant, contents, block_of, Capacity.
  rewrite Hb, Hs.
  rewrite take_app_length', drop_app_length' by (by rewrite length_fmap).
  rewrite length_app, length_fmap, length_replicate, forallb_live, forallb_raw.
  split; [|done]. rewrite !andb_true_r. apply andb_true_intro. split.
  - apply Nat.eqb_eq. lia.
  - by apply Nat.leb_le.
Qed.


Lemma Vector_sized_ok (n : nat) :
  fits n = true → alloc_fails n = false → value_init_throws = false →
  ∃ v, Vector_sized n = Normal v ∧ represents v (replicate n value_init) ∧ Capacity v = n.
Proof.
  intros Hf Ha Hv. unfold Vector_sized. rewrite RawMemory_size_t_ok by done.
  cbn [buffer_ capacity_].
  rewrite_at_nil (uninitialized_value_construct_n_ok n [] (replicate n None) [] 0 Hv eq_refl
                    (eq_sym (length_replicate _ _))).
  eexists. split; [done|]. split; [|done].
  unfold represents. cbn. rewrite length_replicate, Nat.sub_diag. cbn.
  by rewrite fmap_replicate, app_nil_r.
Qed.

Lemma Reserve_ok (n : nat) (v : Vector) (xs : list T) :
  represents v xs → Forall no_throw xs → fits n = true → alloc_fails n = false →
  ∃ v', Reserve n v = (v', Normal tt) ∧ represents v' xs ∧ Capacity v' = max n (Capacity v).
Proof.
  intros Hr Hxs Hf Ha. pose proof Hr as (Hs & Hle & Hb). unfold Reserve, Capacity.
  destruct (n <=? capacity_ (data_ v)) eqn:E.
  - apply Nat.leb_le in E. exists v. split_and!; [done..|lia].
  - apply Nat.leb_gt in E. rewrite RawMemory_size_t_ok by done. cbn [buffer_ capacity_].
    unfold block_of. rewrite Hb, Hs.
    rewrite (replicate_add_split n (length xs)) by lia.
    destruct (relocate_n_ok xs [] (replicate (capacity_ (data_ v) - length xs) None)
                [] (replicate (length xs) None) (replicate (n - length xs) None)
                0 (length xs) 0) as (zs & Hzs & Hrel);
      [by rewrite ?length_replicate..|].
    cbn [app] in Hrel. rewrite Hrel.
    rewrite_at_nil (destroy_n_ok zs [] (replicate (capacity_ (data_ v) - length xs) None)
                      0 (length xs) eq_refl (eq_sym Hzs)).
    eexists. split; [done|]. split; [|cbn; lia].
    unfold represents. cbn. split_and!; [done|lia|done].
Qed.

Lemma PopBack_ok (v : Vector) (xs : list T) (x : T) :
  represents v (xs ++ [x]) →
  ∃ v', PopBack v = (v', Normal tt) ∧ represents v' xs ∧ Capacity v' = Capacity v.
Proof.
  intros (Hs & Hle & Hb). rewrite length_snoc in *. unfold PopBack, Capacity.
  rewrite Hs. unfold RawMemory_index.
  assert ((length xs <? capacity_ (data_ v)) = true) as -> by (apply Nat.ltb_lt; lia).
  unfold destroy_at, block_of. rewrite Hb, fmap_app, <- app_assoc. cbn [fmap list_fmap app].
  rewrite deref_middle, insert_middle by (by rewrite length_fmap).
  eexists. split; [done|]. split; [|done].
  unfold represents. cbn. split_and!; [done|lia|].
  rewrite (replicate_split (capacity_ (data_ v) - length xs) 0) by lia.
  cbn. do 3 f_equal. lia.
Qed.

Lemma Resize_ok (n : nat) (v : Vector) (xs : list T) :
  represents v xs → Forall no_throw xs → fits n = true → alloc_fails n = false →
  value_init_throws = false →
  ∃ v', Resize n v = (v', Normal tt) ∧
        represents v' (take n xs ++ replicate (n - length xs) value_init).
Proof.
  intros Hr Hxs Hf Ha Hv. pose proof Hr as (Hs & Hle & Hb). unfold Resize. rewrite Hs.
  destruct (length xs <? n) eqn:Hgrow; [|destruct (n <? length xs) eqn:Hshrink].
  - apply Nat.ltb_lt in Hgrow.
    destruct (Reserve_ok n v xs Hr Hxs Hf Ha) as (v1 & -> & (Hs1 & Hle1 & Hb1) & Hc1).
    unfold Capacity in Hc1. unfold block_of. rewrite Hb1, Hs1.
    rewrite (replicate_add_split (capacity_ (data_ v1) - length xs) (n - length xs)) by lia.
    rewrite (uninitialized_value_construct_n_ok (n - length xs) (Some <$> xs))
      by (by rewrite ?length_fmap, ?length_replicate).
    eexists. split; [done|]. rewrite take_ge by lia.
    unfold represents. cbn. rewrite length_app, length_replicate.
    split_and!; [lia|lia|].
    rewrite fmap_app, fmap_replicate, <- app_assoc. do 3 f_equal. lia.
  - apply Nat.ltb_lt in Hshrink. unfold block_of. rewrite Hb.
    replace (Some <$> xs) with ((Some <$> take n xs) ++ (Some <$> drop n xs))
      by (by rewrite <- fmap_app, take_drop).
    rewrite <- app_assoc.
    rewrite (destroy_n_ok (drop n xs) (Some <$> take n xs))
      by (rewrite ?length_fmap, ?length_take, ?length_drop; lia).
    eexists. split; [done|].
    replace (n - length xs) with 0 by lia. cbn [replicate]. rewrite app_nil_r.
    unfold represents. cbn. rewrite length_take.
    split_and!; [lia|lia|].
    rewrite <- replicate_add. do 2 f_equal. lia.
  - apply Nat.ltb_ge in Hgrow, Hshrink. assert (n = length xs) as -> by lia.
    eexists. split; [done|].
    rewrite firstn_all, Nat.sub_diag, app_nil_r. by rewrite <- Hs, Vector_eta.
Qed.

(** Every operation on one vector, called within its contract on a vector
    that holds [xs] and with nothing failing, completes and leaves a vector
    that holds [effect op xs]: the invariant is kept. *)
Lemma run_refines_effect (op : operation) (v : Vector) (xs : list T) :
  represents v xs → valid op xs →
  (∀ n, alloc_fails n = false) → value_init_throws = false →
  Forall no_throw (arguments op ++ xs) →
  represents (run op v) (effect op xs) ∧ invariant (run op v) = true.
Proof.
  intros Hr Hvalid Ha Hv Hall.
  assert (represents (run op v) (effect op xs)) as Hgoal; [|split; [done|]].
  2: { by apply (represents_invariant _ _ Hgoal). }
  destruct op as [x|pos x|pos| |n|n]; cbn [run effect arguments valid app] in *.
  - inversion_clear Hall as [|? ? Hx Hxs].
    by destruct (PushBack_ok v xs x Hr Hxs Hx (λ _, Ha _)) as (v' & -> & ? & _).
  - inversion_clear Hall as [|? ? Hx Hxs].
    by destruct (Insert_ok v xs pos x Hr Hvalid Hxs Hx (λ _, Ha _)) as (v' & -> & ?).
  - by destruct (Erase_ok v xs pos Hr Hvalid Hall) as (v' & -> & ?).
  - destruct xs as [|x xs _] using rev_ind; [cbn in Hvalid; lia|].
    destruct (PopBack_ok v xs x Hr) as (v' & -> & ? & _).
    rewrite length_snoc. cbn. rewrite Nat.sub_0_r. by rewrite take_app_length.
  - by destruct (Resize_ok n v xs Hr Hall Hvalid (Ha _) Hv) as (v' & -> & ?).
  - by destruct (Reserve_ok n v xs Hr Hall Hvalid (Ha _)) as (v' & -> & ? & _).
Qed.

(** ** Failure of PushBack *)

Lemma destroy_n_no_throw : ∀ (n : nat) (b b' : block) (first : nat) (e : exn),
  destroy_n b first n ≠ (b', Throw e).
Proof.
  induction n as [|n IH]; intros b b' first e; cbn; [done|].
  unfold destroy_at. destruct (deref b first); [apply IH|done].
Qed.

Lemma uninitialized_move_n_no_throw :
  is_nothrow_move_constructible = true →
  ∀ (n : nat) (src dst : block) (first d_first : nat) (r : block * block) (e : exn),
  uninitialized_move_n src first n dst d_first ≠ (r, Throw e).
Proof.
  intros Hn. induction n as [|n IH]; intros src dst first d_first r e; cbn; [done|].
  unfold move_ctor_throws. rewrite Hn. cbn.
  repeat case_match; simplify_eq; try done.
  intros ?. simplify_eq. by eapply IH.
Qed.

Lemma relocate_n_throw_keeps_source (src dst : block) (first n d_first : nat)
    (src' dst' : block) (e : exn) :
  is_copy_constructible = true →
  relocate_n src first n dst d_first = ((src', dst'), Throw e) → src' = src.
Proof.
  unfold relocate_n, relocates_by_move. intros -> Hr.
  destruct is_nothrow_move_constructible eqn:Hn; cbn in Hr.
  - by apply uninitialized_move_n_no_throw in Hr.
  - destruct (uninitialized_copy_n src first n dst d_first). by simplify_eq.
Qed.

(** PushBack gives the strong guarantee: when an exception leaves it (from
    the allocation, the copy of the new value or the relocation of the
    elements), the vector is as it was. *)
Lemma PushBack_strong_guarantee (value : T) (v v' : Vector) (e : exn) :
  is_copy_constructible = true →
  PushBack value v = (v', Throw e) → v' = v.
Proof.
  intros Hc. unfold PushBack.
  destruct (size_ v =? Capacity v).
  - destruct (RawMemory_sized (grown_capacity v)) as [new_data| |]; [|by inversion 1..].
    destruct (RawMemory_index new_data (size_ v)) as [i| |]; [|by inversion 1..].
    destruct (construct_copy (buffer_ new_data) i value) as [new0 [[]| |]]; [|by inversion 1..].
    destruct (relocate_n (block_of v) 0 (size_ v) new0 0) as [[old new] [[]|e'|]] eqn:Hr.
    + destruct (destroy_n old 0 (size_ v)) as [old' [[]|e'|]] eqn:Hd; [done| |done].
      by apply destroy_n_no_throw in Hd.
    + apply relocate_n_throw_keeps_source in Hr as ->; [|done].
      intros ?. simplify_eq. apply with_block_id.
    + done.
  - destruct (RawMemory_index (data_ v) (size_ v)) as [i| |]; [|by inversion 1..].
    unfold construct_copy. repeat case_match; intros ?; simplify_eq. apply with_block_id.
Qed.


(** ** EmplaceBack and Emplace when nothing throws *)

Lemma EmplaceBack_ok (v : Vector) (xs : list T) (y : T) :
  represents v xs → Forall no_throw xs →
  (size_ v = Capacity v → alloc_fails (grown_capacity v) = false) →
  ∃ v', EmplaceBack (Normal y) v = (v', Normal (length xs)) ∧ represents v' (xs ++ [y]) ∧
        Capacity v' = (if size_ v =? Capacity v then max 1 (Capacity v * 2) else Capacity v).
Proof.
  intros (Hs & Hle & Hb) Hxs Ha. unfold EmplaceBack.
  destruct (size_ v =? Capacity v) eqn:Hfull.
  - apply Nat.eqb_eq in Hfull. destruct (grown_capacity_full v Hfull) as [Hlt Hmax].
    rewrite RawMemory_sized_ok by auto. unfold RawMemory_index. simpl.
    apply Nat.ltb_lt in Hlt as Hlt'. rewrite Hlt'.
    unfold construct_with. rewrite length_replicate, Hlt'.
    rewrite (replicate_split _ (size_ v)) by done.
    rewrite insert_middle by (by rewrite length_replicate).
    unfold block_of. rewrite Hb.
    destruct (relocate_n_ok xs [] (replicate (capacity_ (data_ v) - length xs) None)
                [] (replicate (size_ v) None)
                (Some y :: replicate (grown_capacity v - size_ v - 1) None)
                0 (size_ v) 0) as (zs & Hzs & Hr);
      [by rewrite ?length_replicate..|].
    cbn [app] in Hr. rewrite Hr.
    rewrite_at_nil (destroy_n_ok zs [] (replicate (capacity_ (data_ v) - length xs) None)
                      0 (size_ v) eq_refl ltac:(congruence)).
    eexists. split; [by rewrite Hs|]. unfold Capacity in *. simpl. split; [|done].
    unfold represents. simpl. rewrite length_app. simpl.
    split_and!; [lia|lia|].
    rewrite fmap_app, <- app_assoc. simpl. do 3 f_equal. lia.
  - apply Nat.eqb_neq in Hfull. unfold Capacity in *.
    unfold RawMemory_index.
    assert ((size_ v <? capacity_ (data_ v)) = true) as -> by (apply Nat.ltb_lt; lia).
    unfold construct_with, block_of. rewrite Hb.
    rewrite (replicate_split _ 0) by lia. simpl.
    rewrite ltb_middle, insert_middle by (by rewrite length_fmap).
    eexists. split; [by rewrite Hs|]. simpl. split; [|done].
    unfold represents. simpl. rewrite length_app. simpl.
    split_and!; [lia|lia|].
    rewrite fmap_app, <- app_assoc. simpl. do 3 f_equal. lia.
Qed.

Lemma Emplace_realloc (v : Vector) (pre ys : list T) (y : T) :
  represents v (pre ++ ys) → ys ≠ [] → size_ v = Capacity v →
  Forall no_throw (pre ++ ys) →
  alloc_fails (grown_capacity v) = false →
  ∃ v', Emplace (length pre) (Normal y) v = (v', Normal (length pre)) ∧
        represents v' (pre ++ y :: ys) ∧ Capacity v' = max 1 (Capacity v * 2).
Proof.
  intros (Hs & Hle & Hb) Hne Hfull Hxs Ha.
  apply Forall_app in Hxs as [Hpre Hys].
  assert (0 < length ys) as Hlen by (destruct ys; [done|simpl; lia]).
  rewrite length_app in *.
  destruct (grown_capacity_full v Hfull) as [Hlt Hmax].
  unfold Emplace.
  assert ((length pre =? size_ v) = false) as -> by (apply Nat.eqb_neq; lia).
  assert ((size_ v <? length pre) = false) as -> by (apply Nat.ltb_ge; lia).
  assert ((size_ v =? Capacity v) = true) as -> by (by apply Nat.eqb_eq).
  rewrite RawMemory_sized_ok by done.
  unfold RawMemory_plus, construct_with. cbn [capacity_ buffer_].
  assert ((length pre <=? grown_capacity v) = true) as -> by (apply Nat.leb_le; lia).
  rewrite length_replicate.
  assert ((length pre <? grown_capacity v) = true) as -> by (apply Nat.ltb_lt; lia).
  rewrite (replicate_split _ (length pre)) by lia.
  rewrite insert_middle by (by rewrite length_replicate).
  unfold block_of, Capacity in *. rewrite Hb, fmap_app, <- app_assoc.
  set (k := capacity_ (data_ v) - (length pre + length ys)).
  set (n := grown_capacity v) in *.
  destruct (relocate_n_ok pre [] ((Some <$> ys) ++ replicate k None)
              [] (replicate (length pre) None)
              (Some y :: replicate (n - length pre - 1) None)
              0 (length pre) 0) as (zs1 & Hz1 & Hr1);
    [by rewrite ?length_replicate..|].
  cbn [app] in Hr1. rewrite Hr1. cbn [catch_all].
  assert ((length pre <=? capacity_ (data_ v)) = true) as -> by (apply Nat.leb_le; lia).
  replace (replicate (n - length pre - 1) None)
    with (replicate (length ys) (@None T) ++ replicate (n - size_ v - 1) None)
    by (rewrite <- replicate_add; f_equal; lia).
  rewrite (snoc_app (Some <$> pre)).
  destruct (relocate_n_ok ys (Some <$> zs1) (replicate k None)
              ((Some <$> pre) ++ [Some y]) (replicate (length ys) None)
              (replicate (n - size_ v - 1) None)
              (length pre) (size_ v - length pre) (length pre + 1)) as (zs2 & Hz2 & Hr2);
    [ done | by rewrite length_fmap | lia | rewrite length_snoc, length_fmap; lia
    | by rewrite length_replicate | ].
  rewrite Hr2. cbn [catch_all].
  rewrite app_assoc, <- fmap_app.
  rewrite_at_nil (destroy_n_ok (zs1 ++ zs2) [] (replicate k None) 0 (size_ v) eq_refl
                    ltac:(rewrite length_app; lia)).
  eexists. split; [done|]. split; [|done].
  unfold represents. cbn [data_ size_ buffer_ capacity_].
  rewrite length_app. cbn [length]. split_and!; [lia|lia|].
  rewrite <- snoc_app, fmap_app, fmap_cons, <- !app_assoc. cbn [app].
  do 4 f_equal. lia.
Qed.

Lemma Emplace_in_place (v : Vector) (pre ys : list T) (y : T) :
  represents v (pre ++ ys) → ys ≠ [] → size_ v ≠ Capacity v →
  Forall no_throw (pre ++ ys) → move_assign_throws y = false →
  ∃ v', Emplace (length pre) (Normal y) v = (v', Normal (length pre)) ∧
        represents v' (pre ++ y :: ys) ∧ Capacity v' = Capacity v.
Proof.
  intros (Hs & Hle & Hb) Hne Hfull Hxs Hy'.
  destruct ys as [|l ys _] using rev_ind; [done|]. clear Hne.
  apply Forall_app in Hxs as [Hpre Hys]. apply Forall_app in Hys as [Hys Hl].
  inversion_clear Hl as [|? ? (_ & Hl' & _) _].
  rewrite !length_app in *. cbn [length] in *.
  unfold Emplace, Capacity in *.
  assert ((length pre =? size_ v) = false) as -> by (apply Nat.eqb_neq; lia).
  assert ((size_ v <? length pre) = false) as -> by (apply Nat.ltb_ge; lia).
  assert ((size_ v =? capacity_ (data_ v)) = false) as -> by (by apply Nat.eqb_neq).
  unfold RawMemory_index.
  assert ((size_ v <? capacity_ (data_ v)) = true) as -> by (apply Nat.ltb_lt; lia).
  assert ((size_ v - 1 <? capacity_ (data_ v)) = true) as -> by (apply Nat.ltb_lt; lia).
  assert ((length pre <? capacity_ (data_ v)) = true) as -> by (apply Nat.ltb_lt; lia).
  unfold block_of. rewrite Hb.
  set (k := capacity_ (data_ v) - (length pre + (length ys + 1))).
  rewrite (replicate_split k 0) by lia. cbn [replicate app].
  rewrite !fmap_app, <- !app_assoc. cbn [fmap list_fmap app].
  rewrite (app_assoc (Some <$> pre)).
  rewrite construct_move_next by (rewrite ?length_app, ?length_fmap; done || lia).
  rewrite <- (app_assoc (Some <$> pre)).
  destruct (move_backward_ok ys (Some <$> pre) (Some l :: replicate (k - 0 - 1) None)
              (moved_from l) (size_ v - 1) (size_ v - 1 - length pre) (size_ v)) as [z ->];
    [ by apply no_throw_move_assign | rewrite length_fmap; lia | lia | lia | ].
  unfold move_assign_value. rewrite deref_middle, Hy' by (by rewrite length_fmap).
  rewrite insert_middle by (by rewrite length_fmap).
  eexists. split; [done|]. split; [|done].
  unfold represents. cbn [data_ size_ with_block buffer_ capacity_].
  rewrite !length_app. cbn [length]. rewrite !length_app. cbn [length].
  split_and!; [lia|lia|].
  rewrite !fmap_app, !fmap_cons, !fmap_app. cbn [fmap list_fmap].
  rewrite <- !app_assoc. cbn [app]. rewrite <- (app_assoc (Some <$> ys)). cbn [app].
  do 5 f_equal. subst k. lia.
Qed.

Lemma Emplace_split (v : Vector) (pre ys : list T) (y : T) :
  represents v (pre ++ ys) → Forall no_throw (pre ++ ys) → move_assign_throws y = false →
  (size_ v = Capacity v → alloc_fails (grown_capacity v) = false) →
  ∃ v', Emplace (length pre) (Normal y) v = (v', Normal (length pre)) ∧
        represents v' (pre ++ y :: ys) ∧
        Capacity v' = (if size_ v =? Capacity v then max 1 (Capacity v * 2) else Capacity v).
Proof.
  intros Hr Hxs Hy Ha.
  assert (ys = [] ∨ ys ≠ []) as [->|Hne] by (destruct ys; [by left|by right]).
  - rewrite app_nil_r in *.
    destruct (EmplaceBack_ok v pre y Hr Hxs Ha) as (v' & Hp & Hr' & Hc).
    exists v'. split; [|done]. unfold Emplace.
    destruct Hr as (Hs & _). by rewrite Hs, Nat.eqb_refl, Hp.
  - destruct (size_ v =? Capacity v) eqn:Hfull.
    + apply Nat.eqb_eq in Hfull. apply Emplace_realloc; auto.
    + apply Nat.eqb_neq in Hfull. by apply Emplace_in_place.
Qed.


Lemma RawMemory_index_Normal (m : RawMemory) (i j : nat) :
  RawMemory_index m i = Normal j → j = i ∧ i < capacity_ m.
Proof.
  unfold RawMemory_index. destruct (i <? capacity_ m) eqn:E; [|done].
  apply Nat.ltb_lt in E. intros ?. by simplify_eq.
Qed.

Lemma PushBack_EmplaceBack (x : T) (v : Vector) :
  EmplaceBack (copied x) v
  = (fst (PushBack x v),
     match snd (PushBack x v) with Normal _ => Normal (size_ v) | o => fail_as o end).
Proof.
  unfold EmplaceBack, PushBack, construct_with, construct_copy, copied.
  destruct (size_ v =? Capacity v).
  - destruct (RawMemory_sized (grown_capacity v)) as [new_data| |]; [|done..].
    destruct (RawMemory_index new_data (size_ v)) as [i| |] eqn:Hi; [|done..].
    apply RawMemory_index_Normal in Hi as [-> _].
    destruct (size_ v <? length (buffer_ new_data)); [|done].
    destruct (copy_throws x); [done|].
    destruct (relocate_n _ _ _ _ _) as [[old new] [[]| |]]; [|done..].
    by destruct (destroy_n _ _ _) as [old' [[]| |]].
  - destruct (RawMemory_index (data_ v) (size_ v)) as [i| |] eqn:Hi; [|done..].
    apply RawMemory_index_Normal in Hi as [-> _].
    destruct (size_ v <? length (block_of v)); [|done].
    by destruct (copy_throws x).
Qed.

Lemma PushBack_size (x : T) (v v' : Vector) :
  PushBack x v = (v', Normal tt) → size_ v' = size_ v + 1.
Proof.
  unfold PushBack. intros H. repeat case_match; by simplify_eq.
Qed.

Lemma Insert_Emplace (pos : nat) (x : T) (v : Vector) :
  Insert pos x v = Emplace pos (copied x) v.
Proof.
  unfold Insert, Emplace. destruct (pos =? size_ v) eqn:Hpos.
  - rewrite PushBack_EmplaceBack.
    destruct (PushBack x v) as [v' [[]| |]] eqn:Hp; cbn; [|done..].
    apply PushBack_size in Hp. do 2 f_equal. lia.
  - destruct (size_ v <? pos); [done|].
    destruct (size_ v =? Capacity v).
    + unfold construct_copy, construct_with, copied.
      destruct (RawMemory_sized (grown_capacity v)) as [new_data| |]; [|done..].
      destruct (RawMemory_plus new_data pos) as [temp| |]; [|done..].
      destruct (temp <? length (buffer_ new_data)); [|done].
      by destruct (copy_throws x).
    + unfold copied. by destruct (copy_throws x).
Qed.

Lemma move_construct_from_length (value value' : rvalue) (b b0 : block) (o : outcome T) :
  move_construct_from value b = ((b0, value'), o) → length b0 = length b.
Proof.
  unfold move_construct_from. intros H.
  repeat case_match; simplify_eq; by rewrite ?length_insert.
Qed.

Lemma move_construct_from_ok (value : rvalue) (v : Vector) (xs : list T) (x : T) :
  represents v xs → refers_to value xs x → move_ctor_throws x = false →
  ∃ b0, move_construct_from value (block_of v) = ((b0, argument_after_move value), Normal x) ∧
        represents (with_block v b0) (after_move value xs x) ∧
        argument_after_move value
        = match value with Outside _ => Outside (moved_from x) | Inside i => Inside i end.
Proof.
  intros Hr Hx Hm. destruct value as [y|i]; cbn in *.
  - subst y. rewrite Hm. exists (block_of v). by rewrite with_block_id.
  - pose proof (represents_lookup _ _ _ _ Hr Hx) as Hb. unfold deref. rewrite Hb. cbn.
    rewrite Hm. eexists. split; [done|]. split; [|done].
    destruct Hr as (Hs & Hle & Hbuf). apply lookup_lt_Some in Hx.
    unfold represents, block_of. cbn. rewrite length_insert. split_and!; [done..|].
    rewrite Hbuf, insert_app_l by (by rewrite length_fmap).
    by rewrite list_fmap_insert.
Qed.

Lemma PushBack_rvalue_sim (value value' : rvalue) (v : Vector) (b0 : block) (x : T) :
  move_construct_from value (block_of v) = ((b0, value'), Normal x) →
  size_ v ≤ Capacity v → length (block_of v) = Capacity v →
  (size_ v = Capacity v → alloc_fails (grown_capacity v) = false) →
  PushBack_rvalue value v
  = ((fst (EmplaceBack (Normal x) (with_block v b0)), value'),
     match snd (EmplaceBack (Normal x) (with_block v b0)) with
     | Normal _ => Normal tt
     | o => fail_as o
     end).
Proof.
  intros Hm Hle Hlen Ha. pose proof (move_construct_from_length _ _ _ _ _ Hm) as Hl0.
  unfold PushBack_rvalue, EmplaceBack, construct_with, grown_capacity, Capacity, block_of in *.
  cbn [with_block size_ data_ capacity_ buffer_].
  destruct (size_ v =? capacity_ (data_ v)) eqn:Hfull.
  - apply Nat.eqb_eq in Hfull. destruct (grown_capacity_full v Hfull) as [Hlt _].
    unfold grown_capacity, Capacity in Hlt.
    rewrite RawMemory_sized_ok by auto. unfold RawMemory_index. cbn [capacity_ buffer_].
    apply Nat.ltb_lt in Hlt. rewrite length_replicate, !Hlt. rewrite Hm.
    destruct (relocate_n _ _ _ _ _) as [[old new] [[]| |]]; [|done..].
    by destruct (destroy_n _ _ _) as [old' [[]| |]].
  - apply Nat.eqb_neq in Hfull. unfold RawMemory_index.
    assert ((size_ v <? capacity_ (data_ v)) = true) as Hlt by (apply Nat.ltb_lt; lia).
    rewrite Hlt, Hl0, Hlen, Hlt, Hm. cbn [capacity_]. by rewrite !Hlt.
Qed.

Lemma EmplaceBack_size (ctor : outcome T) (v v' : Vector) (i : nat) :
  EmplaceBack ctor v = (v', Normal i) → size_ v' = size_ v + 1 ∧ i = size_ v.
Proof.
  unfold EmplaceBack. intros H.
  repeat case_match; simplify_eq;
    repeat match goal with
           | H : RawMemory_index _ _ = Normal _ |- _ =>
             apply RawMemory_index_Normal in H as [-> _]
           end; done.
Qed.

Lemma Insert_rvalue_sim (pos : nat) (value value' : rvalue) (v : Vector) (b0 : block) (x : T) :
  move_construct_from value (block_of v) = ((b0, value'), Normal x) →
  pos ≤ size_ v → size_ v ≤ Capacity v → length (block_of v) = Capacity v →
  (size_ v = Capacity v → alloc_fails (grown_capacity v) = false) →
  Insert_rvalue pos value v
  = ((fst (Emplace pos (Normal x) (with_block v b0)), value'),
     snd (Emplace pos (Normal x) (with_block v b0))).
Proof.
  intros Hm Hpos Hle Hlen Ha. unfold Insert_rvalue, Emplace.
  cbn [with_block size_]. destruct (pos =? size_ v) eqn:Hp.
  - rewrite (PushBack_rvalue_sim _ _ _ _ _ Hm) by done.
    destruct (EmplaceBack (Normal x) (with_block v b0)) as [v' [i| |]] eqn:He; cbn; [|done..].
    apply EmplaceBack_size in He as [Hs ->]. cbn in Hs. cbn. do 2 f_equal. lia.
  - apply Nat.eqb_neq in Hp.
    assert ((size_ v <? pos) = false) as -> by (apply Nat.ltb_ge; lia).
    unfold construct_with, grown_capacity, Capacity, block_of in *.
    cbn [with_block size_ data_ capacity_ buffer_].
    destruct (size_ v =? capacity_ (data_ v)) eqn:Hfull.
    + apply Nat.eqb_eq in Hfull. destruct (grown_capacity_full v Hfull) as [Hlt _].
      unfold grown_capacity, Capacity in Hlt.
      rewrite RawMemory_sized_ok by auto. unfold RawMemory_plus. cbn [capacity_ buffer_].
      rewrite length_replicate.
      match goal with |- context [pos <=? ?n] =>
        assert ((pos <=? n) = true) as -> by (apply Nat.leb_le; lia);
        assert ((pos <? n) = true) as -> by (apply Nat.ltb_lt; lia)
      end.
      rewrite Hm.
      destruct (catch_all _ _) as [[old1 new1] [[]| |]]; [|reflexivity..].
      destruct (pos <=? capacity_ (data_ v)); [|reflexivity].
      destruct (catch_all _ _) as [[old2 new2] [[]| |]]; [|reflexivity..].
      destruct (destroy_n _ _ _) as [old3 [[]| |]]; reflexivity.
    + rewrite Hm. unfold RawMemory_index. cbn [capacity_].
      destruct (size_ v <? capacity_ (data_ v)); [|reflexivity].
      destruct (size_ v - 1 <? capacity_ (data_ v)); [|reflexivity].
      destruct (construct_move b0 _ _) as [b1 [[]| |]]; [|reflexivity..].
      destruct (move_backward _ _ _ _) as [b2 [[]| |]]; [|reflexivity..].
      destruct (pos <? capacity_ (data_ v)); [|reflexivity].
      destruct (move_assign_value b2 _ x) as [b3 [[]| |]]; reflexivity.
Qed.

(** ** Commit or roll back *)

Lemma copy_throws_cases (xs : list T) :
  Forall (λ x, copy_throws x = false) xs ∨ Exists (λ x, copy_throws x = true) xs.
Proof.
  induction xs as [|x xs [IH|IH]].
  - left. constructor.
  - destruct (copy_throws x) eqn:Hx.
    + right. by constructor.
    + left. by constructor.
  - right. by constructor 2.
Qed.

Lemma nothrow_move_all (xs : list T) :
  is_nothrow_move_constructible = true → Forall (λ x, move_ctor_throws x = false) xs.
Proof.
  intros Hn. apply Forall_forall. intros x _. unfold move_ctor_throws. by rewrite Hn.
Qed.

(** Relocation of live elements into raw slots, for a copyable [T]: it
    completes, or it throws and the source block is as before. *)
Lemma relocate_n_cases (xs : list T) (pre post dpre mid dpost : block) (first n d_first : nat) :
  is_copy_constructible = true →
  first = length pre → n = length xs → d_first = length dpre → length mid = length xs →
  (∃ zs, length zs = length xs ∧
     relocate_n (pre ++ (Some <$> xs) ++ post) first n (dpre ++ mid ++ dpost) d_first
     = ((pre ++ (Some <$> zs) ++ post, dpre ++ (Some <$> xs) ++ dpost), Normal tt)) ∨
  (∃ dst',
     relocate_n (pre ++ (Some <$> xs) ++ post) first n (dpre ++ mid ++ dpost) d_first
     = ((pre ++ (Some <$> xs) ++ post, dst'), Throw element_exception)).
Proof.
  intros Hc ? ? ? ?. unfold relocate_n, relocates_by_move. rewrite Hc, orb_false_r.
  destruct is_nothrow_move_constructible eqn:Hn.
  - left. exists (moved_from <$> xs). split; [by rewrite length_fmap|].
    by apply uninitialized_move_n_ok; [apply nothrow_move_all|..].
  - destruct (copy_throws_cases xs) as [Hok|Hbad].
    + left. exists xs. split; [done|]. by rewrite (uninitialized_copy_n_ok xs).
    + right. destruct (uninitialized_copy_n_throws xs pre post dpre mid dpost first n d_first)
        as [dst' ->]; [done..|]. by exists dst'.
Qed.

(** X3.  PushBack on a vector of copyable elements either returns, with
    the new element after the old ones, or throws and leaves the vector as
    it was: it never stops half way and never runs into undefined
    behaviour. *)
Theorem PushBack_commit_or_rollback (v : Vector) (xs : list T) (y : T) :
  represents v xs → is_copy_constructible = true →
  (∃ v', PushBack y v = (v', Normal tt) ∧ represents v' (xs ++ [y])) ∨
  (∃ e, PushBack y v = (v, Throw e)).
Proof.
  intros Hr Hc.
  cut ((∃ v', PushBack y v = (v', Normal tt) ∧ represents v' (xs ++ [y])) ∨
       (∃ v' e, PushBack y v = (v', Throw e))).
  { intros [?|(v' & e & Hp)]; [by left|right]. exists e.
    by rewrite Hp, (PushBack_strong_guarantee y v v' e Hc Hp). }
  pose proof Hr as (Hs & Hle & Hb).
  destruct (size_ v =? Capacity v) eqn:Hfull.
  - apply Nat.eqb_eq in Hfull. destruct (grown_capacity_full v Hfull) as [Hlt Hmax].
    unfold PushBack. rewrite (proj2 (Nat.eqb_eq _ _) Hfull).
    destruct (alloc_fails (grown_capacity v)) eqn:Ha.
    { right. exists v, bad_alloc. unfold RawMemory_sized, Allocate. rewrite Ha.
      by destruct (grown_capacity v); [lia|]. }
    rewrite RawMemory_sized_ok by done. unfold RawMemory_index. cbn [capacity_ buffer_].
    apply Nat.ltb_lt in Hlt as Hlt'. rewrite Hlt'.
    unfold construct_copy. rewrite length_replicate, Hlt'.
    destruct (copy_throws y) eqn:Hy; [right; by eexists _, _|].
    rewrite (replicate_split _ (size_ v)) by done.
    rewrite insert_middle by (by rewrite length_replicate).
    unfold block_of. rewrite Hb.
    destruct (relocate_n_cases xs [] (replicate (capacity_ (data_ v) - length xs) None)
                [] (replicate (size_ v) None)
                (Some y :: replicate (grown_capacity v - size_ v - 1) None)
                0 (size_ v) 0) as [(zs & Hzs & Hrel)|(dst' & Hrel)];
      [by rewrite ?length_replicate..| |]; cbn [app] in Hrel; rewrite Hrel.
    + left.
      rewrite_at_nil (destroy_n_ok zs [] (replicate (capacity_ (data_ v) - length xs) None)
                        0 (size_ v) eq_refl ltac:(congruence)).
      eexists. split; [done|]. unfold Capacity in *.
      unfold represents. cbn. rewrite length_app. cbn.
      split_and!; [lia|lia|].
      rewrite fmap_app, <- app_assoc. cbn. do 3 f_equal. lia.
    + right. by eexists _, _.
  - apply Nat.eqb_neq in Hfull. unfold PushBack, Capacity in *.
    rewrite (proj2 (Nat.eqb_neq _ _) Hfull). unfold RawMemory_index.
    assert ((size_ v <? capacity_ (data_ v)) = true) as -> by (apply Nat.ltb_lt; lia).
    unfold construct_copy, block_of. rewrite Hb.
    rewrite (replicate_split _ 0) by lia. cbn [replicate app].
    rewrite ltb_middle by (by rewrite length_fmap).
    destruct (copy_throws y) eqn:Hy; [right; by eexists _, _|].
    left. rewrite insert_middle by (by rewrite length_fmap).
    eexists. split; [done|].
    unfold represents. cbn. rewrite length_app. cbn.
    split_and!; [lia|lia|].
    rewrite fmap_app, <- app_assoc. cbn. do 3 f_equal. lia.
Qed.

Lemma Reserve_cases (n : nat) (v : Vector) (xs : list T) :
  represents v xs → is_copy_constructible = true → (Capacity v < n → fits n = true) →
  (∃ v', Reserve n v = (v', Normal tt) ∧ represents v' xs ∧
         Capacity v' = max n (Capacity v)) ∨
  (∃ e, Reserve n v = (v, Throw e) ∧ Capacity v < n).
Proof.
  intros Hr Hc Hf. pose proof Hr as (Hs & Hle & Hb). unfold Reserve, Capacity in *.
  destruct (n <=? capacity_ (data_ v)) eqn:E.
  - apply Nat.leb_le in E. left. exists v. split_and!; [done..|lia].
  - apply Nat.leb_gt in E. rewrite RawMemory_size_t_fits by auto.
    destruct (alloc_fails n) eqn:Ha.
    { right. exists bad_alloc. unfold RawMemory_sized, Allocate. rewrite Ha.
      by destruct n; [lia|]. }
    rewrite RawMemory_sized_ok by done. cbn [buffer_ capacity_].
    unfold block_of. rewrite Hb, Hs.
    rewrite (replicate_add_split n (length xs)) by lia.
    destruct (relocate_n_cases xs [] (replicate (capacity_ (data_ v) - length xs) None)
                [] (replicate (length xs) None) (replicate (n - length xs) None)
                0 (length xs) 0) as [(zs & Hzs & Hrel)|(dst' & Hrel)];
      [by rewrite ?length_replicate..| |]; cbn [app] in Hrel; rewrite Hrel.
    + left.
      rewrite_at_nil (destroy_n_ok zs [] (replicate (capacity_ (data_ v) - length xs) None)
                        0 (length xs) eq_refl (eq_sym Hzs)).
      eexists. split; [done|]. split; [|cbn; lia].
      unfold represents. cbn. split_and!; [done|lia|done].
    + right. exists element_exception. split; [|done].
      apply (f_equal2 pair); [|done]. rewrite <- Hb. apply with_block_id.
Qed.

(** X2.  Resize(n) on a vector of copyable elements, for a number [n] of
    elements that is at most the size or whose size in bytes,
    [n * sizeof(T)], is a [size_t]: the call either returns, with the first
    [n] elements kept and value-initialised elements added up to [n], in a
    block that grew to exactly [n] slots only if it had fewer, or throws
    while growing and leaves all the elements of the vector in place;
    shrinking cannot fail. *)
Theorem Resize_spec (n : nat) (v : Vector) (xs : list T) :
  represents v xs → is_copy_constructible = true → (length xs < n → fits n = true) →
  (∃ v', Resize n v = (v', Normal tt) ∧
         represents v' (take n xs ++ replicate (n - length xs) value_init) ∧
         Capacity v' = max n (Capacity v)) ∨
  (∃ v' e, Resize n v = (v', Throw e) ∧ represents v' xs ∧ length xs < n).
Proof.
  intros Hr Hc Hf. pose proof Hr as (Hs & Hle & Hb). unfold Resize. rewrite Hs.
  destruct (length xs <? n) eqn:Hgrow; [|destruct (n <? length xs) eqn:Hshrink].
  - apply Nat.ltb_lt in Hgrow.
    destruct (Reserve_cases n v xs Hr Hc (λ _, Hf Hgrow))
      as [(v1 & -> & (Hs1 & Hle1 & Hb1) & Hc1)|(e & -> & _)];
      [|right; by exists v, e].
    unfold Capacity in Hc1. unfold block_of. rewrite Hs1.
    destruct value_init_throws eqn:Hv.
    + right. exists v1, element_exception.
      destruct (n - length xs) as [|k] eqn:Hk; [lia|]. cbn [uninitialized_value_construct_n].
      assert ((length xs <? length (buffer_ (data_ v1))) = true) as ->.
      { apply Nat.ltb_lt. rewrite Hb1, length_app, length_fmap, length_replicate. lia. }
      rewrite Hv. fold (block_of v1). rewrite with_block_id. by split_and!.
    + left. rewrite Hb1.
      rewrite (replicate_add_split (capacity_ (data_ v1) - length xs) (n - length xs)) by lia.
      rewrite (uninitialized_value_construct_n_ok (n - length xs) (Some <$> xs))
        by (by rewrite ?length_fmap, ?length_replicate).
      eexists. split; [done|]. rewrite take_ge by lia.
      unfold represents, Capacity. cbn. rewrite length_app, length_replicate.
      split_and!; [lia|lia| |lia].
      rewrite fmap_app, fmap_replicate, <- app_assoc. do 3 f_equal. lia.
  - apply Nat.ltb_lt in Hshrink. left. unfold block_of. rewrite Hb.
    replace (Some <$> xs) with ((Some <$> take n xs) ++ (Some <$> drop n xs))
      by (by rewrite <- fmap_app, take_drop).
    rewrite <- app_assoc.
    rewrite (destroy_n_ok (drop n xs) (Some <$> take n xs))
      by (rewrite ?length_fmap, ?length_take, ?length_drop; lia).
    eexists. split; [done|].
    replace (n - length xs) with 0 by lia. cbn [replicate]. rewrite app_nil_r.
    unfold represents, Capacity. cbn. rewrite length_take.
    split_and!; [lia|lia| |lia].
    rewrite <- replicate_add. do 2 f_equal. lia.
  - apply Nat.ltb_ge in Hgrow, Hshrink. assert (n = length xs) as -> by lia. left.
    eexists. split; [done|].
    rewrite firstn_all, Nat.sub_diag, app_nil_r. unfold Capacity. cbn.
    split; [by rewrite <- Hs, Vector_eta|lia].
Qed.

(** ** Emplace with a throwing constructor, and the overloads taking [T&&] *)

Lemma Emplace_ok (v : Vector) (xs : list T) (pos : nat) (y : T) :
  represents v xs → pos ≤ length xs → Forall no_throw xs → move_assign_throws y = false →
  (size_ v = Capacity v → alloc_fails (grown_capacity v) = false) →
  ∃ v', Emplace pos (Normal y) v = (v', Normal pos) ∧
        represents v' (take pos xs ++ y :: drop pos xs) ∧
        Capacity v' = (if size_ v =? Capacity v then max 1 (Capacity v * 2) else Capacity v).
Proof.
  intros Hr Hpos Hxs Hy Ha.
  pose proof (take_drop pos xs) as Hsplit.
  assert (length (take pos xs) = pos) as Hlen by (rewrite length_take; lia).
  destruct (Emplace_split v (take pos xs) (drop pos xs) y) as (v' & Hi & Hr' & Hc);
    [by rewrite Hsplit..|done|done|].
  rewrite Hlen in Hi. by exists v'.
Qed.

(** A constructor that throws leaves the vector as it was: it is called
    before any element is touched. *)
Lemma EmplaceBack_ctor_throws (v : Vector) (xs : list T) (e : exn) :
  represents v xs →
  EmplaceBack (Throw e) v
  = (v, Throw (if (size_ v =? Capacity v) && alloc_fails (grown_capacity v)
               then bad_alloc else e)).
Proof.
  intros (Hs & Hle & Hb). unfold EmplaceBack.
  destruct (size_ v =? Capacity v) eqn:Hfull; cbn [andb].
  - apply Nat.eqb_eq in Hfull. destruct (grown_capacity_full v Hfull) as [Hlt Hmax].
    destruct (alloc_fails (grown_capacity v)) eqn:Ha.
    + unfold RawMemory_sized, Allocate. rewrite Ha. by destruct (grown_capacity v); [lia|].
    + rewrite RawMemory_sized_ok by done. unfold RawMemory_index, construct_with.
      cbn [capacity_ buffer_]. apply Nat.ltb_lt in Hlt. rewrite Hlt. cbn [buffer_].
      by rewrite length_replicate, Hlt.
  - apply Nat.eqb_neq in Hfull. unfold Capacity in *. unfold RawMemory_index, construct_with.
    assert ((size_ v <? capacity_ (data_ v)) = true) as -> by (apply Nat.ltb_lt; lia).
    assert ((size_ v <? length (block_of v)) = true) as ->.
    { apply Nat.ltb_lt. unfold block_of.
      rewrite Hb, length_app, length_fmap, length_replicate. lia. }
    cbn. by rewrite with_block_id.
Qed.

Lemma Emplace_ctor_throws (v : Vector) (xs : list T) (pos : nat) (e : exn) :
  represents v xs → pos ≤ length xs →
  Emplace pos (Throw e) v
  = (v, Throw (if (size_ v =? Capacity v) && alloc_fails (grown_capacity v)
               then bad_alloc else e)).
Proof.
  intros Hr Hpos. pose proof Hr as (Hs & Hle & Hb). unfold Emplace.
  destruct (pos =? size_ v) eqn:Hp; [by apply (EmplaceBack_ctor_throws v xs)|].
  apply Nat.eqb_neq in Hp.
  assert ((size_ v <? pos) = false) as -> by (apply Nat.ltb_ge; lia).
  destruct (size_ v =? Capacity v) eqn:Hfull; cbn [andb]; [|done].
  apply Nat.eqb_eq in Hfull. destruct (grown_capacity_full v Hfull) as [Hlt Hmax].
  destruct (alloc_fails (grown_capacity v)) eqn:Ha.
  - unfold RawMemory_sized, Allocate. rewrite Ha. by destruct (grown_capacity v); [lia|].
  - rewrite RawMemory_sized_ok by done. unfold RawMemory_plus, construct_with.
    cbn [capacity_ buffer_]. rewrite length_replicate.
    assert ((pos <=? grown_capacity v) = true) as -> by (apply Nat.leb_le; lia).
    by assert ((pos <? grown_capacity v) = true) as -> by (apply Nat.ltb_lt; lia).
Qed.

Lemma represents_shape (v : Vector) (xs : list T) :
  represents v xs → size_ v ≤ Capacity v ∧ length (block_of v) = Capacity v.
Proof.
  intros (Hs & Hle & Hb). unfold Capacity, block_of.
  rewrite Hb, length_app, length_fmap, length_replicate. lia.
Qed.

(** X19.  PushBack(T&&) with nothing throwing: the value of the object the
    argument refers to is appended, and that object, outside the vector or
    one of its elements, is left in the moved-from state. *)
Theorem PushBack_rvalue_spec (value : rvalue) (v : Vector) (xs : list T) (x : T) :
  represents v xs → refers_to value xs x → move_ctor_throws x = false →
  Forall no_throw (after_move value xs x) →
  (size_ v = Capacity v → alloc_fails (grown_capacity v) = false) →
  ∃ v', PushBack_rvalue value v = ((v', argument_after_move value), Normal tt) ∧
        represents v' (after_move value xs x ++ [x]) ∧
        Capacity v' = (if size_ v =? Capacity v then max 1 (Capacity v * 2) else Capacity v).
Proof.
  intros Hr Hx Hm Hall Ha.
  destruct (move_construct_from_ok value v xs x Hr Hx Hm) as (b0 & Hmc & Hr0 & _).
  destruct (represents_shape v xs Hr) as [Hle Hlen].
  rewrite (PushBack_rvalue_sim _ _ _ _ _ Hmc Hle Hlen Ha).
  destruct (EmplaceBack_ok (with_block v b0) _ x Hr0 Hall) as (v' & -> & Hr' & Hc); [done|].
  by exists v'.
Qed.

(** X20.  Insert(pos, T&&) with nothing throwing: the value of the object
    the argument refers to is at [pos], before the elements that were at
    [pos] and after it, and that object, outside the vector or one of its
    elements, is left in the moved-from state; the iterator returned is
    [pos]. *)
Theorem Insert_rvalue_spec (pos : nat) (value : rvalue) (v : Vector) (xs : list T) (x : T) :
  represents v xs → pos ≤ length xs → refers_to value xs x →
  move_ctor_throws x = false → move_assign_throws x = false →
  Forall no_throw (after_move value xs x) →
  (size_ v = Capacity v → alloc_fails (grown_capacity v) = false) →
  ∃ v', Insert_rvalue pos value v = ((v', argument_after_move value), Normal pos) ∧
        represents v' (take pos (after_move value xs x) ++ x :: drop pos (after_move value xs x)) ∧
        Capacity v' = (if size_ v =? Capacity v then max 1 (Capacity v * 2) else Capacity v).
Proof.
  intros Hr Hpos Hx Hm Hm' Hall Ha.
  destruct (move_construct_from_ok value v xs x Hr Hx Hm) as (b0 & Hmc & Hr0 & _).
  destruct (represents_shape v xs Hr) as [Hle Hlen].
  assert (length (after_move value xs x) = length xs) as Hl.
  { destruct value; cbn; [done|by rewrite length_insert]. }
  assert (pos ≤ size_ v) as Hp by (destruct Hr as (Hs & _); lia).
  rewrite (Insert_rvalue_sim pos _ _ _ _ _ Hmc Hp Hle Hlen Ha).
  destruct (Emplace_ok (with_block v b0) _ pos x Hr0) as (v' & -> & Hr' & Hc);
    [lia|done..|].
  by exists v'.
Qed.

(** X21.  PushBack(T&&) on a full vector whose elements are relocated by
    copy, when the copy of an element throws: the exception leaves the call
    and the vector is as it was, but the argument has been moved from and
    is left in its moved-from state. *)
Theorem PushBack_rvalue_consumes_argument (v : Vector) (xs : list T) (x : T) :
  represents v xs → size_ v = Capacity v → alloc_fails (grown_capacity v) = false →
  is_copy_constructible = true → is_nothrow_move_constructible = false →
  move_throws x = false → Exists (λ z, copy_throws z = true) xs →
  PushBack_rvalue (Outside x) v = ((v, Outside (moved_from x)), Throw element_exception).
Proof.
  intros Hr Hfull Ha Hc Hn Hx Hbad. pose proof Hr as (Hs & Hle & Hb).
  destruct (grown_capacity_full v Hfull) as [Hlt Hmax].
  unfold PushBack_rvalue. rewrite (proj2 (Nat.eqb_eq _ _) Hfull).
  rewrite RawMemory_sized_ok by done. unfold RawMemory_index. cbn [capacity_ buffer_].
  apply Nat.ltb_lt in Hlt as Hlt'. rewrite length_replicate, !Hlt'.
  unfold move_construct_from, move_ctor_throws. rewrite Hn, Hx. cbn [negb andb].
  rewrite (replicate_split _ (size_ v)) by done.
  rewrite insert_middle by (by rewrite length_replicate).
  unfold relocate_n, relocates_by_move. rewrite Hn, Hc. cbn [negb orb].
  unfold block_of. rewrite Hb.
  destruct (uninitialized_copy_n_throws xs [] (replicate (capacity_ (data_ v) - length xs) None)
              [] (replicate (size_ v) None)
              (Some x :: replicate (grown_capacity v - size_ v - 1) None)
              0 (size_ v) 0) as [dst' Hu]; [by rewrite ?length_replicate..|].
  cbn [app] in Hu. rewrite Hu. cbn. do 2 f_equal. rewrite <- Hb. apply with_block_id.
Qed.

(** ** Growth by doubling *)

Lemma PushBack_step (x : T) (v v' : Vector) :
  PushBack x v = (v', Normal tt) →
  size_ v' = size_ v + 1 ∧
  Capacity v' = (if size_ v =? Capacity v then grown_capacity v else Capacity v).
Proof.
  unfold PushBack. destruct (size_ v =? Capacity v).
  - destruct (RawMemory_sized (grown_capacity v)) as [new_data| |] eqn:Hd; [|by inversion 1..].
    apply RawMemory_sized_capacity in Hd.
    intros H. repeat case_match; by simplify_eq.
  - intros H. repeat case_match; by simplify_eq.
Qed.

Lemma PushBack_doubling (x : T) (v v' : Vector) :
  PushBack x v = (v', Normal tt) →
  (size_ v = 0 ∧ Capacity v = 0) ∨
    (∃ k, Capacity v = 2 ^ k ∧ size_ v ≤ 2 ^ k ∧ 2 ^ k < 2 * size_ v) →
  ∃ k, Capacity v' = 2 ^ k ∧ size_ v' ≤ 2 ^ k ∧ 2 ^ k < 2 * size_ v'.
Proof.
  intros Hp HJ. apply PushBack_step in Hp as [-> ->]. unfold grown_capacity.
  destruct HJ as [[Hs Hc]|(k & Hc & Hle & Hlt)].
  - rewrite Hs, Hc. exists 0. cbn. lia.
  - pose proof (Nat.pow_nonzero 2 k ltac:(lia)) as Hk.
    destruct (size_ v =? Capacity v) eqn:Hfull.
    + apply Nat.eqb_eq in Hfull. assert ((size_ v =? 0) = false) as ->
        by (apply Nat.eqb_neq; lia).
      exists (S k). rewrite Nat.pow_succ_r'. lia.
    + apply Nat.eqb_neq in Hfull. exists k. lia.
Qed.

Lemma PushBack_all_doubling (ys : list T) : ∀ (v v' : Vector),
  PushBack_all ys v = (v', Normal tt) → ys ≠ [] →
  (size_ v = 0 ∧ Capacity v = 0) ∨
    (∃ k, Capacity v = 2 ^ k ∧ size_ v ≤ 2 ^ k ∧ 2 ^ k < 2 * size_ v) →
  size_ v' = size_ v + length ys ∧
  ∃ k, Capacity v' = 2 ^ k ∧ size_ v' ≤ 2 ^ k ∧ 2 ^ k < 2 * size_ v'.
Proof.
  induction ys as [|y ys IH]; intros v v' Hp Hne HJ; [done|].
  cbn [PushBack_all] in Hp.
  destruct (PushBack y v) as [v1 [[]| |]] eqn:H1; [|by simplify_eq..].
  pose proof (PushBack_doubling y v v1 H1 HJ) as HJ1.
  apply PushBack_step in H1 as [Hs1 _].
  destruct ys as [|y' ys].
  - cbn in Hp. simplify_eq. split; [cbn; lia|done].
  - destruct (IH v1 v' Hp ltac:(done) (or_intror HJ1)) as [Hs' HJ'].
    split; [cbn [length] in *; lia|done].
Qed.

(** ** PushBack below the capacity *)

Lemma PushBack_in_place (v : Vector) (xs : list T) (y : T) :
  represents v xs → length xs < Capacity v → copy_throws y = false →
  ∃ v', PushBack y v = (v', Normal tt) ∧ represents v' (xs ++ [y]) ∧
        Capacity v' = Capacity v.
Proof.
  intros (Hs & Hle & Hb) Hlt Hy. unfold PushBack, Capacity in *.
  assert ((size_ v =? capacity_ (data_ v)) = false) as -> by (apply Nat.eqb_neq; lia).
  unfold RawMemory_index.
  assert ((size_ v <? capacity_ (data_ v)) = true) as -> by (apply Nat.ltb_lt; lia).
  unfold construct_copy, block_of. rewrite Hb.
  rewrite (replicate_split _ 0) by lia. cbn [replicate app].
  rewrite ltb_middle by (by rewrite length_fmap). rewrite Hy.
  rewrite insert_middle by (by rewrite length_fmap).
  eexists. split; [done|]. split; [|done].
  unfold represents. cbn. rewrite length_app. cbn.
  split_and!; [lia|lia|].
  rewrite fmap_app, <- app_assoc. cbn. do 3 f_equal. lia.
Qed.

(** ** The handlers of Emplace and Insert do not rethrow *)

Lemma catch_all_no_throw {S} (r : S * outcome unit) (h : S → S * outcome unit) :
  (∀ s s' e, h s ≠ (s', Throw e)) → ∀ s' e, catch_all r h ≠ (s', Throw e).
Proof.
  intros Hh s' e. unfold catch_all. destruct r as [s [[]|e'|]]; [done|apply Hh|done].
Qed.

Lemma destroy_at_no_throw (b b' : block) (i : nat) (e : exn) : destroy_at b i ≠ (b', Throw e).
Proof. unfold destroy_at. by destruct (deref b i). Qed.

Lemma Emplace_realloc_no_throw (pos : nat) (y : T) (v v' : Vector) (e : exn) :
  pos < size_ v → size_ v = Capacity v → alloc_fails (grown_capacity v) = false →
  Emplace pos (Normal y) v ≠ (v', Throw e).
Proof.
  intros Hpos Hfull Ha. unfold Emplace.
  assert ((pos =? size_ v) = false) as -> by (apply Nat.eqb_neq; lia).
  assert ((size_ v <? pos) = false) as -> by (apply Nat.ltb_ge; lia).
  rewrite (proj2 (Nat.eqb_eq _ _) Hfull).
  rewrite RawMemory_sized_ok by done. unfold RawMemory_plus, construct_with.
  cbn [capacity_ buffer_]. rewrite length_replicate.
  destruct (pos <=? grown_capacity v); [|done].
  destruct (pos <? grown_capacity v); [|done].
  destruct (catch_all _ _) as [[old1 new1] [[]|e1|]] eqn:H1; [| |done].
  2:{ exfalso. revert H1. apply catch_all_no_throw. intros [old new] [old' new'] e2.
      destruct (destroy_at new pos) as [n o] eqn:Hd. intros ?. simplify_eq.
      by apply destroy_at_no_throw in Hd. }
  destruct (pos <=? capacity_ (data_ v)); [|done].
  destruct (catch_all (relocate_n old1 _ _ _ _) _) as [[old2 new2] [[]|e2|]] eqn:H2; [| |done].
  2:{ exfalso. revert H2. apply catch_all_no_throw. intros [old new] [old' new'] e3.
      destruct (destroy_n new 0 (pos + 1)) as [n o] eqn:Hd. intros ?. simplify_eq.
      by apply destroy_n_no_throw in Hd. }
  destruct (destroy_n old2 0 (size_ v)) as [old3 [[]|e3|]] eqn:H3; [done| |done].
  by apply destroy_n_no_throw in H3.
Qed.

(** ** Sequences of operations *)

Lemma run_returns (op : operation) (v : Vector) (xs : list T) :
  represents v xs → valid op xs →
  (∀ n, alloc_fails n = false) → value_init_throws = false →
  Forall no_throw (arguments op ++ xs) →
  returns op v.
Proof.
  intros Hr Hvalid Ha Hv Hall.
  destruct op as [x|pos x|pos| |n|n]; cbn [returns arguments valid app] in *.
  - inversion_clear Hall as [|? ? Hx Hxs].
    by destruct (PushBack_ok v xs x Hr Hxs Hx (λ _, Ha _)) as (v' & -> & ? & _).
  - inversion_clear Hall as [|? ? Hx Hxs].
    by destruct (Insert_ok v xs pos x Hr Hvalid Hxs Hx (λ _, Ha _)) as (v' & -> & ?).
  - by destruct (Erase_ok v xs pos Hr Hvalid Hall) as (v' & -> & ?).
  - destruct xs as [|x xs _] using rev_ind; [cbn in Hvalid; lia|].
    by destruct (PopBack_ok v xs x Hr) as (v' & -> & ? & _).
  - by destruct (Resize_ok n v xs Hr Hall Hvalid (Ha _) Hv) as (v' & -> & ?).
  - by destruct (Reserve_ok n v xs Hr Hall Hvalid (Ha _)) as (v' & -> & ? & _).
Qed.

(** X14.  A sequence of PushBack, Insert, Erase, PopBack, Resize and Reserve
    calls, each within its contract (a valid position, a vector that is not
    empty, a number of elements whose size in bytes is a [size_t]), on a
    vector of elements whose operations do not throw and with memory
    available: every call returns, the vector then holds what the same
    operations leave of the list of its elements, and the invariant holds
    at the end. *)
Theorem operations_compose (ops : list operation) : ∀ (v : Vector) (xs : list T),
  represents v xs → valid_all ops xs →
  (∀ n, alloc_fails n = false) → value_init_throws = false → (∀ x : T, no_throw x) →
  returns_all ops v ∧
  represents (run_all ops v) (effect_all ops xs) ∧ invariant (run_all ops v) = true.
Proof.
  induction ops as [|op ops IH]; intros v xs Hr Hvalid Ha Hv Hall;
    cbn [returns_all run_all effect_all valid_all] in *.
  - split; [done|]. split; [done|]. by apply (represents_invariant _ _ Hr).
  - destruct Hvalid as [Hop Hops].
    assert (Forall no_throw (arguments op ++ xs)) as Hf by (apply Forall_forall; auto).
    destruct (run_refines_effect op v xs Hr Hop Ha Hv Hf) as [Hr1 _].
    destruct (IH _ _ Hr1 Hops Ha Hv Hall) as (? & ? & ?).
    split_and!; [by apply (run_returns op v xs)|done..].
Qed.

(** ** Reserve, Resize, PopBack *)

(** X1.  Reserve(n) on a vector of copyable elements: with [n] at most the
    capacity it does nothing; with [n] above the capacity and
    [n * sizeof(T)] a [size_t], it either returns, with the same elements
    in a block of exactly [n] slots, or throws and leaves the vector as it
    was. *)
Theorem Reserve_spec (n : nat) (v : Vector) (xs : list T) :
  represents v xs → is_copy_constructible = true → (Capacity v < n → fits n = true) →
  (n ≤ Capacity v → Reserve n v = (v, Normal tt)) ∧
  ((∃ v', Reserve n v = (v', Normal tt) ∧ represents v' xs ∧
          Capacity v' = max n (Capacity v)) ∨
   (∃ e, Reserve n v = (v, Throw e) ∧ Capacity v < n)).
Proof.
  intros Hr Hc Hf. split; [|by apply Reserve_cases].
  intros Hn. unfold Reserve, Capacity in *.
  by assert ((n <=? capacity_ (data_ v)) = true) as -> by (by apply Nat.leb_le).
Qed.

(** X4.  PopBack on a vector that holds elements destroys the last one: it
    returns, the other elements and the capacity are as before, whatever
    the element type.  On an empty vector the behaviour is undefined. *)
Theorem PopBack_spec (v : Vector) (xs : list T) :
  represents v xs →
  (xs = [] → PopBack v = (v, Undefined)) ∧
  (xs ≠ [] → ∃ v', PopBack v = (v', Normal tt) ∧
                   represents v' (take (length xs - 1) xs) ∧ Capacity v' = Capacity v).
Proof.
  intros Hr. split.
  - intros ->. destruct Hr as (Hs & _). unfold PopBack. by rewrite Hs.
  - intros Hne. destruct xs as [|x xs _] using rev_ind; [done|].
    destruct (PopBack_ok v xs x Hr) as (v' & -> & ? & ?). exists v'.
    rewrite length_snoc. cbn. rewrite Nat.sub_0_r. by rewrite take_app_length.
Qed.

(** ** Round trips *)

(** X5.  PushBack followed by PopBack gives back the elements the vector
    held; the capacity is the one PushBack left. *)
Theorem PushBack_PopBack_round_trip (v : Vector) (xs : list T) (y : T) :
  represents v xs → Forall no_throw xs → no_throw y →
  (size_ v = Capacity v → alloc_fails (grown_capacity v) = false) →
  ∃ v1 v2, PushBack y v = (v1, Normal tt) ∧ PopBack v1 = (v2, Normal tt) ∧
           represents v2 xs ∧ Capacity v2 = Capacity v1 ∧ Capacity v ≤ Capacity v2.
Proof.
  intros Hr Hxs Hy Ha.
  destruct (PushBack_ok v xs y Hr Hxs Hy Ha) as (v1 & H1 & Hr1 & Hc1).
  destruct (PopBack_ok v1 xs y Hr1) as (v2 & H2 & Hr2 & Hc2).
  exists v1, v2. split_and!; [done..|].
  rewrite Hc2, Hc1. destruct (size_ v =? Capacity v); lia.
Qed.

(** X6.  Insert at a position followed by Erase at the iterator it returned
    gives back the elements the vector held. *)
Theorem Insert_Erase_round_trip (v : Vector) (xs : list T) (pos : nat) (value : T) :
  represents v xs → pos ≤ length xs → Forall no_throw xs → no_throw value →
  (size_ v = Capacity v → alloc_fails (grown_capacity v) = false) →
  ∃ v1 v2 it, Insert pos value v = (v1, Normal it) ∧ Erase it v1 = (v2, Normal pos) ∧
              represents v2 xs.
Proof.
  intros Hr Hpos Hxs Hy Ha.
  destruct (Insert_ok v xs pos value Hr Hpos Hxs Hy Ha) as (v1 & H1 & Hr1).
  assert (length (take pos xs) = pos) as Hlen by (rewrite length_take; lia).
  destruct (Erase_ok v1 _ pos Hr1) as (v2 & H2 & Hr2).
  { rewrite length_app. cbn. lia. }
  { apply Forall_app. split; [by apply Forall_take|]. constructor; [done|by apply Forall_drop]. }
  exists v1, v2, pos. split_and!; [done..|].
  rewrite take_app_length' in Hr2 by done.
  rewrite drop_app_ge, Hlen in Hr2 by lia.
  replace (S pos - pos) with 1 in Hr2 by lia. cbn [drop] in Hr2.
  by rewrite drop_0, take_drop in Hr2.
Qed.

(** ** Element access *)

Lemma at_index_eq (v : Vector) (xs : list T) (i : nat) :
  represents v xs →
  at_index v i = match xs !! i with Some x => Normal x | None => Undefined end.
Proof.
  intros Hr. destruct (xs !! i) as [x|] eqn:Hi.
  - by apply (represents_at_index v xs).
  - apply lookup_ge_None in Hi. destruct Hr as (Hs & _). unfold at_index.
    by assert ((i <? size_ v) = false) as -> by (apply Nat.ltb_ge; lia).
Qed.

(** X7.  operator[] on a vector that holds [xs]: an index below the size
    gives the element at that index, any other index is outside the
    contract. *)
Theorem at_index_spec (v : Vector) (xs : list T) :
  represents v xs →
  (∀ i x, xs !! i = Some x → at_index v i = Normal x) ∧
  (∀ i, Size v ≤ i → at_index v i = Undefined).
Proof.
  intros Hr. split.
  - intros i x Hi. by rewrite (at_index_eq v xs i Hr), Hi.
  - intros i Hi. destruct Hr as (Hs & _). unfold at_index, Size in *.
    by assert ((i <? size_ v) = false) as -> by (apply Nat.ltb_ge; lia).
Qed.

(** ** Constructors and destructor *)

(** X8.  Vector(n) for a number [n] of elements whose size in bytes,
    [n * sizeof(T)], is a [size_t]: the result is a vector of [n]
    value-initialised elements in a block of exactly [n] slots, unless the
    allocation throws [bad_alloc] or [T()] throws; with [n = 0] there is no
    allocation and no construction, so nothing can fail. *)
Theorem Vector_sized_spec (n : nat) :
  fits n = true →
  match Vector_sized n with
  | Normal v =>
    represents v (replicate n value_init) ∧ Capacity v = n ∧
    (n = 0 ∨ (alloc_fails n = false ∧ value_init_throws = false))
  | Throw bad_alloc => 0 < n ∧ alloc_fails n = true
  | Throw element_exception => 0 < n ∧ alloc_fails n = false ∧ value_init_throws = true
  | Undefined => False
  end.
Proof.
  intros Hf. destruct n as [|n].
  - cbn. split_and!; [done..|by left].
  - destruct (alloc_fails (S n)) eqn:Ha.
    + unfold Vector_sized. rewrite RawMemory_size_t_fits by done.
      unfold RawMemory_sized, Allocate. rewrite Ha. cbn. split; [lia|done].
    + destruct value_init_throws eqn:Hv.
      * unfold Vector_sized. rewrite RawMemory_size_t_ok by done. cbn. rewrite Hv. cbn.
        split_and!; [lia|done..].
      * destruct (Vector_sized_ok (S n) Hf Ha Hv) as (v & -> & Hr & Hc).
        split_and!; [done..|by right].
Qed.



(** X23.  ~Vector() on a vector that holds [xs]: each of its elements is
    destroyed, once, and no slot of the block holds an object when the
    block is released. *)
Theorem Vector_dtor_spec (v : Vector) (xs : list T) :
  represents v xs →
  destroy_n (block_of v) 0 (size_ v) = (replicate (Capacity v) None, Normal tt) ∧
  Vector_dtor v = Normal tt.
Proof.
  intros (Hs & Hle & Hb).
  assert (destroy_n (block_of v) 0 (size_ v) = (replicate (Capacity v) None, Normal tt)) as Hd.
  { unfold block_of, Capacity. rewrite Hb, Hs.
    rewrite_at_nil (destroy_n_ok xs [] (replicate (capacity_ (data_ v) - length xs) None)
                      0 (length xs) eq_refl eq_refl).
    rewrite <- replicate_add. do 2 f_equal. lia. }
  split; [done|]. unfold Vector_dtor. by rewrite Hd.
Qed.

(** ** Swap *)

(** X11.  Swap exchanges the two vectors, block, capacity and size, and
    touches no other; a vector swapped with itself is unchanged, the order
    of the two does not matter, and swapping twice restores both. *)
Theorem Swap_exchanges (this other : nat) (σ : store) :
  Swap this other σ this = σ other ∧ Swap this other σ other = σ this ∧
  (∀ l, l ≠ this → l ≠ other → Swap this other σ l = σ l) ∧
  (∀ l, Swap this this σ l = σ l) ∧
  (∀ l, Swap other this σ l = Swap this other σ l) ∧
  (∀ l, Swap this other (Swap this other σ) l = σ l).
Proof.
  destruct (Swap_spec this other σ) as (H1 & H2 & H3).
  split_and!; [done..| | |].
  - intros l. destruct (Swap_spec this this σ) as (H1' & _ & H3').
    destruct (decide (l = this)) as [->|]; [done|by apply H3'].
  - intros l. destruct (Swap_spec other this σ) as (H1' & H2' & H3').
    destruct (decide (l = this)) as [->|]; [by rewrite H1, H2'|].
    destruct (decide (l = other)) as [->|]; [by rewrite H2, H1'|].
    by rewrite H3, H3'.
  - intros l. destruct (Swap_spec this other (Swap this other σ)) as (H1' & H2' & H3').
    destruct (decide (l = this)) as [->|]; [by rewrite H1', H2|].
    destruct (decide (l = other)) as [->|]; [by rewrite H2', H1|].
    by rewrite H3', H3.
Qed.

(** ** Capacity *)

(** X12.  After any number N >= 1 of PushBack calls that returned, starting
    from [Vector()], the size is N and the capacity is the power of two
    with N <= capacity < 2 N, whatever the element type. *)
Theorem PushBack_capacity_power_of_two (ys : list T) (v' : Vector) :
  PushBack_all ys Vector_default = (v', Normal tt) → ys ≠ [] →
  Size v' = length ys ∧
  ∃ k, Capacity v' = 2 ^ k ∧ length ys ≤ 2 ^ k ∧ 2 ^ k < 2 * length ys.
Proof.
  intros Hp Hne.
  destruct (PushBack_all_doubling ys Vector_default v' Hp Hne) as (Hs & k & Hc & Hle & Hlt).
  { by left. }
  cbn in Hs. unfold Size. rewrite Hs in *. split; [done|by exists k].
Qed.

(** X13.  PushBack calls that fit in the capacity, as after Reserve: they
    return when the copies of the new values do not throw, the block is not
    reallocated and the capacity stays, with no call of the allocator and no
    operation on the elements already held. *)
Theorem PushBack_within_capacity (ys : list T) : ∀ (v : Vector) (xs : list T),
  represents v xs → length xs + length ys ≤ Capacity v →
  Forall (λ y, copy_throws y = false) ys →
  ∃ v', PushBack_all ys v = (v', Normal tt) ∧ represents v' (xs ++ ys) ∧
        Capacity v' = Capacity v.
Proof.
  induction ys as [|y ys IH]; intros v xs Hr Hle Hys; cbn [PushBack_all length] in *.
  - exists v. by rewrite app_nil_r.
  - inversion_clear Hys as [|? ? Hy Hys'].
    destruct (PushBack_in_place v xs y Hr ltac:(lia) Hy) as (v1 & -> & Hr1 & Hc1).
    destruct (IH v1 (xs ++ [y]) Hr1) as (v' & -> & Hr' & Hc'); [rewrite length_snoc; lia|done|].
    exists v'. rewrite <- app_assoc in Hr'. split_and!; [done..|lia].
Qed.

(** ** EmplaceBack and Emplace *)

(** X15.  EmplaceBack with a constructor call that builds [y], nothing else
    throwing: the element is appended, the reference returned is to the new
    last element, and the capacity doubles exactly when the vector was
    full. *)
Theorem EmplaceBack_spec (v : Vector) (xs : list T) (y : T) :
  represents v xs → Forall no_throw xs →
  (size_ v = Capacity v → alloc_fails (grown_capacity v) = false) →
  ∃ v' ref, EmplaceBack (Normal y) v = (v', Normal ref) ∧
            represents v' (xs ++ [y]) ∧ Size v' = Size v + 1 ∧
            ref = Size v' - 1 ∧ at_index v' ref = Normal y ∧
            Capacity v' = (if size_ v =? Capacity v then max 1 (Capacity v * 2)
                           else Capacity v).
Proof.
  intros Hr Hxs Ha. pose proof Hr as (Hs & _).
  destruct (EmplaceBack_ok v xs y Hr Hxs Ha) as (v' & He & Hr' & Hc).
  exists v', (length xs). pose proof Hr' as (Hs' & _). rewrite length_snoc in Hs'.
  unfold Size. split_and!; [done|done|lia|lia| |done].
  apply (represents_at_index v' (xs ++ [y])); [done|].
  by rewrite lookup_app_r, Nat.sub_diag.
Qed.

(** X16.  Emplace at a position of [begin(), end()] with a constructor
    call that builds [y], nothing else throwing: [y] is at that position,
    the elements before it are as they were and the others are one index
    up; the iterator returned is the position. *)
Theorem Emplace_spec (v : Vector) (xs : list T) (pos : nat) (y : T) :
  represents v xs → pos ≤ length xs → Forall no_throw xs → move_assign_throws y = false →
  (size_ v = Capacity v → alloc_fails (grown_capacity v) = false) →
  ∃ v', Emplace pos (Normal y) v = (v', Normal pos) ∧
        represents v' (take pos xs ++ y :: drop pos xs) ∧ Size v' = Size v + 1 ∧
        at_index v' pos = Normal y ∧
        (∀ i, i < pos → at_index v' i = at_index v i) ∧
        (∀ i, pos ≤ i → i < Size v → at_index v' (S i) = at_index v i) ∧
        Capacity v' = (if size_ v =? Capacity v then max 1 (Capacity v * 2)
                       else Capacity v).
Proof.
  intros Hr Hpos Hxs Hy Ha. pose proof Hr as (Hs & _).
  destruct (Emplace_ok v xs pos y Hr Hpos Hxs Hy Ha) as (v' & He & Hr' & Hc).
  exists v'. pose proof Hr' as (Hs' & _).
  assert (length (take pos xs) = pos) as Hlen by (rewrite length_take; lia).
  rewrite length_app, Hlen in Hs'. cbn [length] in Hs'. rewrite length_drop in Hs'.
  unfold Size. split_and!; [done|done|lia| | | |done].
  - apply (represents_at_index v' _ _ _ Hr'). by rewrite list_lookup_middle.
  - intros i Hi. rewrite (at_index_eq v' _ i Hr'), (at_index_eq v xs i Hr).
    rewrite lookup_app_l by lia. by rewrite lookup_take_lt.
  - intros i Hi Hi'. rewrite (at_index_eq v' _ (S i) Hr'), (at_index_eq v xs i Hr).
    rewrite lookup_app_r by lia. rewrite Hlen.
    replace (S i - pos) with (S (i - pos)) by lia.
    change ((y :: drop pos xs) !! S (i - pos)) with (drop pos xs !! (i - pos)).
    rewrite lookup_drop. by replace (pos + (i - pos)) with i by lia.
Qed.

(** X17.  EmplaceBack and Emplace whose constructor call throws: the
    exception leaves the call and the vector is as it was; when the vector
    was full and the allocation of the new block fails, [bad_alloc] is
    thrown before the constructor is called. *)
Theorem emplace_constructor_throws (v : Vector) (xs : list T) (pos : nat) (e : exn) :
  represents v xs → pos ≤ length xs →
  EmplaceBack (Throw e) v
  = (v, Throw (if (size_ v =? Capacity v) && alloc_fails (grown_capacity v)
               then bad_alloc else e)) ∧
  Emplace pos (Throw e) v
  = (v, Throw (if (size_ v =? Capacity v) && alloc_fails (grown_capacity v)
               then bad_alloc else e)).
Proof.
  intros Hr Hpos. split.
  - by apply (EmplaceBack_ctor_throws v xs).
  - by apply (Emplace_ctor_throws v xs).
Qed.

(** X18.  Insert(pos, value) is Emplace(pos, value) with the copy
    constructor as the constructor call, on every vector and in every
    outcome, and PushBack(value) is EmplaceBack(value) without the
    reference returned. *)
Theorem Insert_is_Emplace_of_copy (pos : nat) (x : T) (v : Vector) :
  Insert pos x v = Emplace pos (copied x) v ∧
  fst (PushBack x v) = fst (EmplaceBack (copied x) v) ∧
  snd (PushBack x v)
  = match snd (EmplaceBack (copied x) v) with Normal _ => Normal tt | o => fail_as o end.
Proof.
  split; [apply Insert_Emplace|]. rewrite PushBack_EmplaceBack. split; [done|].
  by destruct (PushBack x v) as [v' [[]| |]].
Qed.

(** X22.  Emplace and Insert before end() on a full vector, once the new
    block is allocated and the new element is built: no exception leaves
    the call, whatever the relocation of the elements does. *)
Theorem relocation_failure_not_reported (pos : nat) (x : T) (v : Vector) :
  pos < size_ v → size_ v = Capacity v → alloc_fails (grown_capacity v) = false →
  (∀ v' e, Emplace pos (Normal x) v ≠ (v', Throw e)) ∧
  (copy_throws x = false → ∀ v' e, Insert pos x v ≠ (v', Throw e)).
Proof.
  intros Hpos Hfull Ha. split.
  - intros v' e. by apply Emplace_realloc_no_throw.
  - intros Hx v' e. rewrite Insert_Emplace. unfold copied. rewrite Hx.
    by apply Emplace_realloc_no_throw.
Qed.

(** ** Numbers of elements whose size in bytes is not a [size_t] *)

Lemma uninitialized_value_construct_n_overrun : ∀ (n : nat) (b : block) (first : nat),
  value_init_throws = false → first ≤ length b → length b < first + n →
  ∃ b', uninitialized_value_construct_n b first n = (b', Undefined).
Proof.
  induction n as [|n IH]; intros b first Hv Hle Hlt; [lia|].
  cbn [uninitialized_value_construct_n].
  destruct (first <? length b) eqn:E; [|by eexists].
  apply Nat.ltb_lt in E. rewrite Hv.
  destruct (IH (<[first := Some value_init]> b) (S first) Hv) as [b' ->];
    [rewrite length_insert; lia..|].
  by eexists.
Qed.

(** X25.  A number [n] of elements given to Vector(n) or Reserve(n) whose
    size in bytes, [n * sizeof(T)], is not a [size_t]: Allocate multiplies
    without a check, the product wraps, and [operator new], when it
    succeeds, returns a block with room for fewer than [n] elements.
    Vector(n) then constructs elements past the end of the block.
    Reserve(n) on a vector whose elements fit in the block returns; the
    vector keeps its elements, and is left with [capacity_ = n] over a
    block that has fewer slots, outside the invariant. *)
Theorem count_overflow (n : nat) (v : Vector) (xs : list T) :
  represents v xs → Forall no_throw xs →
  fits n = false → alloc_fails n = false → value_init_throws = false →
  allocation_slots n < n ∧
  Vector_sized n = Undefined ∧
  (Capacity v < n → length xs ≤ allocation_slots n →
   ∃ v', Reserve n v = (v', Normal tt) ∧ Capacity v' = n ∧ Size v' = length xs ∧
         block_of v' = (Some <$> xs) ++ replicate (allocation_slots n - length xs) None ∧
         invariant v' = false).
Proof.
  intros Hr Hxs Hf Ha Hv. pose proof (allocation_slots_wraps n Hf) as Hlt.
  assert (n ≠ 0) as Hn by lia.
  assert (RawMemory_size_t n
          = Normal {| buffer_ := replicate (allocation_slots n) None; capacity_ := n |}) as Hm.
  { unfold RawMemory_size_t, Allocate_size_t. rewrite Ha.
    by assert ((n =? 0) = false) as -> by (by apply Nat.eqb_neq). }
  split; [done|]. split.
  - unfold Vector_sized. rewrite Hm. cbn [buffer_].
    destruct (uninitialized_value_construct_n_overrun n (replicate (allocation_slots n) None) 0 Hv)
      as [b' ->]; [lia|rewrite length_replicate; lia|done].
  - intros Hc Hle. pose proof Hr as (Hs & Hle' & Hb). unfold Reserve, Capacity in *.
    assert ((n <=? capacity_ (data_ v)) = false) as -> by (apply Nat.leb_gt; lia).
    rewrite Hm. cbn [buffer_ capacity_]. unfold block_of. rewrite Hb, Hs.
    rewrite (replicate_add_split (allocation_slots n) (length xs)) by lia.
    destruct (relocate_n_ok xs [] (replicate (capacity_ (data_ v) - length xs) None)
                [] (replicate (length xs) None)
                (replicate (allocation_slots n - length xs) None)
                0 (length xs) 0) as (zs & Hzs & Hrel);
      [by rewrite ?length_replicate..|].
    cbn [app] in Hrel. rewrite Hrel.
    rewrite_at_nil (destroy_n_ok zs [] (replicate (capacity_ (data_ v) - length xs) None)
                      0 (length xs) eq_refl (eq_sym Hzs)).
    eexists. split; [done|]. cbn. split_and!; [done..|].
    unfold invariant, block_of, Capacity. cbn.
    rewrite length_app, length_fmap, length_replicate.
    assert ((length xs + (allocation_slots n - length xs) =? n) = false) as ->
      by (apply Nat.eqb_neq; lia).
    done.
Qed.

End VectorModel.

(** * Examples on vectors of numbers

    Every vector below is built through the interface, from [Vector()] or
    [Vector(n)]. *)

(** The trace of the specification: three PushBack calls from the empty
    vector, [Insert(begin() + 1, 99)] with room available, [Resize(5)] and
    [Erase(begin() + 2)]. *)
Example specification_trace :
  ∃ v3 v4 v5 v6 : Vector,
    PushBack_all (ET := plain_nat) [1; 2; 3] Vector_default = (v3, Normal tt) ∧
    contents v3 = [Some 1; Some 2; Some 3] ∧ Size v3 = 3 ∧ Capacity v3 = 4 ∧
    Insert (ET := plain_nat) 1 99 v3 = (v4, Normal 1) ∧
    contents v4 = [Some 1; Some 99; Some 2; Some 3] ∧ Size v4 = 4 ∧
    Resize (ET := plain_nat) 5 v4 = (v5, Normal tt) ∧
    contents v5 = [Some 1; Some 99; Some 2; Some 3; Some 0] ∧ Size v5 = 5 ∧
    Erase (ET := plain_nat) 2 v5 = (v6, Normal 2) ∧
    contents v6 = [Some 1; Some 99; Some 3; Some 0] ∧ Size v6 = 4.
Proof.
  eexists _, _, _, _.
  split; [vm_compute; reflexivity|]. do 3 (split; [reflexivity|]).
  split; [vm_compute; reflexivity|]. do 2 (split; [reflexivity|]).
  split; [vm_compute; reflexivity|]. do 2 (split; [reflexivity|]).
  split; [vm_compute; reflexivity|]. split; reflexivity.
Qed.

(** C1.  [t = std::move(s)] with [t] empty and [s] holding 1, 2, 3: the
    operator returns, [t] owns the block of [s] but its size is still 0, so
    it shows no element, and [s] is empty. *)
Lemma move_assign_keeps_size :
  ∃ s : Vector,
    PushBack_all (ET := plain_nat) [1; 2; 3] Vector_default = (s, Normal tt) ∧
    represents s [1; 2; 3] ∧
    let σ := <[0 := Vector_default]> (λ _ : nat, s) in
    snd (move_assign 0 1 σ) = Normal tt ∧
    block_of (fst (move_assign 0 1 σ) 0) = block_of s ∧
    Size (fst (move_assign 0 1 σ) 0) = 0 ∧
    contents (fst (move_assign 0 1 σ) 0) = [] ∧
    Size (fst (move_assign 0 1 σ) 1) = 0.
Proof.
  eexists. split; [vm_compute; reflexivity|].
  vm_compute. repeat split; lia.
Qed.

(** C2.  [T] is relocated by copy and its copy constructor throws on a
    value-initialised object; [v] is [Vector<T>(2)], which is full.
    [Insert(begin(), 7)] reallocates, the copy of the first element throws,
    and the call returns an iterator all the same: the size is 3, no slot
    of the new block holds an object and the two elements are gone.
    PushBack on the same vector lets the exception out and leaves the
    vector as it was. *)
Lemma Insert_swallows_relocation_failure :
  ∃ v : Vector,
    Vector_sized (ET := fragile_nat 0) 2 = Normal v ∧ represents v [0; 0] ∧
    Insert (ET := fragile_nat 0) 0 7 v
    = ({| data_ := {| buffer_ := [None; None; None; None]; capacity_ := 4 |}; size_ := 3 |},
       Normal 0) ∧
    PushBack (ET := fragile_nat 0) 7 v = (v, Throw element_exception).
Proof.
  eexists. split; [vm_compute; reflexivity|]. vm_compute. repeat split; lia.
Qed.

(** C3.  Move construction from [s] holding 1, 2, 3 in a block of 4 slots:
    the new vector has the block and the size of [s], and [s] is left with
    size 0 and a new block of 3 slots, its former size; when the allocator
    has no memory the constructor throws [bad_alloc] and [s] keeps its
    elements. *)
Lemma move_construction_allocates :
  ∃ s : Vector,
    PushBack_all (ET := plain_nat) [1; 2; 3] Vector_default = (s, Normal tt) ∧
    represents s [1; 2; 3] ∧ Capacity s = 4 ∧
    Vector_move (ET := plain_nat) s
    = ({| data_ := {| buffer_ := [None; None; None]; capacity_ := 3 |}; size_ := 0 |},
       Normal s) ∧
    Vector_move (ET := starved_nat) s = (s, Throw bad_alloc).
Proof.
  eexists. split; [vm_compute; reflexivity|]. vm_compute. repeat split; lia.
Qed.

(** C4.  Two calls that return and leave a vector outside the invariant.
    [t = std::move(s)] with [t] holding 1, 2, 3 and [s] empty: [t] keeps
    size 3 over the block of [s], which has no slot.  The Insert of the
    example above: size 3 over a block in which no slot holds an object. *)
Lemma invariant_broken :
  ∃ t v : Vector,
    PushBack_all (ET := plain_nat) [1; 2; 3] Vector_default = (t, Normal tt) ∧
    Vector_sized (ET := fragile_nat 0) 2 = Normal v ∧
    invariant t = true ∧ invariant (@Vector_default nat) = true ∧ invariant v = true ∧
    (let σ := <[0 := t]> (λ _ : nat, Vector_default) in
     snd (move_assign 0 1 σ) = Normal tt ∧
     Size (fst (move_assign 0 1 σ) 0) = 3 ∧ Capacity (fst (move_assign 0 1 σ) 0) = 0 ∧
     invariant (fst (move_assign 0 1 σ) 0) = false) ∧
    snd (Insert (ET := fragile_nat 0) 0 7 v) = Normal 0 ∧
    contents (fst (Insert (ET := fragile_nat 0) 0 7 v)) = [None; None; None] ∧
    invariant (fst (Insert (ET := fragile_nat 0) 0 7 v)) = false.
Proof.
  eexists _, _. split; [vm_compute; reflexivity|]. split; [vm_compute; reflexivity|].
  vm_compute. repeat split.
Qed.

(** C7.  [T] is relocated by copy and its copy constructor throws on the
    value 2; [v] holds 1, 2 in a block of 2 slots.  [Insert(begin(), 7)] is
    a call on a valid vector at a valid position with a value that can be
    copied.  The copy of the element 2 into the new block throws, the
    handler destroys what the new block holds and does not rethrow, and the
    call returns [begin()]: the size is 3, but 7 is not at position 0, no
    slot holds an object and the elements 1, 2 are gone. *)
Lemma Insert_returns_without_elements :
  ∃ v v' : Vector,
    fst (EmplaceBack (ET := unmarked_nat 2) (Normal 2)
           (fst (EmplaceBack (ET := unmarked_nat 2) (Normal 1) Vector_default))) = v ∧
    represents v [1; 2] ∧ invariant v = true ∧ 0 ≤ Size v ∧
    copy_throws (ElementType := unmarked_nat 2) 7 = false ∧
    Insert (ET := unmarked_nat 2) 0 7 v = (v', Normal 0) ∧
    Size v' = Size v + 1 ∧
    at_index v' 0 = Undefined ∧
    contents v' = [None; None; None] ∧
    ¬ represents v' (take 0 [1; 2] ++ 7 :: drop 0 [1; 2]).
Proof.
  eexists _, _. split; [vm_compute; reflexivity|].
  split; [vm_compute; repeat split; lia|]. split; [reflexivity|].
  split; [vm_compute; lia|]. split; [reflexivity|].
  split; [vm_compute; reflexivity|]. do 3 (split; [reflexivity|]).
  intros (_ & _ & Hb). vm_compute in Hb. discriminate.
Qed.

(** C5 fails as stated.  [t] is empty with capacity 4 after [Reserve(4)]
    and [s] is a new vector: after [t = std::move(s)] the capacity of [t]
    is 0.  And with no call of Reserve by the user, the capacity of an empty
    vector goes from 0 to 3, which is not the doubling step [max 1 (0 * 2)],
    under [Resize(3)] and under the copy assignment of a vector that holds
    1, 2, 3. *)
Lemma move_assign_lowers_capacity :
  ∃ t s : Vector,
    Reserve (ET := plain_nat) 4 Vector_default = (t, Normal tt) ∧
    PushBack_all (ET := plain_nat) [1; 2; 3] Vector_default = (s, Normal tt) ∧
    (let σ := <[0 := t]> (λ _ : nat, Vector_default) in
     snd (move_assign 0 1 σ) = Normal tt ∧
     ¬ Capacity (σ 0) ≤ Capacity (fst (move_assign 0 1 σ) 0)) ∧
    (snd (Resize (ET := plain_nat) 3 Vector_default) = Normal tt ∧
     Capacity (fst (Resize (ET := plain_nat) 3 Vector_default)) = 3 ∧
     3 ≠ max 1 (Capacity (@Vector_default nat) * 2)) ∧
    (let σ := <[0 := Vector_default]> (λ _ : nat, s) in
     snd (copy_assign (ET := plain_nat) 0 1 σ) = Normal tt ∧
     Capacity (fst (copy_assign (ET := plain_nat) 0 1 σ) 0) = 3 ∧
     3 ≠ max 1 (Capacity (σ 0) * 2)).
Proof.
  eexists _, _. split; [vm_compute; reflexivity|]. split; [vm_compute; reflexivity|].
  vm_compute. repeat split; lia.
Qed.

(** C6 at [1] followed by the calls PushBack(2), PushBack(3) *)
Lemma PushBack_sequence_witness :
  let v : Vector := {| data_ := {| buffer_ := [Some 1]; capacity_ := 1 |}; size_ := 1 |} in
  represents v [1] ∧
  Forall (no_throw (ET := plain_nat)) ([1] ++ [2; 3]) ∧
  (∀ n, alloc_fails (ElementType := plain_nat) n = false) ∧
  ∃ v', PushBack_all (ET := plain_nat) [2; 3] v = (v', Normal tt) ∧
        Size v' = Size v + length [2; 3] ∧ represents v' ([1] ++ [2; 3]).
Proof.
  intros v.
  assert (represents v [1]) as H1 by (vm_compute; repeat split; lia).
  assert (Forall (no_throw (ET := plain_nat)) ([1] ++ [2; 3])) as H2
    by (repeat constructor).
  assert (∀ n, alloc_fails (ElementType := plain_nat) n = false) as H3 by reflexivity.
  split; [exact H1|]. split; [exact H2|]. split; [exact H3|].
  exact (proj1 (PushBack_sequence (ET := plain_nat) v [1] [2; 3] H1 H2 H3)).
Defined.

(** X24 at [1; 2; 3] in a block of 4 slots, Insert(begin() + 1, 99) *)
Lemma Insert_spec_witness :
  let v : Vector :=
    {| data_ := {| buffer_ := [Some 1; Some 2; Some 3; None]; capacity_ := 4 |}; size_ := 3 |} in
  represents v [1; 2; 3] ∧ 1 ≤ length [1; 2; 3] ∧
  Forall (no_throw (ET := plain_nat)) [1; 2; 3] ∧ no_throw (ET := plain_nat) 99 ∧
  (Size v = Capacity v →
   alloc_fails (ElementType := plain_nat) (grown_capacity v) = false) ∧
  ∃ v', Insert (ET := plain_nat) 1 99 v = (v', Normal 1) ∧
        represents v' (take 1 [1; 2; 3] ++ 99 :: drop 1 [1; 2; 3]) ∧
        Size v' = Size v + 1 ∧
        at_index v' 1 = Normal 99 ∧
        (1 = Size v → PushBack (ET := plain_nat) 99 v = (v', Normal tt)).
Proof.
  intros v.
  assert (represents v [1; 2; 3]) as H1 by (vm_compute; repeat split; lia).
  assert (1 ≤ length [1; 2; 3]) as H2 by (simpl; lia).
  assert (Forall (no_throw (ET := plain_nat)) [1; 2; 3]) as H3 by (repeat constructor).
  assert (no_throw (ET := plain_nat) 99) as H4 by (repeat constructor).
  assert (Size v = Capacity v →
          alloc_fails (ElementType := plain_nat) (grown_capacity v) = false) as H5
    by reflexivity.
  split; [exact H1|]. split; [exact H2|]. split; [exact H3|]. split; [exact H4|].
  split; [exact H5|].
  exact (Insert_spec (ET := plain_nat) v [1; 2; 3] 1 99 H1 H2 H3 H4 H5).
Defined.

(** C8 at [1; 99; 3; 0] in a block of 5 slots, Erase(begin() + 2) *)
Lemma Erase_spec_witness :
  let v : Vector :=
    {| data_ := {| buffer_ := [Some 1; Some 99; Some 3; Some 0; None]; capacity_ := 5 |};
       size_ := 4 |} in
  represents v [1; 99; 3; 0] ∧ 2 < length [1; 99; 3; 0] ∧
  Forall (no_throw (ET := plain_nat)) [1; 99; 3; 0] ∧
  ∃ v', Erase (ET := plain_nat) 2 v = (v', Normal 2) ∧
        represents v' (take 2 [1; 99; 3; 0] ++ drop 3 [1; 99; 3; 0]) ∧
        Size v' = Size v - 1 ∧
        (∀ i, i < 2 → at_index v' i = at_index v i) ∧
        (∀ i, 2 ≤ i → S i < Size v → at_index v' i = at_index v (S i)) ∧
        (3 = Size v → 2 = Size v').
Proof.
  intros v.
  assert (represents v [1; 99; 3; 0]) as H1 by (vm_compute; repeat split; lia).
  assert (2 < length [1; 99; 3; 0]) as H2 by (simpl; lia).
  assert (Forall (no_throw (ET := plain_nat)) [1; 99; 3; 0]) as H3 by (repeat constructor).
  split; [exact H1|]. split; [exact H2|]. split; [exact H3|].
  exact (Erase_spec (ET := plain_nat) v [1; 99; 3; 0] 2 H1 H2 H3).
Defined.

(** C9 at an empty [t] and [s] holding 1, 2, 3 *)
Lemma copy_assign_spec_witness :
  let s : Vector :=
    {| data_ := {| buffer_ := [Some 1; Some 2; Some 3; None]; capacity_ := 4 |}; size_ := 3 |} in
  let σ := <[0 := Vector_default]> (λ _ : nat, s) in
  0 ≠ 1 ∧ represents (σ 0) [] ∧ represents (σ 1) [1; 2; 3] ∧
  ∃ σ' o, copy_assign (ET := plain_nat) 0 1 σ = (σ', o) ∧
          (∀ l, l ≠ 0 → σ' l = σ l) ∧
          (Capacity (σ 0) < length [1; 2; 3] →
           o = Normal tt ∧ represents (σ' 0) [1; 2; 3] ∧ Capacity (σ' 0) = length [1; 2; 3]).
Proof.
  intros s σ.
  assert (0 ≠ 1) as H1 by lia.
  assert (represents (σ 0) []) as H2 by (vm_compute; repeat split; lia).
  assert (represents (σ 1) [1; 2; 3]) as H3 by (vm_compute; repeat split; lia).
  split; [exact H1|]. split; [exact H2|]. split; [exact H3|].
  destruct (copy_assign_spec (ET := plain_nat) σ 0 1 [] [1; 2; 3] H1 H2 H3)
    as (σ' & o & Hca & Hfr & Hgrow & _).
  exists σ', o. split; [exact Hca|]. split; [exact Hfr|exact Hgrow].
Defined.

(** C10 at a vector holding 1, 2, 3 *)
Lemma self_copy_assign_witness :
  let s : Vector :=
    {| data_ := {| buffer_ := [Some 1; Some 2; Some 3; None]; capacity_ := 4 |}; size_ := 3 |} in
  let σ := (λ _ : nat, s) in
  represents (σ 0) [1; 2; 3] ∧
  ∃ σ' o, copy_assign (ET := plain_nat) 0 0 σ = (σ', o) ∧
          (∀ l, σ' l = σ l) ∧
          (o = Normal tt ∨ o = Throw element_exception) ∧
          (Forall (λ x, copy_assign_throws (ElementType := plain_nat) x = false) [1; 2; 3] →
           o = Normal tt).
Proof.
  intros s σ.
  assert (represents (σ 0) [1; 2; 3]) as H1 by (vm_compute; repeat split; lia).
  split; [exact H1|].
  exact (self_copy_assign (ET := plain_nat) σ 0 [1; 2; 3] H1).
Defined.

(** ** Instances of the further properties *)

(** X1 at [1; 2; 3] in a block of 4 slots, Reserve(10) *)
Lemma Reserve_spec_witness :
  let v : Vector :=
    {| data_ := {| buffer_ := [Some 1; Some 2; Some 3; None]; capacity_ := 4 |}; size_ := 3 |} in
  represents v [1; 2; 3] ∧ is_copy_constructible (ElementType := plain_nat) = true ∧
  (Capacity v < 10 → fits 10 = true) ∧
  (10 ≤ Capacity v → Reserve (ET := plain_nat) 10 v = (v, Normal tt)) ∧
  ((∃ v', Reserve (ET := plain_nat) 10 v = (v', Normal tt) ∧ represents v' [1; 2; 3] ∧
          Capacity v' = max 10 (Capacity v)) ∨
   (∃ e, Reserve (ET := plain_nat) 10 v = (v, Throw e) ∧ Capacity v < 10)).
Proof.
  intros v.
  assert (represents v [1; 2; 3]) as H1 by (vm_compute; repeat split; lia).
  assert (is_copy_constructible (ElementType := plain_nat) = true) as H2 by reflexivity.
  assert (Capacity v < 10 → fits 10 = true) as H3 by reflexivity.
  split; [exact H1|]. split; [exact H2|]. split; [exact H3|].
  exact (Reserve_spec (ET := plain_nat) 10 v [1; 2; 3] H1 H2 H3).
Defined.

(** X2 at [1; 2; 3] in a block of 4 slots, Resize(5) *)
Lemma Resize_spec_witness :
  let v : Vector :=
    {| data_ := {| buffer_ := [Some 1; Some 2; Some 3; None]; capacity_ := 4 |}; size_ := 3 |} in
  represents v [1; 2; 3] ∧ is_copy_constructible (ElementType := plain_nat) = true ∧
  (length [1; 2; 3] < 5 → fits 5 = true) ∧
  ((∃ v', Resize (ET := plain_nat) 5 v = (v', Normal tt) ∧
          represents v' (take 5 [1; 2; 3] ++
                         replicate (5 - length [1; 2; 3]) (value_init (ElementType := plain_nat))) ∧
          Capacity v' = max 5 (Capacity v)) ∨
   (∃ v' e, Resize (ET := plain_nat) 5 v = (v', Throw e) ∧ represents v' [1; 2; 3] ∧
            length [1; 2; 3] < 5)).
Proof.
  intros v.
  assert (represents v [1; 2; 3]) as H1 by (vm_compute; repeat split; lia).
  assert (is_copy_constructible (ElementType := plain_nat) = true) as H2 by reflexivity.
  assert (length [1; 2; 3] < 5 → fits 5 = true) as H3 by reflexivity.
  split; [exact H1|]. split; [exact H2|]. split; [exact H3|].
  exact (Resize_spec (ET := plain_nat) 5 v [1; 2; 3] H1 H2 H3).
Defined.

(** X3 at a full vector of a type relocated by copy whose second element
    cannot be copied, PushBack(7) *)
Lemma PushBack_commit_or_rollback_witness :
  let v : Vector :=
    {| data_ := {| buffer_ := [Some 1; Some 2]; capacity_ := 2 |}; size_ := 2 |} in
  represents v [1; 2] ∧ is_copy_constructible (ElementType := fragile_nat 2) = true ∧
  ((∃ v', PushBack (ET := fragile_nat 2) 7 v = (v', Normal tt) ∧ represents v' ([1; 2] ++ [7])) ∨
   (∃ e, PushBack (ET := fragile_nat 2) 7 v = (v, Throw e))).
Proof.
  intros v.
  assert (represents v [1; 2]) as H1 by (vm_compute; repeat split; lia).
  assert (is_copy_constructible (ElementType := fragile_nat 2) = true) as H2 by reflexivity.
  split; [exact H1|]. split; [exact H2|].
  exact (PushBack_commit_or_rollback (ET := fragile_nat 2) v [1; 2] 7 H1 H2).
Defined.

(** X4 at [1; 2; 3] in a block of 4 slots *)
Lemma PopBack_spec_witness :
  let v : Vector :=
    {| data_ := {| buffer_ := [Some 1; Some 2; Some 3; None]; capacity_ := 4 |}; size_ := 3 |} in
  represents v [1; 2; 3] ∧
  ([1; 2; 3] = [] → PopBack v = (v, Undefined)) ∧
  ([1; 2; 3] ≠ [] → ∃ v', PopBack v = (v', Normal tt) ∧
                          represents v' (take (length [1; 2; 3] - 1) [1; 2; 3]) ∧
                          Capacity v' = Capacity v).
Proof.
  intros v.
  assert (represents v [1; 2; 3]) as H1 by (vm_compute; repeat split; lia).
  split; [exact H1|].
  exact (PopBack_spec (ET := plain_nat) v [1; 2; 3] H1).
Defined.

(** X5 at a full vector holding 1, 2, PushBack(7) then PopBack *)
Lemma PushBack_PopBack_round_trip_witness :
  let v : Vector :=
    {| data_ := {| buffer_ := [Some 1; Some 2]; capacity_ := 2 |}; size_ := 2 |} in
  represents v [1; 2] ∧ Forall (no_throw (ET := plain_nat)) [1; 2] ∧
  no_throw (ET := plain_nat) 7 ∧
  (size_ v = Capacity v → alloc_fails (ElementType := plain_nat) (grown_capacity v) = false) ∧
  ∃ v1 v2, PushBack (ET := plain_nat) 7 v = (v1, Normal tt) ∧ PopBack v1 = (v2, Normal tt) ∧
           represents v2 [1; 2] ∧ Capacity v2 = Capacity v1 ∧ Capacity v ≤ Capacity v2.
Proof.
  intros v.
  assert (represents v [1; 2]) as H1 by (vm_compute; repeat split; lia).
  assert (Forall (no_throw (ET := plain_nat)) [1; 2]) as H2 by (repeat constructor).
  assert (no_throw (ET := plain_nat) 7) as H3 by (repeat constructor).
  assert (size_ v = Capacity v →
          alloc_fails (ElementType := plain_nat) (grown_capacity v) = false) as H4
    by reflexivity.
  split; [exact H1|]. split; [exact H2|]. split; [exact H3|]. split; [exact H4|].
  exact (PushBack_PopBack_round_trip (ET := plain_nat) v [1; 2] 7 H1 H2 H3 H4).
Defined.

(** X6 at [1; 2; 3] in a block of 4 slots, Insert(begin() + 1, 99) then
    Erase of the iterator returned *)
Lemma Insert_Erase_round_trip_witness :
  let v : Vector :=
    {| data_ := {| buffer_ := [Some 1; Some 2; Some 3; None]; capacity_ := 4 |}; size_ := 3 |} in
  represents v [1; 2; 3] ∧ 1 ≤ length [1; 2; 3] ∧
  Forall (no_throw (ET := plain_nat)) [1; 2; 3] ∧ no_throw (ET := plain_nat) 99 ∧
  (size_ v = Capacity v → alloc_fails (ElementType := plain_nat) (grown_capacity v) = false) ∧
  ∃ v1 v2 it, Insert (ET := plain_nat) 1 99 v = (v1, Normal it) ∧
              Erase (ET := plain_nat) it v1 = (v2, Normal 1) ∧ represents v2 [1; 2; 3].
Proof.
  intros v.
  assert (represents v [1; 2; 3]) as H1 by (vm_compute; repeat split; lia).
  assert (1 ≤ length [1; 2; 3]) as H2 by (simpl; lia).
  assert (Forall (no_throw (ET := plain_nat)) [1; 2; 3]) as H3 by (repeat constructor).
  assert (no_throw (ET := plain_nat) 99) as H4 by (repeat constructor).
  assert (size_ v = Capacity v →
          alloc_fails (ElementType := plain_nat) (grown_capacity v) = false) as H5
    by reflexivity.
  split; [exact H1|]. split; [exact H2|]. split; [exact H3|]. split; [exact H4|].
  split; [exact H5|].
  exact (Insert_Erase_round_trip (ET := plain_nat) v [1; 2; 3] 1 99 H1 H2 H3 H4 H5).
Defined.

(** X7 at [1; 2; 3] in a block of 4 slots *)
Lemma at_index_spec_witness :
  let v : Vector :=
    {| data_ := {| buffer_ := [Some 1; Some 2; Some 3; None]; capacity_ := 4 |}; size_ := 3 |} in
  represents v [1; 2; 3] ∧
  (∀ i x, [1; 2; 3] !! i = Some x → at_index v i = Normal x) ∧
  (∀ i, Size v ≤ i → at_index v i = Undefined).
Proof.
  intros v.
  assert (represents v [1; 2; 3]) as H1 by (vm_compute; repeat split; lia).
  split; [exact H1|].
  exact (at_index_spec (ET := plain_nat) v [1; 2; 3] H1).
Defined.

(** X8 at Vector(3) *)
Lemma Vector_sized_spec_witness :
  fits 3 = true ∧
  ∃ v, Vector_sized (ET := plain_nat) 3 = Normal v ∧
       represents v (replicate 3 (value_init (ElementType := plain_nat))) ∧ Capacity v = 3.
Proof.
  assert (fits 3 = true) as H1 by reflexivity.
  split; [exact H1|].
  pose proof (Vector_sized_spec (ET := plain_nat) 3 H1) as H.
  destruct (Vector_sized (ET := plain_nat) 3) as [v|[]|] eqn:E;
    [|exfalso; vm_compute in E; discriminate..].
  exists v. split; [reflexivity|]. split; [exact (proj1 H)|exact (proj1 (proj2 H))].
Defined.



(** X12 at five PushBack calls: the capacity is 8 *)
Lemma PushBack_capacity_power_of_two_witness :
  let v' : Vector :=
    {| data_ := {| buffer_ := [Some 1; Some 2; Some 3; Some 4; Some 5; None; None; None];
                   capacity_ := 8 |}; size_ := 5 |} in
  PushBack_all (ET := plain_nat) [1; 2; 3; 4; 5] Vector_default = (v', Normal tt) ∧
  [1; 2; 3; 4; 5] ≠ [] ∧
  Size v' = length [1; 2; 3; 4; 5] ∧
  ∃ k, Capacity v' = 2 ^ k ∧ length [1; 2; 3; 4; 5] ≤ 2 ^ k ∧
       2 ^ k < 2 * length [1; 2; 3; 4; 5].
Proof.
  intros v'.
  assert (PushBack_all (ET := plain_nat) [1; 2; 3; 4; 5] Vector_default = (v', Normal tt))
    as H1 by (vm_compute; reflexivity).
  assert ([1; 2; 3; 4; 5] ≠ []) as H2 by discriminate.
  split; [exact H1|]. split; [exact H2|].
  exact (PushBack_capacity_power_of_two (ET := plain_nat) [1; 2; 3; 4; 5] v' H1 H2).
Defined.

(** X13 at [1] in a block of 4 slots, with an allocator that has no memory:
    PushBack(2), PushBack(3) *)
Lemma PushBack_within_capacity_witness :
  let v : Vector :=
    {| data_ := {| buffer_ := [Some 1; None; None; None]; capacity_ := 4 |}; size_ := 1 |} in
  represents v [1] ∧ length [1] + length [2; 3] ≤ Capacity v ∧
  Forall (λ y, copy_throws (ElementType := starved_nat) y = false) [2; 3] ∧
  ∃ v', PushBack_all (ET := starved_nat) [2; 3] v = (v', Normal tt) ∧
        represents v' ([1] ++ [2; 3]) ∧ Capacity v' = Capacity v.
Proof.
  intros v.
  assert (represents v [1]) as H1 by (vm_compute; repeat split; lia).
  assert (length [1] + length [2; 3] ≤ Capacity v) as H2 by (vm_compute; lia).
  assert (Forall (λ y, copy_throws (ElementType := starved_nat) y = false) [2; 3]) as H3
    by (repeat constructor).
  split; [exact H1|]. split; [exact H2|]. split; [exact H3|].
  exact (PushBack_within_capacity (ET := starved_nat) [2; 3] v [1] H1 H2 H3).
Defined.

(** X14 at [1; 2; 3] in a block of 4 slots and the calls PushBack(4),
    Insert(begin() + 1, 99), Erase(begin()), PopBack(), Resize(6),
    Reserve(10) *)
Lemma operations_compose_witness :
  let v : Vector :=
    {| data_ := {| buffer_ := [Some 1; Some 2; Some 3; None]; capacity_ := 4 |}; size_ := 3 |} in
  let ops := [OpPushBack 4; OpInsert 1 99; OpErase 0; OpPopBack; OpResize 6; OpReserve 10] in
  represents v [1; 2; 3] ∧ valid_all (ET := plain_nat) ops [1; 2; 3] ∧
  (∀ n, alloc_fails (ElementType := plain_nat) n = false) ∧
  value_init_throws (ElementType := plain_nat) = false ∧
  (∀ x, no_throw (ET := plain_nat) x) ∧
  returns_all (ET := plain_nat) ops v ∧
  represents (run_all (ET := plain_nat) ops v) (effect_all (ET := plain_nat) ops [1; 2; 3]) ∧
  invariant (run_all (ET := plain_nat) ops v) = true.
Proof.
  intros v ops.
  assert (represents v [1; 2; 3]) as H1 by (vm_compute; repeat split; lia).
  assert (valid_all (ET := plain_nat) ops [1; 2; 3]) as H2 by (vm_compute; repeat split; lia).
  assert (∀ n, alloc_fails (ElementType := plain_nat) n = false) as H3 by reflexivity.
  assert (value_init_throws (ElementType := plain_nat) = false) as H4 by reflexivity.
  assert (∀ x, no_throw (ET := plain_nat) x) as H5 by (intros x; repeat split).
  split; [exact H1|]. split; [exact H2|]. split; [exact H3|]. split; [exact H4|].
  split; [exact H5|].
  exact (operations_compose (ET := plain_nat) ops v [1; 2; 3] H1 H2 H3 H4 H5).
Defined.

(** X15 at a full vector holding 1, 2 *)
Lemma EmplaceBack_spec_witness :
  let v : Vector :=
    {| data_ := {| buffer_ := [Some 1; Some 2]; capacity_ := 2 |}; size_ := 2 |} in
  represents v [1; 2] ∧ Forall (no_throw (ET := plain_nat)) [1; 2] ∧
  (size_ v = Capacity v → alloc_fails (ElementType := plain_nat) (grown_capacity v) = false) ∧
  ∃ v' ref, EmplaceBack (ET := plain_nat) (Normal 7) v = (v', Normal ref) ∧
            represents v' ([1; 2] ++ [7]) ∧ Size v' = Size v + 1 ∧
            ref = Size v' - 1 ∧ at_index v' ref = Normal 7 ∧
            Capacity v' = (if size_ v =? Capacity v then max 1 (Capacity v * 2)
                           else Capacity v).
Proof.
  intros v.
  assert (represents v [1; 2]) as H1 by (vm_compute; repeat split; lia).
  assert (Forall (no_throw (ET := plain_nat)) [1; 2]) as H2 by (repeat constructor).
  assert (size_ v = Capacity v →
          alloc_fails (ElementType := plain_nat) (grown_capacity v) = false) as H3
    by reflexivity.
  split; [exact H1|]. split; [exact H2|]. split; [exact H3|].
  exact (EmplaceBack_spec (ET := plain_nat) v [1; 2] 7 H1 H2 H3).
Defined.

(** X16 at [1; 2; 3] in a block of 4 slots, Emplace(begin() + 1, 99) *)
Lemma Emplace_spec_witness :
  let v : Vector :=
    {| data_ := {| buffer_ := [Some 1; Some 2; Some 3; None]; capacity_ := 4 |}; size_ := 3 |} in
  represents v [1; 2; 3] ∧ 1 ≤ length [1; 2; 3] ∧
  Forall (no_throw (ET := plain_nat)) [1; 2; 3] ∧
  move_assign_throws (ElementType := plain_nat) 99 = false ∧
  (size_ v = Capacity v → alloc_fails (ElementType := plain_nat) (grown_capacity v) = false) ∧
  ∃ v', Emplace (ET := plain_nat) 1 (Normal 99) v = (v', Normal 1) ∧
        represents v' (take 1 [1; 2; 3] ++ 99 :: drop 1 [1; 2; 3]) ∧ Size v' = Size v + 1 ∧
        at_index v' 1 = Normal 99 ∧
        (∀ i, i < 1 → at_index v' i = at_index v i) ∧
        (∀ i, 1 ≤ i → i < Size v → at_index v' (S i) = at_index v i) ∧
        Capacity v' = (if size_ v =? Capacity v then max 1 (Capacity v * 2)
                       else Capacity v).
Proof.
  intros v.
  assert (represents v [1; 2; 3]) as H1 by (vm_compute; repeat split; lia).
  assert (1 ≤ length [1; 2; 3]) as H2 by (simpl; lia).
  assert (Forall (no_throw (ET := plain_nat)) [1; 2; 3]) as H3 by (repeat constructor).
  assert (move_assign_throws (ElementType := plain_nat) 99 = false) as H4 by reflexivity.
  assert (size_ v = Capacity v →
          alloc_fails (ElementType := plain_nat) (grown_capacity v) = false) as H5
    by reflexivity.
  split; [exact H1|]. split; [exact H2|]. split; [exact H3|]. split; [exact H4|].
  split; [exact H5|].
  exact (Emplace_spec (ET := plain_nat) v [1; 2; 3] 1 99 H1 H2 H3 H4 H5).
Defined.

(** X17 at a full vector holding 1, 2 and a constructor call that throws,
    at the end and at begin() *)
Lemma emplace_constructor_throws_witness :
  let v : Vector :=
    {| data_ := {| buffer_ := [Some 1; Some 2]; capacity_ := 2 |}; size_ := 2 |} in
  represents v [1; 2] ∧ 0 ≤ length [1; 2] ∧
  EmplaceBack (ET := plain_nat) (Throw element_exception) v = (v, Throw element_exception) ∧
  Emplace (ET := plain_nat) 0 (Throw element_exception) v = (v, Throw element_exception).
Proof.
  intros v.
  assert (represents v [1; 2]) as H1 by (vm_compute; repeat split; lia).
  assert (0 ≤ length [1; 2]) as H2 by (simpl; lia).
  split; [exact H1|]. split; [exact H2|].
  exact (emplace_constructor_throws (ET := plain_nat) v [1; 2] 0 element_exception H1 H2).
Defined.

(** X19 at [5; 6] in a block of 4 slots, for a type whose moved-from value
    is 0: PushBack(std::move(v[0])) *)
Lemma PushBack_rvalue_spec_witness :
  let v : Vector :=
    {| data_ := {| buffer_ := [Some 5; Some 6; None; None]; capacity_ := 4 |}; size_ := 2 |} in
  represents v [5; 6] ∧ refers_to (Inside 0) [5; 6] 5 ∧
  move_ctor_throws (ET := emptied_nat) 5 = false ∧
  Forall (no_throw (ET := emptied_nat)) (after_move (ET := emptied_nat) (Inside 0) [5; 6] 5) ∧
  (size_ v = Capacity v → alloc_fails (ElementType := emptied_nat) (grown_capacity v) = false) ∧
  ∃ v', PushBack_rvalue (ET := emptied_nat) (Inside 0) v
        = ((v', argument_after_move (ET := emptied_nat) (Inside 0)), Normal tt) ∧
        represents v' ([0; 6] ++ [5]) ∧
        Capacity v' = (if size_ v =? Capacity v then max 1 (Capacity v * 2)
                       else Capacity v).
Proof.
  intros v.
  assert (represents v [5; 6]) as H1 by (vm_compute; repeat split; lia).
  assert (refers_to (Inside 0) [5; 6] 5) as H2 by reflexivity.
  assert (move_ctor_throws (ET := emptied_nat) 5 = false) as H3 by reflexivity.
  assert (Forall (no_throw (ET := emptied_nat))
            (after_move (ET := emptied_nat) (Inside 0) [5; 6] 5)) as H4
    by (repeat constructor).
  assert (size_ v = Capacity v →
          alloc_fails (ElementType := emptied_nat) (grown_capacity v) = false) as H5
    by reflexivity.
  split; [exact H1|]. split; [exact H2|]. split; [exact H3|]. split; [exact H4|].
  split; [exact H5|].
  exact (PushBack_rvalue_spec (ET := emptied_nat) (Inside 0) v [5; 6] 5 H1 H2 H3 H4 H5).
Defined.

(** X20 at [5; 6; 7] in a block of 4 slots, for a type whose moved-from
    value is 0: Insert(begin() + 1, std::move(x)) with [x] holding 9 *)
Lemma Insert_rvalue_spec_witness :
  let v : Vector :=
    {| data_ := {| buffer_ := [Some 5; Some 6; Some 7; None]; capacity_ := 4 |}; size_ := 3 |} in
  represents v [5; 6; 7] ∧ 1 ≤ length [5; 6; 7] ∧ refers_to (Outside 9) [5; 6; 7] 9 ∧
  move_ctor_throws (ET := emptied_nat) 9 = false ∧
  move_assign_throws (ElementType := emptied_nat) 9 = false ∧
  Forall (no_throw (ET := emptied_nat)) (after_move (ET := emptied_nat) (Outside 9) [5; 6; 7] 9) ∧
  (size_ v = Capacity v → alloc_fails (ElementType := emptied_nat) (grown_capacity v) = false) ∧
  ∃ v', Insert_rvalue (ET := emptied_nat) 1 (Outside 9) v = ((v', Outside 0), Normal 1) ∧
        represents v' (take 1 [5; 6; 7] ++ 9 :: drop 1 [5; 6; 7]) ∧
        Capacity v' = (if size_ v =? Capacity v then max 1 (Capacity v * 2)
                       else Capacity v).
Proof.
  intros v.
  assert (represents v [5; 6; 7]) as H1 by (vm_compute; repeat split; lia).
  assert (1 ≤ length [5; 6; 7]) as H2 by (simpl; lia).
  assert (refers_to (Outside 9) [5; 6; 7] 9) as H3 by reflexivity.
  assert (move_ctor_throws (ET := emptied_nat) 9 = false) as H4 by reflexivity.
  assert (move_assign_throws (ElementType := emptied_nat) 9 = false) as H5 by reflexivity.
  assert (Forall (no_throw (ET := emptied_nat))
            (after_move (ET := emptied_nat) (Outside 9) [5; 6; 7] 9)) as H6
    by (repeat constructor).
  assert (size_ v = Capacity v →
          alloc_fails (ElementType := emptied_nat) (grown_capacity v) = false) as H7
    by reflexivity.
  split; [exact H1|]. split; [exact H2|]. split; [exact H3|]. split; [exact H4|].
  split; [exact H5|]. split; [exact H6|]. split; [exact H7|].
  exact (Insert_rvalue_spec (ET := emptied_nat) 1 (Outside 9) v [5; 6; 7] 9
           H1 H2 H3 H4 H5 H6 H7).
Defined.

(** X21 at a full vector holding 1, 2 of a type relocated by copy whose
    copy constructor throws on 2 and whose moved-from value is 0:
    PushBack(std::move(x)) with [x] holding 7 *)
Lemma PushBack_rvalue_consumes_argument_witness :
  let v : Vector :=
    {| data_ := {| buffer_ := [Some 1; Some 2]; capacity_ := 2 |}; size_ := 2 |} in
  represents v [1; 2] ∧ size_ v = Capacity v ∧
  alloc_fails (ElementType := unmarked_nat 2) (grown_capacity v) = false ∧
  is_copy_constructible (ElementType := unmarked_nat 2) = true ∧
  is_nothrow_move_constructible (ElementType := unmarked_nat 2) = false ∧
  move_throws (ElementType := unmarked_nat 2) 7 = false ∧
  Exists (λ z, copy_throws (ElementType := unmarked_nat 2) z = true) [1; 2] ∧
  PushBack_rvalue (ET := unmarked_nat 2) (Outside 7) v
  = ((v, Outside 0), Throw element_exception).
Proof.
  intros v.
  assert (represents v [1; 2]) as H1 by (vm_compute; repeat split; lia).
  assert (size_ v = Capacity v) as H2 by reflexivity.
  assert (alloc_fails (ElementType := unmarked_nat 2) (grown_capacity v) = false) as H3
    by reflexivity.
  assert (is_copy_constructible (ElementType := unmarked_nat 2) = true) as H4 by reflexivity.
  assert (is_nothrow_move_constructible (ElementType := unmarked_nat 2) = false) as H5
    by reflexivity.
  assert (move_throws (ElementType := unmarked_nat 2) 7 = false) as H6 by reflexivity.
  assert (Exists (λ z, copy_throws (ElementType := unmarked_nat 2) z = true) [1; 2]) as H7
    by (apply Exists_cons_tl, Exists_cons_hd; reflexivity).
  split; [exact H1|]. split; [exact H2|]. split; [exact H3|]. split; [exact H4|].
  split; [exact H5|]. split; [exact H6|]. split; [exact H7|].
  exact (PushBack_rvalue_consumes_argument (ET := unmarked_nat 2) v [1; 2] 7
           H1 H2 H3 H4 H5 H6 H7).
Defined.

(** X22 at a full vector holding 1, 2 of a type relocated by copy whose
    copy constructor throws on 2: Insert(begin(), 7) *)
Lemma relocation_failure_not_reported_witness :
  let v : Vector :=
    {| data_ := {| buffer_ := [Some 1; Some 2]; capacity_ := 2 |}; size_ := 2 |} in
  0 < size_ v ∧ size_ v = Capacity v ∧
  alloc_fails (ElementType := fragile_nat 2) (grown_capacity v) = false ∧
  (∀ v' e, Emplace (ET := fragile_nat 2) 0 (Normal 7) v ≠ (v', Throw e)) ∧
  (copy_throws (ElementType := fragile_nat 2) 7 = false →
   ∀ v' e, Insert (ET := fragile_nat 2) 0 7 v ≠ (v', Throw e)).
Proof.
  intros v.
  assert (0 < size_ v) as H1 by (vm_compute; lia).
  assert (size_ v = Capacity v) as H2 by reflexivity.
  assert (alloc_fails (ElementType := fragile_nat 2) (grown_capacity v) = false) as H3
    by reflexivity.
  split; [exact H1|]. split; [exact H2|]. split; [exact H3|].
  exact (relocation_failure_not_reported (ET := fragile_nat 2) 0 7 v H1 H2 H3).
Defined.

(** X23 at [1; 2; 3] in a block of 4 slots *)
Lemma Vector_dtor_spec_witness :
  let v : Vector :=
    {| data_ := {| buffer_ := [Some 1; Some 2; Some 3; None]; capacity_ := 4 |}; size_ := 3 |} in
  represents v [1; 2; 3] ∧
  destroy_n (block_of v) 0 (size_ v) = (replicate (Capacity v) None, Normal tt) ∧
  Vector_dtor v = Normal tt.
Proof.
  intros v.
  assert (represents v [1; 2; 3]) as H1 by (vm_compute; repeat split; lia).
  split; [exact H1|].
  exact (Vector_dtor_spec (ET := plain_nat) v [1; 2; 3] H1).
Defined.

(** X25 at Vector(2^61 + 1) and Reserve(2^61 + 1) on an empty vector of
    64-bit integers: the product is 2^64 + 8, which wraps to 8, the size of
    one element *)
Lemma count_overflow_witness :
  represents (@Vector_default nat) [] ∧ Forall (no_throw (ET := plain_nat)) [] ∧
  fits (2 ^ 61 + 1) = false ∧
  alloc_fails (ElementType := plain_nat) (2 ^ 61 + 1) = false ∧
  value_init_throws (ElementType := plain_nat) = false ∧
  allocation_slots (2 ^ 61 + 1) = 1 ∧
  allocation_slots (2 ^ 61 + 1) < 2 ^ 61 + 1 ∧
  Vector_sized (ET := plain_nat) (2 ^ 61 + 1) = Undefined ∧
  (Capacity (@Vector_default nat) < 2 ^ 61 + 1 →
   length (@nil nat) ≤ allocation_slots (2 ^ 61 + 1) →
   ∃ v', Reserve (ET := plain_nat) (2 ^ 61 + 1) Vector_default = (v', Normal tt) ∧
         Capacity v' = 2 ^ 61 + 1 ∧ Size v' = length (@nil nat) ∧
         block_of v'
         = (Some <$> []) ++ replicate (allocation_slots (2 ^ 61 + 1) - length (@nil nat)) None ∧
         invariant v' = false).
Proof.
  assert (represents (@Vector_default nat) []) as H1 by (vm_compute; repeat split; lia).
  assert (Forall (no_throw (ET := plain_nat)) []) as H2 by constructor.
  assert (fits (2 ^ 61 + 1) = false) as H3.
  { unfold fits. apply N.leb_gt. rewrite Nat2N.inj_add, Nat2N.inj_pow. reflexivity. }
  assert (alloc_fails (ElementType := plain_nat) (2 ^ 61 + 1) = false) as H4 by reflexivity.
  assert (value_init_throws (ElementType := plain_nat) = false) as H5 by reflexivity.
  assert (allocation_slots (2 ^ 61 + 1) = 1) as H6.
  { unfold allocation_slots, allocation_bytes.
    rewrite Nat2N.inj_add, Nat2N.inj_pow. reflexivity. }
  split; [exact H1|]. split; [exact H2|]. split; [exact H3|]. split; [exact H4|].
  split; [exact H5|]. split; [exact H6|].
  exact (count_overflow (ET := plain_nat) (2 ^ 61 + 1) Vector_default [] H1 H2 H3 H4 H5).
Defined.
